(** * AI Studio Extended: authorization hashing, key rotation and prompt conversion

    A shallow embedding of the request-dispatch core of the extension:
    - [src/api/auth.ts]: the SHA-1 generator ([createHashGenerator]) and the
      token derivation built on it ([calculateHash], [createAuthParams],
      [createAuthHash]);
    - [new-prompt.ts]: key discovery ([findApiKeys]), the dispatcher
      [sendMakerSuiteRequest] with its retry loop ([attemptRequestWithKeys]
      and the callbacks of its requests, which share the module variables
      with every other call) and the schema converter
      ([convertResponseSchema], [convertPromptAPI], [convertPromptStudio],
      [convertPromptData]).

    JavaScript numbers that the code only ever uses as integers are modelled
    as [Z]; the 32-bit coercions of the bitwise operators are written out.
    Strings are modelled as [string], each character standing for one byte of
    the UTF-8 encoding of the text. *)

From Stdlib Require Import ZArith QArith String Ascii Bool Lia List DecimalString.
Import ListNotations.
Local Open Scope string_scope.
Local Open Scope list_scope.
Local Open Scope Z_scope.
Set Warnings "-register-all".

(** ** Outcomes of a call

    A call returns a value, throws, or (in the model only) runs out of the
    fuel that bounds a loop or a recursion. *)

Inductive result (A : Type) : Type :=
| Ok (a : A)
| Throw (message : string)
| OutOfFuel.

Arguments Ok {A} a.
Arguments Throw {A} message.
Arguments OutOfFuel {A}.

Definition bind {A B : Type} (c : result A) (k : A -> result B) : result B :=
  match c with
  | Ok a => k a
  | Throw m => Throw m
  | OutOfFuel => OutOfFuel
  end.

Notation "x <- c ;; k" := (bind c (fun x => k))
  (at level 61, c at next level, right associativity).

Definition ofOption {A : Type} (o : option A) : result A :=
  match o with
  | Some a => Ok a
  | None => OutOfFuel
  end.

(** ** JavaScript 32-bit integer operators *)

Module Int32.

Definition toInt32 (z : Z) : Z := (z + 2 ^ 31) mod 2 ^ 32 - 2 ^ 31.
Definition toUint32 (z : Z) : Z := z mod 2 ^ 32.

(** [a & b], [a | b], [a ^ b], [~a] *)
Definition band (a b : Z) : Z := Z.land (toInt32 a) (toInt32 b).
Definition bor (a b : Z) : Z := Z.lor (toInt32 a) (toInt32 b).
Definition bxor (a b : Z) : Z := Z.lxor (toInt32 a) (toInt32 b).
Definition bnot (a : Z) : Z := Z.lnot (toInt32 a).

(** [a << n], [a >> n], [a >>> n]; the shift count is taken modulo 32 *)
Definition shl (a n : Z) : Z := toInt32 (Z.shiftl (toInt32 a) (n mod 32)).
Definition shr (a n : Z) : Z := Z.shiftr (toInt32 a) (n mod 32).
Definition shru (a n : Z) : Z := Z.shiftr (toUint32 a) (n mod 32).

(** The literal [0xffffffff] *)
Definition mask32 : Z := 4294967295.

End Int32.

(** ** The hash generator of [createHashGenerator] *)

Module Sha1.
Import Int32.

(** The closure variables [hashValues], [messageBuffer], [bufferPos] and
    [totalLength].  [wordArray] is overwritten by every [processBlock] call
    before it is read, so it is local to [processBlock] here.  A hole or an
    [undefined] entry of a number array is represented by [0], the value it
    has under the bitwise operators that read it. *)
Record HashState : Type := mkState {
  hashValues : list Z;
  messageBuffer : list Z;
  bufferPos : nat;
  totalLength : Z
}.

(** [reset()], applied to the freshly created closure *)
Definition reset : HashState :=
  {| hashValues := [1732584193; 4023233417; 2562383102; 271733878; 3285377520];
     messageBuffer := [];
     bufferPos := 0;
     totalLength := 0 |}.

(** [padding]: 128 followed by 63 zeros *)
Definition padding : list Z := 128 :: repeat 0 63.

(** [arr[i] = v] on a number array *)
Definition arraySet (l : list Z) (i : nat) (v : Z) : list Z :=
  firstn i l ++ repeat 0 (i - length l) ++ v :: skipn (S i) l.

(** [data.slice(from, to)] *)
Definition slice (data : list Z) (from to : nat) : list Z :=
  firstn (to - from) (skipn from data).

(** [(block[i] << 24) | (block[i + 1] << 16) | (block[i + 2] << 8) | block[i + 3]] *)
Definition loadWord (block : list Z) (i : nat) : Z :=
  bor (bor (bor (shl (nth i block 0) 24) (shl (nth (i + 1) block 0) 16))
           (shl (nth (i + 2) block 0) 8))
      (nth (i + 3) block 0).

(** The first loop of [processBlock]: [wordArray[0..15]] *)
Definition loadWords (block : list Z) : list Z :=
  map (fun j => loadWord block (4 * j)) (seq 0 16).

(** The second loop of [processBlock]: [n] more words are appended,
    [wordArray[i]] for [i = length w] onwards *)
Fixpoint extendWords (n : nat) (w : list Z) : list Z :=
  match n with
  | O => w
  | S n' =>
      let i := length w in
      let x := bxor (bxor (bxor (nth (i - 3) w 0) (nth (i - 8) w 0))
                          (nth (i - 14) w 0))
                    (nth (i - 16) w 0) in
      extendWords n' (w ++ [band (bor (shl x 1) (shru x 31)) mask32])
  end.

(** The branch on [i] in the main loop: the pair [(f, k)] *)
Definition roundFK (i : Z) (b c d : Z) : Z * Z :=
  if i <? 20 then (bor (band b c) (band (bnot b) d), 1518500249)
  else if i <? 40 then (bxor (bxor b c) d, 1859775393)
  else if i <? 60 then (bor (band b c) (band d (bor b c)), 2400959708)
  else (bxor (bxor b c) d, 3395469782).

Definition Regs : Type := (Z * Z * Z * Z * Z)%type.

(** The main loop of [processBlock], [n] iterations from index [i] *)
Fixpoint rounds (n i : nat) (w : list Z) (r : Regs) : Regs :=
  match n with
  | O => r
  | S n' =>
      let '(a, b, c, d, e) := r in
      let '(f, k) := roundFK (Z.of_nat i) b c d in
      let temp :=
        band (band (bor (shl a 5) (shru a 27)) mask32 + f + e + k + nth i w 0)
             mask32 in
      rounds n' (S i) w (temp, a, band (bor (shl b 30) (shru b 2)) mask32, c, d)
  end.

(** [processBlock(block)]: the new contents of [hashValues] *)
Definition processBlock (hv : list Z) (block : list Z) : list Z :=
  let w := extendWords 64 (loadWords block) in
  let '(a, b, c, d, e) :=
    rounds 80 0 w (nth 0 hv 0, nth 1 hv 0, nth 2 hv 0, nth 3 hv 0, nth 4 hv 0) in
  [band (nth 0 hv 0 + a) mask32;
   band (nth 1 hv 0 + b) mask32;
   band (nth 2 hv 0 + c) mask32;
   band (nth 3 hv 0 + d) mask32;
   band (nth 4 hv 0 + e) mask32].

(** [while (dataPos + 64 < length) { processBlock(data.slice(...)); ... }];
    [None] when the fuel runs out *)
Fixpoint fastLoop (fuel : nat) (data : list Z) (len dataPos : nat)
    (st : HashState) : option (nat * HashState) :=
  match fuel with
  | O => None
  | S f =>
      if (dataPos + 64 <? len)%nat then
        fastLoop f data len (dataPos + 64)
          {| hashValues := processBlock (hashValues st) (slice data dataPos (dataPos + 64));
             messageBuffer := messageBuffer st;
             bufferPos := bufferPos st;
             totalLength := totalLength st + 64 |}
      else Some (dataPos, st)
  end.

(** [while (dataPos < length) { messageBuffer[bufferPos++] = data[dataPos++]; ... }] *)
Fixpoint fillLoop (fuel : nat) (data : list Z) (len dataPos : nat)
    (st : HashState) : option HashState :=
  match fuel with
  | O => None
  | S f =>
      if (dataPos <? len)%nat then
        let buf := arraySet (messageBuffer st) (bufferPos st) (nth dataPos data 0) in
        let pos := S (bufferPos st) in
        if (pos =? 64)%nat then
          match fastLoop f data len (S dataPos)
                  {| hashValues := processBlock (hashValues st) buf;
                     messageBuffer := buf;
                     bufferPos := 0;
                     totalLength := totalLength st + 1 |} with
          | Some (dataPos', st') => fillLoop f data len dataPos' st'
          | None => None
          end
        else
          fillLoop f data len (S dataPos)
            {| hashValues := hashValues st;
               messageBuffer := buf;
               bufferPos := pos;
               totalLength := totalLength st + 1 |}
      else Some st
  end.

(** [update(data, dataLength)] on a byte array;
    [length = dataLength || data.length] *)
Definition update (data : list Z) (dataLength : option nat) (st : HashState)
    : option HashState :=
  let len := match dataLength with
             | Some (S n) => S n
             | _ => length data
             end in
  match (if (bufferPos st =? 0)%nat then fastLoop (S len) data len 0 st
         else Some (0%nat, st)) with
  | Some (dataPos, st') => fillLoop (S len) data len dataPos st'
  | None => None
  end.

(** The bytes [data.charCodeAt(i)] of [unescape(encodeURIComponent(data))] *)
Definition bytesOfString (s : string) : list Z :=
  map (fun c => Z.of_N (N_of_ascii c)) (list_ascii_of_string s).

(** [update(data)] on a string *)
Definition updateString (s : string) (st : HashState) : option HashState :=
  update (bytesOfString s) None st.

(** [for (let i = 63; i >= 56; i--) { messageBuffer[i] = bitLength & 0xff; bitLength >>>= 8; }] *)
Fixpoint lengthLoop (n i : nat) (bitLength : Z) (buf : list Z) : list Z :=
  match n with
  | O => buf
  | S n' => lengthLoop n' (i - 1) (shru bitLength 8) (arraySet buf i (band bitLength 255))
  end.

(** The state of the generator when [digest()] has run its [processBlock] *)
Definition finalize (st : HashState) : option HashState :=
  let bitLength := totalLength st * 8 in
  match (if (bufferPos st <? 56)%nat
         then update padding (Some (56 - bufferPos st)%nat) st
         else update padding (Some (64 - (bufferPos st - 56))%nat) st) with
  | Some st1 =>
      let buf := lengthLoop 8 63 bitLength (messageBuffer st1) in
      Some {| hashValues := processBlock (hashValues st1) buf;
              messageBuffer := buf;
              bufferPos := bufferPos st1;
              totalLength := totalLength st1 |}
  | None => None
  end.

(** [result[j++] = (hashValues[i] >> k) & 0xff] for [i < 5], [k = 24, 16, 8, 0] *)
Definition digestBytes (hv : list Z) : list Z :=
  flat_map (fun i => map (fun k => band (shr (nth i hv 0) k) 255) [24; 16; 8; 0])
           (seq 0 5).

(** [digest()] *)
Definition digest (st : HashState) : option (list Z) :=
  option_map (fun st' => digestBytes (hashValues st')) (finalize st).

(** [str.charAt(i)] for an integer [i] *)
Definition charAt (s : string) (i : Z) : string :=
  if i <? 0 then EmptyString
  else match String.get (Z.to_nat i) s with
       | Some c => String c EmptyString
       | None => EmptyString
       end.

Definition hexDigits : string := "0123456789ABCDEF".

(** The loop of [getHashHex] over the digest bytes *)
Fixpoint hexString (bytes : list Z) : string :=
  match bytes with
  | [] => EmptyString
  | b :: rest =>
      ((charAt hexDigits (b / 16) ++ charAt hexDigits (Z.rem b 16)) ++ hexString rest)%string
  end.

(** [getHashHex()], exported as [getHash] *)
Definition getHashHex (st : HashState) : option string :=
  option_map hexString (digest st).

End Sha1.

(** ** The Secure Hash Standard's SHA-1 (FIPS 180-4), on unsigned 32-bit words

    This is the algorithm as the standard words it; the generator above is
    compared with it. *)

Module Sha1Spec.

(** ROTL^n(x) = (x << n) or (x >> w - n), with w = 32 *)
Definition ROTL (n x : Z) : Z := Z.lor ((x * 2 ^ n) mod 2 ^ 32) (x / 2 ^ (32 - n)).

(** The bitwise complement of a 32-bit word *)
Definition complement (x : Z) : Z := Z.lxor x (2 ^ 32 - 1).

Definition Ch (x y z : Z) : Z := Z.lxor (Z.land x y) (Z.land (complement x) z).
Definition Parity (x y z : Z) : Z := Z.lxor (Z.lxor x y) z.
Definition Maj (x y z : Z) : Z :=
  Z.lxor (Z.lxor (Z.land x y) (Z.land x z)) (Z.land y z).

(** f_t and K_t, 0 <= t <= 79 *)
Definition f (t : nat) (x y z : Z) : Z :=
  if (t <? 20)%nat then Ch x y z
  else if (t <? 40)%nat then Parity x y z
  else if (t <? 60)%nat then Maj x y z
  else Parity x y z.

Definition K (t : nat) : Z :=
  if (t <? 20)%nat then 0x5a827999
  else if (t <? 40)%nat then 0x6ed9eba1
  else if (t <? 60)%nat then 0x8f1bbcdc
  else 0xca62c1d6.

(** Addition modulo 2^32 *)
Definition add32 (x y : Z) : Z := (x + y) mod 2 ^ 32.

(** The j-th big-endian word M_j of a 64-byte block *)
Definition M (block : list Z) (j : nat) : Z :=
  nth (4 * j) block 0 * 2 ^ 24 + nth (4 * j + 1) block 0 * 2 ^ 16
  + nth (4 * j + 2) block 0 * 2 ^ 8 + nth (4 * j + 3) block 0.

(** The message schedule: W_t = M_t for t < 16, and
    W_t = ROTL^1(W_(t-3) xor W_(t-8) xor W_(t-14) xor W_(t-16)) after that;
    [schedule n w] appends the next [n] words to [w] *)
Fixpoint schedule (n : nat) (w : list Z) : list Z :=
  match n with
  | O => w
  | S n' =>
      let t := length w in
      schedule n'
        (w ++ [ROTL 1 (Z.lxor (Z.lxor (Z.lxor (nth (t - 3) w 0) (nth (t - 8) w 0))
                                      (nth (t - 14) w 0))
                              (nth (t - 16) w 0))])
  end.

Definition W (block : list Z) : list Z := schedule 64 (map (M block) (seq 0 16)).

Definition Words : Type := (Z * Z * Z * Z * Z)%type.

(** Steps t, t+1, ..., t+n-1 on the working variables a, b, c, d, e *)
Fixpoint steps (n t : nat) (w : list Z) (v : Words) : Words :=
  match n with
  | O => v
  | S n' =>
      let '(a, b, c, d, e) := v in
      let T := add32 (add32 (add32 (add32 (ROTL 5 a) (f t b c d)) e) (K t)) (nth t w 0) in
      steps n' (S t) w (T, a, ROTL 30 b, c, d)
  end.

(** The hash computation on one block: H(i) from H(i-1) and M(i) *)
Definition compress (H : Words) (block : list Z) : Words :=
  let '(H0, H1, H2, H3, H4) := H in
  let '(a, b, c, d, e) := steps 80 0 (W block) H in
  (add32 a H0, add32 b H1, add32 c H2, add32 d H3, add32 e H4).

(** The initial hash value H(0) *)
Definition H_init : Words :=
  (0x67452301, 0xefcdab89, 0x98badcfe, 0x10325476, 0xc3d2e1f0).

(** The 64-bit big-endian representation of [l] *)
Definition bigEndian64 (l : Z) : list Z :=
  map (fun k => (l / 2 ^ (8 * k)) mod 256) [7; 6; 5; 4; 3; 2; 1; 0].

(** Padding: the byte 0x80, then the least number k of zero bytes that makes
    the length congruent to 56 modulo 64, then the 64-bit length field *)
Definition zeroCount (len : nat) : nat := Z.to_nat ((55 - Z.of_nat len) mod 64).

Definition padWith (field : Z) (msg : list Z) : list Z :=
  msg ++ [128] ++ repeat 0 (zeroCount (length msg)) ++ bigEndian64 field.

Definition pad (msg : list Z) : list Z := padWith (8 * Z.of_nat (length msg)) msg.

(** The first [n] blocks of [m] are hashed one after the other *)
Fixpoint hashBlocks (n : nat) (H : Words) (m : list Z) : Words :=
  match n with
  | O => H
  | S n' => hashBlocks n' (compress H (firstn 64 m)) (skipn 64 m)
  end.

Definition hashPadded (p : list Z) : Words := hashBlocks (length p / 64) H_init p.

(** The four bytes of a word, most significant first *)
Definition wordBytes (x : Z) : list Z :=
  [(x / 2 ^ 24) mod 256; (x / 2 ^ 16) mod 256; (x / 2 ^ 8) mod 256; x mod 256].

Definition digestOf (H : Words) : list Z :=
  let '(H0, H1, H2, H3, H4) := H in
  wordBytes H0 ++ wordBytes H1 ++ wordBytes H2 ++ wordBytes H3 ++ wordBytes H4.

(** The 160-bit message digest of a byte string, as 20 bytes *)
Definition SHA1 (msg : list Z) : list Z := digestOf (hashPadded (pad msg)).

(** The digest the generator's length field gives: the bit length is
    reduced modulo 2^32 before it is written *)
Definition SHA1_trunc (msg : list Z) : list Z :=
  digestOf (hashPadded (padWith ((8 * Z.of_nat (length msg)) mod 2 ^ 32) msg)).

Definition lowerHexDigit (d : Z) : string :=
  match String.get (Z.to_nat d) "0123456789abcdef" with
  | Some c => String c EmptyString
  | None => EmptyString
  end.

(** The digest written as 40 lowercase hexadecimal characters *)
Fixpoint hex (bytes : list Z) : string :=
  match bytes with
  | [] => EmptyString
  | b :: rest => (lowerHexDigit (b / 16) ++ lowerHexDigit (b mod 16) ++ hex rest)%string
  end.

End Sha1Spec.


(** ** Token derivation: [calculateHash], [normalizeUrl], [createAuthParams],
    [createAuthHash] *)

Module Auth.
Import Sha1.

(** [String.prototype.toLowerCase] on the strings the code applies it to,
    hexadecimal digits and the ASCII serialisation of a URL: the letters A to
    Z are mapped, every other byte is kept *)
Definition lowerAscii (c : ascii) : ascii :=
  let n := N_of_ascii c in
  if ((65 <=? n) && (n <=? 90))%N then ascii_of_N (n + 32) else c.

Fixpoint toLowerCase (s : string) : string :=
  match s with
  | EmptyString => EmptyString
  | String c rest => String (lowerAscii c) (toLowerCase rest)
  end.

(** [calculateHash(input)]: a fresh generator, one [update], [getHash()]
    and [toLowerCase()] *)
Definition calculateHash (input : string) : result string :=
  st <- ofOption (updateString input reset) ;;
  h <- ofOption (getHashHex st) ;;
  Ok (toLowerCase h).

(** The characters of a lowercase and of an uppercase hexadecimal string *)
Definition isLowerHexChar (c : ascii) : bool :=
  let n := N_of_ascii c in
  (((48 <=? n) && (n <=? 57)) || ((97 <=? n) && (n <=? 102)))%N.

Definition isUpperHexChar (c : ascii) : bool :=
  let n := N_of_ascii c in
  (((48 <=? n) && (n <=? 57)) || ((65 <=? n) && (n <=? 70)))%N.

Definition allChars (p : ascii -> bool) (s : string) : bool :=
  forallb p (list_ascii_of_string s).

(** What [normalizeUrl] and [createAuthParams] read from the page *)
Record Env : Type := mkEnv {
  locationHref : string;      (* window.location.href *)
  locationProtocol : string;  (* window.location.protocol *)
  windowOrigin : string;      (* window.origin, the empty string when unset *)
  dateNow : Z                 (* Date.now(), in milliseconds *)
}.

Definition nonEmpty (s : string) : bool :=
  match s with
  | EmptyString => false
  | String _ _ => true
  end.

(** [s.indexOf(needle)], [None] for -1 *)
Definition indexOf (needle s : string) : option nat := String.index 0 needle s.

(** [s.substring(from)] and [s.substring(0, to)] *)
Definition substringFrom (from : nat) (s : string) : string :=
  String.substring from (String.length s - from) s.
Definition substringTo (to : nat) (s : string) : string :=
  String.substring 0 to s.

(** [s.split(sep)[0]] for a one-character separator *)
Definition beforeFirst (sep s : string) : string :=
  match indexOf sep s with
  | Some i => substringTo i s
  | None => s
  end.

(** The class [[\w\-]] *)
Definition isWordOrDash (c : ascii) : bool :=
  let n := N_of_ascii c in
  (((48 <=? n) && (n <=? 57)) || ((65 <=? n) && (n <=? 90))
   || ((97 <=? n) && (n <=? 122)) || (n =? 95) || (n =? 45))%N.

(** [/^[\w\-]*:\/\//.test(s)] *)
Fixpoint hasScheme (s : string) : bool :=
  match s with
  | EmptyString => false
  | String c rest =>
      if isWordOrDash c then hasScheme rest else String.prefix "://" s
  end.

Definition validProtocols : list string :=
  ["http"; "https"; "chrome-extension"; "moz-extension"; "file"; "android-app";
   "chrome-search"; "chrome-untrusted"; "chrome"; "app"; "devtools"].

Definition includes (l : list string) (s : string) : bool :=
  existsb (String.eqb s) l.

(** [normalizeUrl(url)] *)
Definition normalizeUrl (env : Env) (url : string) : result string :=
  if negb (nonEmpty url) then Ok EmptyString
  else if (url =? "about:blank")%string || (url =? "about:srcdoc")%string
  then Ok (windowOrigin env)
  else
    let url := if String.prefix "blob:" url then substringFrom 5 url else url in
    let url := beforeFirst "?" (beforeFirst "#" url) in
    let url := toLowerCase url in
    let url := if String.prefix "//" url
               then (locationProtocol env ++ url)%string else url in
    let url := if negb (hasScheme url) then locationHref env else url in
    let protocolSeparatorIndex := indexOf "://" url in
    let protocol := match protocolSeparatorIndex with
                    | Some i => substringTo i url
                    | None => EmptyString
                    end in
    if negb (nonEmpty protocol) then Throw ("Invalid URL: " ++ url)
    else if negb (includes validProtocols protocol)
    then Throw ("Invalid protocol: " ++ protocol)
    else
      let host := match protocolSeparatorIndex with
                  | Some i => substringFrom (i + 3) url
                  | None => substringFrom 2 url
                  end in
      let host := match indexOf "/" host with
                  | Some i => substringTo i host
                  | None => host
                  end in
      match indexOf ":" host with
      | Some i =>
          let port := substringFrom (i + 1) host in
          let host := substringTo i host in
          let portSuffix :=
            if ((protocol =? "http") && negb (port =? "80")
                || (protocol =? "https") && negb (port =? "443"))%string
            then (":" ++ port)%string else EmptyString in
          Ok (protocol ++ "://" ++ host ++ portSuffix)%string
      | None => Ok (protocol ++ "://" ++ host)%string
      end.

Record AuthParam : Type := mkParam { key : string; value : string }.

(** The argument [additionalParams]: a falsy value ([null], [undefined]),
    a truthy value that is not an array, or an array of parameters *)
Inductive AdditionalParams : Type :=
| Falsy
| NotAnArray
| ParamArray (params : list AuthParam).

(** [additionalParams || null]: a falsy value becomes [null], which is
    falsy again; the other values are kept *)
Definition orNull (p : AdditionalParams) : AdditionalParams :=
  match p with
  | Falsy => Falsy
  | _ => p
  end.

(** [Array.isArray(additionalParams)] *)
Definition isArray (p : AdditionalParams) : bool :=
  match p with
  | ParamArray _ => true
  | _ => false
  end.

(** [arr.join(sep)] on strings *)
Definition join (sep : string) (l : list string) : string := String.concat sep l.

(** The decimal text of an integer number *)
Definition numberToString (n : Z) : string := NilZero.string_of_int (Z.to_int n).

(** [createAuthParams(url, token, additionalParams)] *)
Definition createAuthParams (env : Env) (url token : string)
    (additionalParams : AdditionalParams) : result string :=
  let additionalData : list string := [] in
  match additionalParams with
  | ParamArray params =>
      let keys := map key params in
      let values := map value params in
      let timestamp := numberToString (dateNow env / 1000) in
      let baseParams :=
        if (length values =? 0)%nat then [timestamp; token; url]
        else [join ":" values; timestamp; token; url] in
      hash <- calculateHash (join " " (baseParams ++ additionalData)) ;;
      let result :=
        [timestamp; hash] ++ (if (0 <? length keys)%nat then [join EmptyString keys] else []) in
      Ok (join "_" result)
  | _ =>
      let baseParams := [token; url] in
      calculateHash (join " " (baseParams ++ additionalData))
  end.

(** [createAuthHash(token, hashName, additionalParams)]; [None] is [null] *)
Definition createAuthHash (env : Env) (token hashName : string)
    (additionalParams : AdditionalParams) : result (option string) :=
  let currentUrl := locationHref env in
  if nonEmpty currentUrl && nonEmpty token && nonEmpty hashName then
    url <- normalizeUrl env currentUrl ;;
    params <- createAuthParams env url token (orNull additionalParams) ;;
    Ok (Some (join " " [hashName; params]))
  else Ok None.

End Auth.


(** ** Key discovery and the retry loop of [sendMakerSuiteRequest] *)

Module Keys.

(** *** [findApiKeys] *)

(** The class of the three quote characters: backquote (96), apostrophe (39)
    and double quote (34) *)
Definition isQuote (c : ascii) : bool :=
  let n := N_of_ascii c in ((n =? 96) || (n =? 39) || (n =? 34))%N.

(** The class [\s] at the start of [s]: the ASCII white space, and the UTF-8
    encodings of U+00A0, U+1680, U+2000..U+200A, U+2028, U+2029, U+202F,
    U+205F, U+3000 and U+FEFF *)
Definition startsWithSpace (s : string) : bool :=
  match s with
  | EmptyString => false
  | String c rest =>
      let n := N_of_ascii c in
      (((9 <=? n) && (n <=? 13)) || (n =? 32))%N
      || match rest with
         | EmptyString => false
         | String d rest' =>
             let m := N_of_ascii d in
             ((n =? 194) && (m =? 160))%N
             || match rest' with
                | EmptyString => false
                | String e _ =>
                    let k := N_of_ascii e in
                    (((n =? 225) && (m =? 154) && (k =? 128))
                     || ((n =? 226) && (m =? 128)
                         && (((128 <=? k) && (k <=? 138)) || (k =? 168)
                             || (k =? 169) || (k =? 175)))
                     || ((n =? 226) && (m =? 129) && (k =? 159))
                     || ((n =? 227) && (m =? 128) && (k =? 128))
                     || ((n =? 239) && (m =? 187) && (k =? 191)))%N
                end
         end
  end.

(** The greedy run of characters that are neither white space nor quotes:
    the characters it takes and what follows them *)
Fixpoint keyRun (s : string) : string * string :=
  match s with
  | EmptyString => (EmptyString, EmptyString)
  | String c rest =>
      if isQuote c || startsWithSpace s then (EmptyString, s)
      else let (run, after) := keyRun rest in (String c run, after)
  end.

(** One match of the key pattern at the start of [s]: a quote, [AIzaSy], the
    greedy run, a quote *)
Definition matchAt (s : string) : option string :=
  match s with
  | String q rest =>
      if isQuote q && String.prefix "AIzaSy" rest then
        let (run, after) := keyRun (Auth.substringFrom 6 rest) in
        match after with
        | String q' _ =>
            if isQuote q'
            then Some (String q ("AIzaSy" ++ run ++ String q' EmptyString))%string
            else None
        | EmptyString => None
        end
      else None
  | EmptyString => None
  end.

(** [src.match(/.../g) ?? []]: the matches from left to right; the search
    goes on after the end of a match, [skip] characters further *)
Fixpoint matchAll (skip : nat) (src : string) : list string :=
  match src with
  | EmptyString => []
  | String _ rest =>
      match skip with
      | S k => matchAll k rest
      | O =>
          match matchAt src with
          | Some m => m :: matchAll (String.length m - 1) rest
          | None => matchAll 0 rest
          end
      end
  end.

(** [m.replace(...)]: every quote character of [m] is removed *)
Fixpoint stripQuotes (m : string) : string :=
  match m with
  | EmptyString => EmptyString
  | String c rest => if isQuote c then stripQuotes rest else String c (stripQuotes rest)
  end.

(** [arr.includes(s)] *)
Definition includes (l : list string) (s : string) : bool :=
  existsb (String.eqb s) l.

(** [apiKeys.add(key)] on a [Set], kept as the list of its elements in
    insertion order *)
Definition setAdd (key : string) (set : list string) : list string :=
  if includes set key then set else set ++ [key].

(** The body of [match.forEach] *)
Definition addMatch (ignore : list string) (set : list string) (m : string)
    : list string :=
  let key := stripQuotes m in
  if negb (includes ignore key) then setAdd key set else set.

(** [findApiKeys(ignore)] on the [innerHTML] of the page's script elements,
    in document order *)
Definition findApiKeys (scripts : list string) (ignore : list string) : list string :=
  rev (fold_left
         (fun set src => fold_left (addMatch ignore) (matchAll 0 src) set)
         scripts []).

(** *** The dispatcher: [sendMakerSuiteRequest] and its retry loop

    The module variables [cachedApiKeys] and [lastSuccessfulKey] are shared by
    every call of [sendMakerSuiteRequest].  A call sends one request at a
    time; the [onload] or [onerror] callback of a request runs later, on its
    own, and reads and writes the shared variables as they are then.  Calls
    overlap: the status check and the prompt import both dispatch. *)

(** The module variables [cachedApiKeys] and [lastSuccessfulKey] *)
Record KeyCache : Type := mkCache {
  cachedApiKeys : option (list string);
  lastSuccessfulKey : option string
}.

(** How one request ends: [onload] with a status and a body, or [onerror] *)
Inductive Response : Type :=
| Load (status : Z) (responseText : string)
| NetworkError.

(** How the promise is settled by [onSuccess] or [onError] *)
Inductive Settlement : Type :=
| Resolved (responseText : string)
| Rejected (status statusText : string).

(** Where a call of [sendMakerSuiteRequest] stands *)
Inductive Dispatch : Type :=
| Waiting (keyIndex : nat) (keys : list string) (currentKey : string)
    (* the request of attemptRequestWithKeys(keyIndex, keys) is in flight *)
| Settled (settlement : Settlement)
    (* onSuccess or onError was called *)
| RejectedWith (exception : string)
    (* the first attempt threw in the executor: the promise is rejected with
       the exception *)
| Uncaught (exception : string)
    (* a later attempt threw in a callback: the promise stays pending and no
       request is in flight *)
| Thrown (exception : string).
    (* the call threw before it made a promise *)

(** The white space HTTP allows around a header value: tab, line feed,
    carriage return and space *)
Definition isHttpSpace (c : ascii) : bool :=
  let n := N_of_ascii c in ((n =? 9) || (n =? 10) || (n =? 13) || (n =? 32))%N.

Fixpoint dropHttpSpace (l : list ascii) : list ascii :=
  match l with
  | [] => []
  | c :: rest => if isHttpSpace c then dropHttpSpace rest else l
  end.

(** [xhr.setRequestHeader(name, value)] for a header name the request may
    carry: the exception it throws, [None] when it returns.  A value with a
    character above U+00FF (in UTF-8, a byte from 0xC4 on) is no byte string:
    TypeError.  A value that, without the white space around it, holds a NUL,
    a line feed or a carriage return is no header value: SyntaxError. *)
Definition setRequestHeader (value : string) : option string :=
  let bytes := list_ascii_of_string value in
  if existsb (fun c => (196 <=? N_of_ascii c)%N) bytes then Some "TypeError"
  else
    let inner := rev (dropHttpSpace (rev (dropHttpSpace bytes))) in
    if existsb (fun c => let n := N_of_ascii c in ((n =? 0) || (n =? 10) || (n =? 13))%N)
         inner
    then Some "SyntaxError"
    else None.

(** What one call of [attemptRequestWithKeys] does before it returns *)
Inductive Attempt : Type :=
| Sends (currentKey : string)
| Fails (settlement : Settlement)
| Throws (exception : string).

(** [attemptRequestWithKeys(keyIndex, keys, onSuccess, onError)] up to
    [xhr.send(data)].  [openError] is the exception [xhr.open(method, url,
    async)] throws for the method and the URL of the call, [None] when it
    accepts them.  The headers [authorization], [content-type] and
    [x-user-agent] are set to texts that are header values: the tokens of
    [getAuthTokens([])] (labels, digits and hexadecimal digits) and two
    constants. *)
Definition attemptRequestWithKeys (openError : option string) (keyIndex : nat)
    (keys : list string) : Attempt :=
  match nth_error keys keyIndex with
  | None =>
      Fails (Rejected "All API keys failed"
               "Unable to create prompt after trying all available API keys")
  | Some currentKey =>
      match openError with
      | Some exception => Throws exception
      | None =>
          match setRequestHeader currentKey with
          | Some exception => Throws exception
          | None => Sends currentKey
          end
      end
  end.

(** [xhr.status >= 200 && xhr.status < 300] in [onload]: the response text
    handed to [onSuccess] *)
Definition succeeded (response : Response) : option string :=
  match response with
  | Load status responseText =>
      if (200 <=? status)%Z && (status <? 300)%Z then Some responseText else None
  | NetworkError => None
  end.

(** [currentKey === lastSuccessfulKey] *)
Definition isLastSuccessful (st : KeyCache) (currentKey : string) : bool :=
  match lastSuccessfulKey st with
  | Some k => String.eqb currentKey k
  | None => false
  end.

(** The failure branch shared by [xhr.onload] and [xhr.onerror]: the module
    variables after it, the arguments of the next [attemptRequestWithKeys]
    call, and the refreshed pool when there was a refresh *)
Definition onFailure (scripts : list string) (keyIndex : nat) (keys : list string)
    (currentKey : string) (st : KeyCache)
    : KeyCache * (nat * list string) * option (list string) :=
  if isLastSuccessful st currentKey then
    let pool := findApiKeys scripts [currentKey] in
    let st' := {| cachedApiKeys := Some pool; lastSuccessfulKey := None |} in
    if (0 <? length pool)%nat then (st', (0%nat, pool), Some pool)
    else (st', ((keyIndex + 1)%nat, keys), Some pool)
  else (st, ((keyIndex + 1)%nat, keys), None).

(** [keysToTry] of [sendMakerSuiteRequest] *)
Definition keysToTry (keys : list string) (last : option string) : list string :=
  match last with
  | Some k =>
      if Auth.nonEmpty k && includes keys k
      then k :: filter (fun key => negb (String.eqb key k)) keys
      else keys
  | None => keys
  end.

(** The page between two callbacks: the shared variables, the calls of
    [sendMakerSuiteRequest] made so far, in order, and what has been observed
    of them: the requests sent (the call and the key of each) and the pools
    that refreshes have found (the call and the pool of each) *)
Record World : Type := mkWorld {
  variables : KeyCache;
  dispatches : list Dispatch;
  requests : list (nat * string);
  refreshes : list (nat * list string)
}.

(** The page when the script is loaded *)
Definition pageLoad : World :=
  {| variables := {| cachedApiKeys := None; lastSuccessfulKey := None |};
     dispatches := [];
     requests := [];
     refreshes := [] |}.

Definition setDispatch (id : nat) (d : Dispatch) (l : list Dispatch) : list Dispatch :=
  firstn id l ++ d :: skipn (S id) l.

(** What an attempt of the call [id] leaves: where the call stands, and the
    requests sent.  [thrown] is what an exception does to the call. *)
Definition afterAttempt (thrown : string -> Dispatch) (id keyIndex : nat)
    (keys : list string) (attempt : Attempt) (sent : list (nat * string))
    : Dispatch * list (nat * string) :=
  match attempt with
  | Sends currentKey => (Waiting keyIndex keys currentKey, sent ++ [(id, currentKey)])
  | Fails settlement => (Settled settlement, sent)
  | Throws exception => (thrown exception, sent)
  end.

(** The keys a call starts with: the cache, filled from the scripts of the
    page when it is empty *)
Definition cachedOrFound (scripts : list string) (st : KeyCache) : list string :=
  match cachedApiKeys st with
  | Some keys => keys
  | None => findApiKeys scripts []
  end.

(** [sendMakerSuiteRequest(path, method, data)] from the point where
    [findUrl()] and [getAuthTokens([])] have returned, up to its return: the
    key cache is filled on first use, and the retry loop is started at index
    0 in the executor of the promise *)
Definition sendMakerSuiteRequest (openError : option string) (scripts : list string)
    (w : World) : World :=
  let keys := cachedOrFound scripts (variables w) in
  let st := {| cachedApiKeys := Some keys;
               lastSuccessfulKey := lastSuccessfulKey (variables w) |} in
  let id := length (dispatches w) in
  if (length keys =? 0)%nat then
    {| variables := st;
       dispatches := dispatches w ++ [Thrown "No API keys found"];
       requests := requests w;
       refreshes := refreshes w |}
  else
    let keysToTry := keysToTry keys (lastSuccessfulKey (variables w)) in
    let '(d, sent) :=
      afterAttempt RejectedWith id 0 keysToTry
        (attemptRequestWithKeys openError 0 keysToTry) (requests w) in
    {| variables := st;
       dispatches := dispatches w ++ [d];
       requests := sent;
       refreshes := refreshes w |}.

(** The callback [xhr.onload] or [xhr.onerror] of the request the call [id]
    waits for, run when the scripts of the page are [scripts].  [xhr.open]
    has accepted the method and the URL of the call before. *)
Definition onResponse (id : nat) (response : Response) (scripts : list string)
    (w : World) : World :=
  match nth_error (dispatches w) id with
  | Some (Waiting keyIndex keys currentKey) =>
      match succeeded response with
      | Some responseText =>
          {| variables := {| cachedApiKeys := cachedApiKeys (variables w);
                             lastSuccessfulKey := Some currentKey |};
             dispatches := setDispatch id (Settled (Resolved responseText)) (dispatches w);
             requests := requests w;
             refreshes := refreshes w |}
      | None =>
          let '(st, (keyIndex', keys'), pool) :=
            onFailure scripts keyIndex keys currentKey (variables w) in
          let '(d, sent) :=
            afterAttempt Uncaught id keyIndex' keys'
              (attemptRequestWithKeys None keyIndex' keys') (requests w) in
          {| variables := st;
             dispatches := setDispatch id d (dispatches w);
             requests := sent;
             refreshes := match pool with
                          | Some p => refreshes w ++ [(id, p)]
                          | None => refreshes w
                          end |}
      end
  | _ => w
  end.

(** What happens on the page: [sendMakerSuiteRequest] is called, or the
    request of a call is answered.  A call that throws before it reads the
    key cache ([No API URL found], [No auth tokens found], an exception of
    [JSON.stringify] or of [getAuthTokens]) reads and writes neither
    [cachedApiKeys] nor [lastSuccessfulKey] and starts no loop: it is no
    event. *)
Inductive Event : Type :=
| Call (openError : option string) (scripts : list string)
| Answer (id : nat) (response : Response) (scripts : list string).

Definition step (w : World) (e : Event) : World :=
  match e with
  | Call openError scripts => sendMakerSuiteRequest openError scripts w
  | Answer id response scripts => onResponse id response scripts w
  end.

Definition run (w : World) (events : list Event) : World := fold_left step events w.

End Keys.


(** ** The schema converter of [new-prompt.ts] *)

Module Convert.
Import Auth.

(** The values the converter handles: what [JSON.parse] returns, [undefined],
    and the built-in objects that a lookup in an object literal can reach
    through the prototype chain.  [Obj] lists the own properties in the order
    in which [Object.entries] enumerates them. *)
Inductive JSVal : Type :=
| Undefined
| Null
| Bool (b : bool)
| Num (q : Q)
| Str (s : string)
| Arr (elements : list JSVal)
| Obj (properties : list (string * JSVal))
| HostObject (name : string).

(** [v == null] *)
Definition nullish (v : JSVal) : bool :=
  match v with
  | Undefined | Null => true
  | _ => false
  end.

(** The truth value of [v] in a condition *)
Definition truthy (v : JSVal) : bool :=
  match v with
  | Undefined | Null => false
  | Bool b => b
  | Num q => negb (Qnum q =? 0)%Z
  | Str s => nonEmpty s
  | Arr _ | Obj _ | HostObject _ => true
  end.

Fixpoint lookup (p : string) (props : list (string * JSVal)) : option JSVal :=
  match props with
  | [] => None
  | (k, v) :: rest => if String.eqb k p then Some v else lookup p rest
  end.

(** [v.p], for the property names the converter reads: none of them is
    defined on the prototypes of arrays, strings, numbers or booleans *)
Definition getProp (v : JSVal) (p : string) : result JSVal :=
  match v with
  | Undefined | Null => Throw "TypeError"
  | Obj props =>
      Ok (match lookup p props with
          | Some x => x
          | None => Undefined
          end)
  | _ => Ok Undefined
  end.

(** [v?.p] *)
Definition optChain (v : JSVal) (p : string) : result JSVal :=
  if nullish v then Ok Undefined else getProp v p.

(** [x ?? y] *)
Definition coalesce (x y : JSVal) : JSVal := if nullish x then y else x.

(** [p in v] *)
Definition hasProperty (p : string) (v : JSVal) : result bool :=
  match v with
  | Obj props =>
      Ok (match lookup p props with
          | Some _ => true
          | None => false
          end)
  | Arr _ | HostObject _ => Ok false
  | _ => Throw "TypeError"
  end.

Fixpoint mapResult {A B : Type} (f : A -> result B) (l : list A) : result (list B) :=
  match l with
  | [] => Ok []
  | x :: rest =>
      y <- f x ;;
      ys <- mapResult f rest ;;
      Ok (y :: ys)
  end.

(** [s.toLocaleLowerCase()] in a host locale without special casing rules,
    on type names written in ASCII *)
Definition toLocaleLowerCase (s : string) : string := toLowerCase s.

(** [convertMessage(role, message)] *)
Definition convertMessage (role message : JSVal) : result JSVal :=
  let role :=
    match role with
    | Str s =>
        if (s =? "user")%string then "user"
        else if (s =? "model")%string || (s =? "assistant")%string then "model"
        else "user"
    | _ => "user"
    end in
  text <- getProp message "text" ;;
  Ok (Arr [text; Null; Null; Null; Null; Null; Null; Null; Str role]).

(** [SCHEMA_TYPE_TO_NUMBER[type]]: the six entries of the table, and the two
    lower-case names the object literal inherits *)
Definition SCHEMA_TYPE_TO_NUMBER (type : string) : JSVal :=
  if (type =? "string")%string then Num 1
  else if (type =? "number")%string then Num 2
  else if (type =? "integer")%string then Num 3
  else if (type =? "boolean")%string then Num 4
  else if (type =? "array")%string then Num 5
  else if (type =? "object")%string then Num 6
  else if (type =? "constructor")%string then HostObject "Object"
  else if (type =? "__proto__")%string then HostObject "Object.prototype"
  else Undefined.

(** [Object.entries(v)] *)
Definition objectEntries (v : JSVal) : result (list (string * JSVal)) :=
  match v with
  | Undefined | Null => Throw "TypeError"
  | Obj props => Ok props
  | Arr l =>
      Ok (map (fun iv => (numberToString (Z.of_nat (fst iv)), snd iv))
              (combine (seq 0 (length l)) l))
  | Str s =>
      Ok (map (fun ic => (numberToString (Z.of_nat (fst ic)),
                          Str (String (snd ic) EmptyString)))
              (combine (seq 0 (String.length s)) (list_ascii_of_string s)))
  | _ => Ok []
  end.

(** The array literal [schema] of [convertResponseSchema]; [convert] is the
    recursive call *)
Definition buildSchema (convert : JSVal -> result JSVal) (responseSchema : JSVal)
    : result (list JSVal) :=
  rawType <- getProp responseSchema "type" ;;
  type <- match rawType with
          | Str s => Ok (toLocaleLowerCase s)
          | _ => Throw "TypeError"
          end ;;
  description <- getProp responseSchema "description" ;;
  nullable <- getProp responseSchema "nullable" ;;
  enum <- (if (type =? "string")%string then
             e <- getProp responseSchema "enum" ;;
             Ok (if truthy e then e else Null)
           else Ok Null) ;;
  items <- (if (type =? "array")%string then
              i <- getProp responseSchema "items" ;;
              convert i
            else Ok Null) ;;
  properties <- (if (type =? "object")%string then
                   ps <- getProp responseSchema "properties" ;;
                   entries <- objectEntries ps ;;
                   l <- mapResult (fun kv => c <- convert (snd kv) ;;
                                             Ok (Arr [Str (fst kv); c])) entries ;;
                   Ok (Arr l)
                 else Ok Null) ;;
  required <- (match rawType with
               | Str s =>
                   if (s =? "object")%string then
                     r <- getProp responseSchema "required" ;;
                     Ok (if truthy r then r else Null)
                   else Ok Null
               | _ => Ok Null
               end) ;;
  Ok [SCHEMA_TYPE_TO_NUMBER type; Null; coalesce description Null;
      coalesce nullable Null; enum; items; properties; required].

(** The trimming loop, entered with [i + 1 = n]:
    [for (let i = schema.length - 1; i >= 0; i--)
       if (schema[i] != null) { schema.splice(i + 1, ...); break; }] *)
Fixpoint trimLoop (n : nat) (schema : list JSVal) : list JSVal :=
  match n with
  | O => schema
  | S i =>
      if negb (nullish (nth i schema Undefined)) then firstn (S i) schema
      else trimLoop i schema
  end.

(** [convertResponseSchema(responseSchema)] *)
Fixpoint convertResponseSchema (fuel : nat) (responseSchema : JSVal) : result JSVal :=
  match fuel with
  | O => OutOfFuel
  | S fuel' =>
      schema <- buildSchema (convertResponseSchema fuel') responseSchema ;;
      Ok (Arr (trimLoop (length schema) schema))
  end.

Definition UNKNOWN_PAD : JSVal :=
  Arr [Arr [Null; Null; Num 7; Num 1];
       Arr [Null; Null; Num 8; Num 2];
       Arr [Null; Null; Num 9; Num 3];
       Arr [Null; Null; Num 10; Num 4];
       Arr [Null; Null; Num 11; Num 5]].

(** [settings?.p ?? null] *)
Definition settingOrNull (settings : JSVal) (p : string) : result JSVal :=
  v <- optChain settings p ;;
  Ok (coalesce v Null).

(** The array [title] *)
Definition titleArray (promptName : string) : JSVal :=
  Arr [Str promptName; Null; Null; Null; Null; Null; Null; Null; Null; Null; Arr []].

(** The last entry of the message list *)
Definition userInputField : JSVal :=
  Arr [Arr [Str EmptyString; Null; Null; Null; Null; Null; Null; Null; Str "user"]].

Section Converters.

(** The text of a value other than a string in a template literal *)
Variable display : JSVal -> string.

Definition templateText (v : JSVal) : string :=
  match v with
  | Str s => s
  | _ => display v
  end.

(** [convertPromptAPI(promptName, generationRequest)] *)
Definition convertPromptAPI (fuel : nat) (promptName : string)
    (generationRequest : JSVal) : result JSVal :=
  generationConfig <- getProp generationRequest "generationConfig" ;;
  temperature <- settingOrNull generationConfig "temperature" ;;
  model <- getProp generationRequest "model" ;;
  topP <- settingOrNull generationConfig "topP" ;;
  topK <- settingOrNull generationConfig "topK" ;;
  maxOutputTokens <- settingOrNull generationConfig "maxOutputTokens" ;;
  responseMimeType <- optChain generationConfig "responseMimeType" ;;
  responseSchema <- optChain generationConfig "responseSchema" ;;
  schema <- (if truthy responseSchema then convertResponseSchema fuel responseSchema
             else Ok Null) ;;
  let config :=
    Arr [temperature; Null;
         (if truthy model then Str ("models/" ++ templateText model) else Null);
         Null; topP; topK; maxOutputTokens; UNKNOWN_PAD;
         (if nullish responseMimeType
          then (if truthy responseSchema then Str "application/json" else Str "text/plain")
          else responseMimeType);
         Num 0; schema; Null; Null; Num 1; Num 0; Null; Null; Num 0; Num 0] in
  systemInstruction <- getProp generationRequest "systemInstruction" ;;
  contents <- getProp generationRequest "contents" ;;
  messages <-
    match contents with
    | Arr cs =>
        mapResult
          (fun content =>
             parts <- getProp content "parts" ;;
             match parts with
             | Arr ps =>
                 mapResult (fun part => role <- getProp content "role" ;;
                                        convertMessage role part) ps
             | _ => Throw "TypeError"
             end) cs
    | _ => Throw "TypeError"
    end ;;
  Ok (Arr [Arr [Null; Null; Null; config; titleArray promptName;
                Null; Null; Null; Null; Null; Null; Null;
                (if truthy systemInstruction then Arr [systemInstruction] else Arr []);
                Arr [Arr (concat messages); userInputField]]]).

(** [convertPromptStudio(promptName, generationRequest)] *)
Definition convertPromptStudio (fuel : nat) (promptName : string)
    (generationRequest : JSVal) : result JSVal :=
  runSettings <- getProp generationRequest "runSettings" ;;
  temperature <- settingOrNull runSettings "temperature" ;;
  model <- settingOrNull runSettings "model" ;;
  topP <- settingOrNull runSettings "topP" ;;
  topK <- settingOrNull runSettings "topK" ;;
  maxOutputTokens <- settingOrNull runSettings "maxOutputTokens" ;;
  responseMimeType <- optChain runSettings "responseMimeType" ;;
  responseSchema <- optChain runSettings "responseSchema" ;;
  schema <- (if truthy responseSchema then convertResponseSchema fuel responseSchema
             else Ok Null) ;;
  let config :=
    Arr [temperature; Null; model; Null; topP; topK; maxOutputTokens; UNKNOWN_PAD;
         (if nullish responseMimeType
          then (if truthy responseSchema then Str "application/json" else Str "text/plain")
          else responseMimeType);
         Num 0; schema; Null; Null; Num 1; Num 0; Null; Null; Num 0; Num 0] in
  systemInstruction <- getProp generationRequest "systemInstruction" ;;
  chunkedPrompt <- getProp generationRequest "chunkedPrompt" ;;
  messages <-
    (if nullish chunkedPrompt then Ok Undefined
     else
       chunks <- getProp chunkedPrompt "chunks" ;;
       match chunks with
       | Arr cs =>
           l <- mapResult
                  (fun content =>
                     role <- getProp content "role" ;;
                     text <- getProp content "text" ;;
                     convertMessage role (Obj [("text", text)])) cs ;;
           Ok (Arr l)
       | _ => Throw "TypeError"
       end) ;;
  Ok (Arr [Arr [Null; Null; Null; config; titleArray promptName;
                Null; Null; Null; Null; Null; Null; Null;
                (if truthy systemInstruction then Arr [systemInstruction] else Arr []);
                Arr [messages; userInputField]]]).

(** [convertPromptData(promptName, generationRequest)] *)
Definition convertPromptData (fuel : nat) (promptName : string)
    (generationRequest : JSVal) : result JSVal :=
  isApi <- hasProperty "generationConfig" generationRequest ;;
  if isApi then convertPromptAPI fuel promptName generationRequest
  else convertPromptStudio fuel promptName generationRequest.

End Converters.

End Convert.


(** ** Notions used to state the properties *)

(** *** The hash generator against the standard *)

Module HashRel.
Import Int32 Sha1 Auth.

Definition isByte (b : Z) : Prop := 0 <= b < 256.

(** Every entry a reader can get from [l] is a byte *)
Definition bytesAt (l : list Z) : Prop := forall i : nat, isByte (nth i l 0).

(** The unsigned reading of [hashValues] *)
Definition Uregs (hv : list Z) : Sha1Spec.Words :=
  (toUint32 (nth 0 hv 0), toUint32 (nth 1 hv 0), toUint32 (nth 2 hv 0),
   toUint32 (nth 3 hv 0), toUint32 (nth 4 hv 0)).

Definition Utuple (r : Regs) : Sha1Spec.Words :=
  let '(a, b, c, d, e) := r in
  (toUint32 a, toUint32 b, toUint32 c, toUint32 d, toUint32 e).

(** The generator has read [msg]: the registers hold the hash of the full
    blocks of [msg] and the buffer holds the bytes after them *)
Definition Inv (st : HashState) (msg : list Z) : Prop :=
  exists q : nat,
    length msg = (64 * q + bufferPos st)%nat
    /\ (bufferPos st < 64)%nat
    /\ Uregs (hashValues st) = Sha1Spec.hashBlocks q Sha1Spec.H_init msg
    /\ (forall i, (i < bufferPos st)%nat ->
          nth i (messageBuffer st) 0 = nth (64 * q + i) msg 0)
    /\ totalLength st = Z.of_nat (length msg)
    /\ bytesAt msg.

(** What one hexadecimal digit contributes *)
Definition digitFacts (d : Z) : Prop :=
  toLowerCase (charAt hexDigits d) = Sha1Spec.lowerHexDigit d
  /\ String.length (charAt hexDigits d) = 1%nat
  /\ allChars isUpperHexChar (charAt hexDigits d) = true
  /\ allChars isLowerHexChar (Sha1Spec.lowerHexDigit d) = true.

(** One [update] call for each string of [chunks], in order *)
Fixpoint updateStrings (chunks : list string) (st : HashState) : option HashState :=
  match chunks with
  | [] => Some st
  | c :: rest =>
      match updateString c st with
      | Some st' => updateStrings rest st'
      | None => None
      end
  end.

End HashRel.

(** *** Discovery order, and what a call of the dispatcher has done *)

Module KeysSpec.
Import Keys.

(** Every key the scan finds, in discovery order, with repetitions *)
Definition discovered (scripts : list string) : list string :=
  flat_map (fun src => map stripQuotes (matchAll 0 src)) scripts.

(** The first occurrence of every element, in order *)
Fixpoint firstOccurrences (l : list string) : list string :=
  match l with
  | [] => []
  | x :: rest => x :: filter (fun y => negb (String.eqb y x)) (firstOccurrences rest)
  end.

Definition notIgnored (ignore : list string) (key : string) : bool :=
  negb (includes ignore key).

Definition failed (r : Response) : bool :=
  match r with
  | Load status _ => negb ((200 <=? status)%Z && (status <? 300)%Z)
  | NetworkError => true
  end.

Definition allKeysFailed : Settlement :=
  Rejected "All API keys failed"
    "Unable to create prompt after trying all available API keys".

(** The keys of the requests the call [id] has sent, in order, and the pools
    its refreshes have found, in order *)
Definition requestsBy (id : nat) (w : World) : list string :=
  map snd (filter (fun r => (fst r =? id)%nat) (requests w)).

Definition refreshesBy (id : nat) (w : World) : list (list string) :=
  map snd (filter (fun r => (fst r =? id)%nat) (refreshes w)).

(** The ordered list the loop of a call starts with, when the call is made
    in the world [w] *)
Definition initialKeys (scripts : list string) (w : World) : list string :=
  keysToTry (cachedOrFound scripts (variables w)) (lastSuccessfulKey (variables w)).

(** The answers to requests of the call [id] among the events *)
Definition isAnswerTo (id : nat) (e : Event) : bool :=
  match e with
  | Answer i _ _ => (i =? id)%nat
  | Call _ _ => false
  end.

Definition answersTo (id : nat) (events : list Event) : nat :=
  length (filter (isAnswerTo id) events).

(** No call other than [id] is answered with a success *)
Definition noOtherSuccess (id : nat) (events : list Event) : Prop :=
  Forall (fun e => match e with
                   | Answer i r _ => i = id \/ failed r = true
                   | Call _ _ => True
                   end) events.

(** How a call can end: resolved, rejected with the all-keys-failed error,
    or with the exception that [xhr.open] or [xhr.setRequestHeader] throws *)
Definition ended (d : option Dispatch) : Prop :=
  (exists responseText, d = Some (Settled (Resolved responseText)))
  \/ d = Some (Settled allKeysFailed)
  \/ exists exception,
       d = Some (RejectedWith exception) \/ d = Some (Uncaught exception)
       \/ d = Some (Thrown exception).

(** The requests a waiting call can still send from its list *)
Definition remaining (d : Dispatch) : nat :=
  match d with
  | Waiting keyIndex keys _ => length keys - S keyIndex
  | _ => 0
  end.

Definition inFlight (d : Dispatch) : bool :=
  match d with
  | Waiting _ _ _ => true
  | _ => false
  end.

(** The logs name calls that were made *)
Definition logged (w : World) : Prop :=
  Forall (fun r => (fst r < length (dispatches w))%nat) (requests w)
  /\ Forall (fun r => (fst r < length (dispatches w))%nat) (refreshes w).

(** What the call [id], started with [n0] keys, keeps true while no other
    call succeeds; [answers] counts the answers it has got *)
Definition Progress (id n0 answers : nat) (w : World) : Prop :=
  exists d,
    nth_error (dispatches w) id = Some d
    /\ (length (refreshesBy id w) <= 1)%nat
    /\ (length (requestsBy id w) + remaining d
        <= n0 + length (concat (refreshesBy id w)))%nat
    /\ (inFlight d = true ->
          length (requestsBy id w) = S answers
          /\ (refreshesBy id w <> [] -> lastSuccessfulKey (variables w) = None))
    /\ (inFlight d = false -> ended (Some d)).

End KeysSpec.

(** *** Encoded schemas and the two document shapes *)

Module ConvertSpec.
Import Convert.

Definition isNullish (v : JSVal) : Prop := nullish v = true.

(** The array does not end in a null entry *)
Definition endsNonNull (l : list JSVal) : Prop := nullish (last l Undefined) = false.

(** The nesting depth of a value *)
Fixpoint depth (v : JSVal) : nat :=
  match v with
  | Arr l => S (list_max (map depth l))
  | Obj ps => S (list_max (map (fun kv => depth (snd kv)) ps))
  | _ => 0
  end.

Definition optValue (v : option JSVal) : JSVal :=
  match v with
  | Some x => x
  | None => Undefined
  end.

(** The six kinds of the table, in any letter case *)
Definition knownType (raw : string) : bool :=
  existsb (String.eqb (toLocaleLowerCase raw))
    ["string"; "number"; "integer"; "boolean"; "array"; "object"].

(** A schema as the type [Schema] of the source declares it: an object whose
    [type] is one of the six kinds, with an item schema when it is an array
    and with property schemas when it is an object *)
Inductive WellTyped : JSVal -> Prop :=
| WellTypedSchema (props : list (string * JSVal)) (raw : string) :
    lookup "type" props = Some (Str raw) ->
    knownType raw = true ->
    (toLocaleLowerCase raw = "array" ->
       exists i, lookup "items" props = Some i /\ WellTyped i) ->
    (toLocaleLowerCase raw = "object" ->
       exists ps, lookup "properties" props = Some (Obj ps)
                  /\ Forall (fun kv => WellTyped (snd kv)) ps) ->
    WellTyped (Obj props).

(** What [convertResponseSchema] returns: an array that ends in a non-null
    entry, whose item schema (index 5) and property schemas (index 6) are of
    the same kind.  When [strict] is off the array may also have no non-null
    entry at all. *)
Inductive EncodedSchema (strict : bool) : JSVal -> Prop :=
| Encoded (l : list JSVal) :
    (endsNonNull l \/ (strict = false /\ Forall isNullish l)) ->
    (forall s, nth_error l 5 = Some s -> s = Null \/ EncodedSchema strict s) ->
    (forall ps, nth_error l 6 = Some ps ->
       ps = Null
       \/ exists entries,
            ps = Arr entries
            /\ Forall (fun e => exists k s, e = Arr [Str k; s] /\ EncodedSchema strict s)
                 entries) ->
    EncodedSchema strict (Arr l).

(** The callback of [Object.entries(...).map] *)
Definition propertyEntry (convert : JSVal -> result JSVal) (kv : string * JSVal)
    : result JSVal :=
  c <- convert (snd kv) ;; Ok (Arr [Str (fst kv); c]).

(** What a prompt says, whichever document carries it *)
Record Prompt : Type := mkPrompt {
  model : option string;
  temperature : option Q;
  topP : option Q;
  topK : option Q;
  maxOutputTokens : option Q;
  responseMimeType : option string;
  responseSchema : option JSVal;
  systemInstruction : option JSVal;
  turns : list (string * string)   (* role and text of each message *)
}.

(** A property that is present when its value is *)
Definition field (name : string) (v : option JSVal) : list (string * JSVal) :=
  match v with
  | Some x => [(name, x)]
  | None => []
  end.

(** The configuration fields, under the names both shapes use *)
Definition settings (p : Prompt) : list (string * JSVal) :=
  field "temperature" (option_map Num (temperature p))
  ++ field "topP" (option_map Num (topP p))
  ++ field "topK" (option_map Num (topK p))
  ++ field "maxOutputTokens" (option_map Num (maxOutputTokens p))
  ++ field "responseMimeType" (option_map Str (responseMimeType p))
  ++ field "responseSchema" (responseSchema p).












(** The role [convertMessage] writes *)
Definition roleName (role : JSVal) : string :=
  match role with
  | Str s =>
      if (s =? "user")%string then "user"
      else if (s =? "model")%string || (s =? "assistant")%string then "model"
      else "user"
  | _ => "user"
  end.

(** The message both converters write for a role and a text *)
Definition message (m : JSVal * JSVal) : JSVal :=
  Arr [snd m; Null; Null; Null; Null; Null; Null; Null; Str (roleName (fst m))].

End ConvertSpec.

(** *** Examples *)

Module Examples.
Import Auth Keys Convert ConvertSpec.

Definition examplePage : Env :=
  {| locationHref := "https://example.com/app?tab=1";
     locationProtocol := "https:";
     windowOrigin := "https://example.com";
     dateNow := 1700000000123 |}.

(** The UTF-8 encoding of U+0100, a character that is no byte *)
Definition utf8Wide : string :=
  String (ascii_of_N 196) (String (ascii_of_N 128) EmptyString).

(** A script that holds a key with that character *)
Definition wideKeyPage : string := ("k = 'AIzaSy" ++ utf8Wide ++ "'")%string.

Definition denied : Response := Load 403 "denied".

Definition accepted : Response := Load 200 "[]".

(** A page with one key, and the page after a second key has appeared *)
Definition firstPage : list string := ["old = 'AIzaSyOLD'"].

Definition rotatedPage : list string := ["key = 'AIzaSyNEW'; old = 'AIzaSyOLD'"].

(** A call is waiting for the answer to a request sent with the key that
    succeeded last *)
Definition waitingWorld : World :=
  {| variables := {| cachedApiKeys := Some ["AIzaSyOLD"];
                     lastSuccessfulKey := Some "AIzaSyOLD" |};
     dispatches := [Settled (Resolved "[]"); Waiting 0 ["AIzaSyOLD"] "AIzaSyOLD"];
     requests := [(0%nat, "AIzaSyOLD"); (1%nat, "AIzaSyOLD")];
     refreshes := [] |}.

(** Two calls overlap: the call 1 fails with the old key and finds the new
    one; the call 2 succeeds with the new key; the call 1 then fails with it *)
Definition overlap : list Event :=
  [Call None firstPage; Answer 0 accepted firstPage;
   Call None rotatedPage; Answer 1 denied rotatedPage;
   Call None rotatedPage; Answer 2 accepted rotatedPage;
   Answer 1 denied rotatedPage; Answer 1 denied rotatedPage].

(** One call on its own *)
Definition alone : list Event :=
  [Answer 1 denied rotatedPage; Answer 1 denied rotatedPage].

Definition exampleSchema : JSVal :=
  Obj [("type", Str "OBJECT");
       ("properties",
        Obj [("name", Obj [("type", Str "string"); ("nullable", Bool true)]);
             ("tags", Obj [("type", Str "array");
                           ("items", Obj [("type", Str "integer")])])])].

Definition exampleEncoded : list JSVal :=
  [Num 6; Null; Null; Null; Null; Null;
   Arr [Arr [Str "name"; Arr [Num 1; Null; Null; Bool true]];
        Arr [Str "tags"; Arr [Num 5; Null; Null; Null; Null; Arr [Num 3]]]]].


Definition studioDocument : JSVal :=
  Obj [("runSettings",
        Obj [("temperature", Num 1); ("model", Str "models/gemini-2.0-flash");
             ("topK", Num 40); ("safetySettings", Arr [])]);
       ("chunkedPrompt",
        Obj [("chunks",
              Arr [Obj [("text", Str "Hello"); ("role", Str "user")];
                   Obj [("text", Str "Who are you?"); ("role", Str "user")];
                   Obj [("text", Str "A model."); ("role", Str "assistant");
                        ("tokenCount", Num 3)]]);
             ("pendingInputs", Arr [])])].


End Examples.


(** * More of [auth.ts] and of the content script

    The reuse of a hash generator, the cookie reader and the token list of
    [getAuthTokens], and the notions the theorems on [normalizeUrl] and on
    the credential source are stated with. *)

(** ** A hash generator used more than once *)

Module GeneratorUse.
Import Int32 Sha1.

(** [reset()] on a generator in any state: the five hash values are assigned
    again, [bufferPos] and [totalLength] are set to 0, and [messageBuffer]
    keeps what it holds *)
Definition resetState (st : HashState) : HashState :=
  {| hashValues :=
       arraySet (arraySet (arraySet (arraySet (arraySet (hashValues st)
         0 1732584193) 1 4023233417) 2 2562383102) 3 271733878) 4 3285377520;
     messageBuffer := messageBuffer st;
     bufferPos := 0;
     totalLength := 0 |}.

(** The calls [update(data, dataLength)] of a list, in order *)
Fixpoint updateAll (calls : list (list Z * option nat)) (st : HashState)
    : option HashState :=
  match calls with
  | [] => Some st
  | (data, dataLength) :: rest =>
      match update data dataLength st with
      | Some st' => updateAll rest st'
      | None => None
      end
  end.

(** The bytes a call [update(data, dataLength)] is meant to read: the first
    [dataLength] bytes, all of [data] when [dataLength] is missing or 0 *)
Definition consumed (call : list Z * option nat) : list Z :=
  match snd call with
  | Some (S n) => firstn (S n) (fst call)
  | _ => fst call
  end.

(** The call reads bytes, and no more of them than [data] has *)
Definition byteCall (call : list Z * option nat) : Prop :=
  Forall HashRel.isByte (fst call)
  /\ match snd call with
     | Some n => (n <= length (fst call))%nat
     | None => True
     end.

(** [digest()] on the state the calls leave *)
Definition digestAfter (calls : list (list Z * option nat)) (st : HashState)
    : option (list Z) :=
  match updateAll calls st with
  | Some st' => digest st'
  | None => None
  end.

End GeneratorUse.

(** ** The cookie reader of [CookieHandler] *)

Module Cookies.
Import Auth.

(** [s.split(sep)] for a one-character separator *)
Fixpoint split (sep : ascii) (s : string) : list string :=
  match s with
  | EmptyString => [EmptyString]
  | String c rest =>
      if Ascii.eqb c sep then EmptyString :: split sep rest
      else match split sep rest with
           | first :: others => String c first :: others
           | [] => [String c EmptyString]
           end
  end.

Definition utf8 (codes : list N) : string :=
  string_of_list_ascii (map ascii_of_N codes).

(** The characters [trim] removes, white space and line terminators, in
    their UTF-8 encoding: U+0009 to U+000D, U+0020, U+00A0, U+1680, U+2000
    to U+200A, U+2028, U+2029, U+202F, U+205F, U+3000 and U+FEFF *)
Definition whiteSpace : list string :=
  map utf8
    ([[9]; [10]; [11]; [12]; [13]; [32]; [194; 160]; [225; 154; 128]]
     ++ map (fun k => [226; 128; k]) [128; 129; 130; 131; 132; 133; 134; 135; 136; 137; 138]
     ++ [[226; 128; 168]; [226; 128; 169]; [226; 128; 175]; [226; 129; 159];
         [227; 128; 128]; [239; 187; 191]])%N.

(** [s.endsWith(suffix)] *)
Definition endsWith (suffix s : string) : bool :=
  (String.length suffix <=? String.length s)%nat
  && (substringFrom (String.length s - String.length suffix) s =? suffix)%string.

(** [n] white-space characters at most are removed from the start, or from
    the end, of [s] *)
Fixpoint trimStart (n : nat) (s : string) : string :=
  match n with
  | O => s
  | S n' =>
      match find (fun w => String.prefix w s) whiteSpace with
      | Some w => trimStart n' (substringFrom (String.length w) s)
      | None => s
      end
  end.

Fixpoint trimEnd (n : nat) (s : string) : string :=
  match n with
  | O => s
  | S n' =>
      match find (fun w => endsWith w s) whiteSpace with
      | Some w => trimEnd n' (substringTo (String.length s - String.length w) s)
      | None => s
      end
  end.

(** [s.trim()] *)
Definition trim (s : string) : string :=
  trimEnd (String.length s) (trimStart (String.length s) s).

(** The loop of [get] over the entries of [cookies] *)
Fixpoint getLoop (name : string) (cookies : list string) (defaultValue : option string)
    : option string :=
  match cookies with
  | [] => defaultValue
  | entry :: rest =>
      let cookie := trim entry in
      if String.prefix (name ++ "=") cookie
      then Some (substringFrom (String.length (name ++ "=")) cookie)
      else if (cookie =? name)%string then Some EmptyString
      else getLoop name rest defaultValue
  end.

(** [get(name, defaultValue)] on the text [document.cookie]; [None] is
    [undefined] *)
Definition get (documentCookie name : string) (defaultValue : option string)
    : option string :=
  getLoop name (split ";" documentCookie) defaultValue.

(** One iteration of the loop of [parseCookies]: the key and the value
    pushed for an entry *)
Definition parseEntry (entry : string) : string * string :=
  let cookie := trim entry in
  match indexOf "=" cookie with
  | None => (EmptyString, cookie)
  | Some separatorIndex =>
      (substringTo separatorIndex cookie, substringFrom (separatorIndex + 1) cookie)
  end.

(** [parseCookies()]: the arrays [keys] and [values] *)
Definition parseCookies (documentCookie : string) : list string * list string :=
  let entries := map parseEntry (split ";" documentCookie) in
  (map fst entries, map snd entries).

Definition getKeys (documentCookie : string) : list string :=
  fst (parseCookies documentCookie).

Definition getValues (documentCookie : string) : list string :=
  snd (parseCookies documentCookie).

(** [getCount()] *)
Definition getCount (documentCookie : string) : nat :=
  if nonEmpty documentCookie then length (split ";" documentCookie) else 0%nat.

(** [isEmpty()] *)
Definition isEmpty (documentCookie : string) : bool := negb (nonEmpty documentCookie).

End Cookies.

(** ** The token list of [getAuthTokens] *)

Module Tokens.
Import Auth Cookies.

(** What [getAuthTokens] reads from the page, in which [document] is
    defined: what [createAuthHash] reads, [location.origin],
    [document.cookie], and the properties of [window] that hold a secret
    ([None] when the property is not set) *)
Record Page : Type := mkPage {
  pageEnv : Env;
  locationOrigin : string;
  documentCookie : string;
  windowProperty : string -> option string
}.

(** The truth value of a string or [undefined] *)
Definition isSet (v : option string) : bool :=
  match v with
  | Some s => nonEmpty s
  | None => false
  end.

(** [a || b] *)
Definition orElse (a b : option string) : option string :=
  if isSet a then a else b.

(** [token ? createAuthHash(token, hashName, additionalParams) : null] *)
Definition hashIfSet (page : Page) (token : option string) (hashName : string)
    (additionalParams : AdditionalParams) : result (option string) :=
  match token with
  | Some t =>
      if nonEmpty t then createAuthHash (pageEnv page) t hashName additionalParams
      else Ok None
  | None => Ok None
  end.

(** [getTokenAndCreateHash(windowProperty, cookieName, hashName, additionalParams)] *)
Definition getTokenAndCreateHash (page : Page) (property cookieName hashName : string)
    (additionalParams : AdditionalParams) : result (option string) :=
  let token := windowProperty page property in
  let token := if negb (isSet token)
               then get (documentCookie page) cookieName None
               else token in
  hashIfSet page token hashName additionalParams.

(** [isSecureProtocol] of [getAuthTokens] *)
Definition isSecureProtocol (baseUrl : string) : bool :=
  String.prefix "https:" baseUrl
  || String.prefix "chrome-extension:" baseUrl
  || String.prefix "chrome-untrusted://new-tab-page" baseUrl
  || String.prefix "moz-extension:" baseUrl.

(** [if (hash) { authTokens.push(hash); }] *)
Definition pushIfSet (authTokens : list string) (hash : option string) : list string :=
  match hash with
  | Some h => if nonEmpty h then authTokens ++ [h] else authTokens
  | None => authTokens
  end.

(** The array [authTokens] at the end of [getAuthTokens(authParams)] *)
Definition authTokens (page : Page) (authParams : AdditionalParams)
    : result (list string) :=
  let baseUrl := locationOrigin page in
  let authTokens : list string := [] in
  let window := windowProperty page in
  let cookie := fun name => get (documentCookie page) name None in
  let hasToken :=
    orElse (orElse (orElse (orElse (window "__SAPISID") (window "__APISID"))
                           (window "__3PSAPISID"))
                   (window "__1PSAPISID"))
           (window "__OVERRIDE_SID") in
  let hasToken :=
    if negb (isSet hasToken)
    then orElse (orElse (orElse (cookie "SAPISID") (cookie "APISID"))
                        (cookie "__Secure-3PAPISID"))
                (cookie "__Secure-1PAPISID")
    else hasToken in
  if isSet hasToken then
    let isSecure := isSecureProtocol baseUrl in
    let token := if isSecure then window "__SAPISID" else window "__APISID" in
    let token :=
      if negb (isSet token)
      then orElse (cookie (if isSecure then "SAPISID" else "APISID"))
                  (cookie "__Secure-3PAPISID")
      else token in
    hash <- hashIfSet page token (if isSecure then "SAPISIDHASH" else "APISIDHASH")
              authParams ;;
    let authTokens := pushIfSet authTokens hash in
    if isSecure then
      secureToken1 <- getTokenAndCreateHash page "__1PSAPISID" "__Secure-1PAPISID"
                        "SAPISID1PHASH" authParams ;;
      let authTokens := pushIfSet authTokens secureToken1 in
      secureToken3 <- getTokenAndCreateHash page "__3PSAPISID" "__Secure-3PAPISID"
                        "SAPISID3PHASH" authParams ;;
      Ok (pushIfSet authTokens secureToken3)
    else Ok authTokens
  else Ok authTokens.

(** [getAuthTokens(authParams)]; [None] is [null] *)
Definition getAuthTokens (page : Page) (authParams : AdditionalParams)
    : result (option string) :=
  tokens <- authTokens page authParams ;;
  Ok (if (length tokens =? 0)%nat then None else Some (join " " tokens)).

End Tokens.

(** ** Notions used to state the properties of the rest of the code *)

Module Text.

(** The character [c] occurs in [s] *)
Fixpoint hasChar (c : ascii) (s : string) : bool :=
  match s with
  | EmptyString => false
  | String d rest => Ascii.eqb d c || hasChar c rest
  end.

End Text.

Module UrlSpec.
Import Auth Text.

(** A scheme: word characters and dashes, at least one; [blob] apart, which
    [normalizeUrl] takes for the prefix of a blob URL *)
Definition isScheme (s : string) : Prop :=
  nonEmpty s = true /\ allChars isWordOrDash s = true /\ s <> "blob".

(** An authority: no slash, no question mark and no number sign *)
Definition isAuthority (a : string) : Prop :=
  hasChar "/" a = false /\ hasChar "?" a = false /\ hasChar "#" a = false.

(** What follows the authority: nothing, or a path, a query or a fragment *)
Definition isTail (t : string) : Prop :=
  match t with
  | EmptyString => True
  | String c _ => c = "/"%char \/ c = "?"%char \/ c = "#"%char
  end.

(** Host and port suffix of a lower-case authority, under [protocol] *)
Definition hostAndPort (protocol authority : string) : string :=
  match indexOf ":" authority with
  | Some i =>
      let port := substringFrom (i + 1) authority in
      if ((protocol =? "http") && negb (port =? "80")
          || (protocol =? "https") && negb (port =? "443"))%string
      then (substringTo i authority ++ ":" ++ port)%string
      else substringTo i authority
  | None => authority
  end.

End UrlSpec.

Module CookieSpec.
Import Cookies.

(** The pairs of [parseCookies()], key and value side by side *)
Definition pairs (documentCookie : string) : list (string * string) :=
  combine (getKeys documentCookie) (getValues documentCookie).

End CookieSpec.

Module TokenSpec.
Import Auth Tokens.



(** The window properties and the cookies a token is derived from *)
Definition secretProperties : list string :=
  ["__SAPISID"; "__APISID"; "__3PSAPISID"; "__1PSAPISID"].

Definition secretCookies : list string :=
  ["SAPISID"; "APISID"; "__Secure-3PAPISID"; "__Secure-1PAPISID"].


End TokenSpec.

Module KeyShape.
Import Keys.

(** A character a key can hold after [AIzaSy]: no quote and no ASCII white
    space *)
Definition isKeyChar (c : ascii) : bool :=
  let n := N_of_ascii c in
  negb (isQuote c) && negb ((((9 <=? n) && (n <=? 13)) || (n =? 32))%N).

(** No call has a request in flight *)
Definition idle (w : World) : Prop :=
  Forall (fun d => KeysSpec.inFlight d = false) (dispatches w).

(** The cache holds no key twice and no empty key *)
Definition distinctCache (w : World) : Prop :=
  match cachedApiKeys (variables w) with
  | Some keys => NoDup keys /\ Forall (fun k => Auth.nonEmpty k = true) keys
  | None => True
  end.

End KeyShape.

(** ** Facts on the 32-bit operators *)

Module Int32Facts.
Import Int32.

Lemma toInt32_mod (z : Z) : toInt32 z mod 2 ^ 32 = z mod 2 ^ 32.
Proof.
  unfold toInt32. rewrite Zminus_mod_idemp_l. f_equal. lia.
Qed.

Lemma toInt32_range (z : Z) : - 2 ^ 31 <= toInt32 z < 2 ^ 31.
Proof.
  unfold toInt32. pose proof (Z.mod_pos_bound (z + 2 ^ 31) (2 ^ 32)). lia.
Qed.

Lemma toInt32_small (z : Z) : - 2 ^ 31 <= z < 2 ^ 31 -> toInt32 z = z.
Proof.
  intros H. unfold toInt32. rewrite Z.mod_small; lia.
Qed.

Lemma toUint32_range (z : Z) : 0 <= toUint32 z < 2 ^ 32.
Proof. unfold toUint32. apply Z.mod_pos_bound. lia. Qed.

Lemma toUint32_toInt32 (z : Z) : toUint32 (toInt32 z) = toUint32 z.
Proof. apply toInt32_mod. Qed.

Lemma toInt32_bit (z k : Z) : 0 <= k < 32 -> Z.testbit (toInt32 z) k = Z.testbit z k.
Proof.
  intros Hk.
  rewrite <- (Z.mod_pow2_bits_low (toInt32 z) 32 k) by lia.
  rewrite toInt32_mod. apply Z.mod_pow2_bits_low. lia.
Qed.

Lemma toUint32_bit (z k : Z) :
  0 <= k -> Z.testbit (toUint32 z) k = (k <? 32) && Z.testbit z k.
Proof.
  intros Hk. unfold toUint32. destruct (Z.ltb_spec k 32).
  - rewrite Z.mod_pow2_bits_low by lia. reflexivity.
  - rewrite Z.mod_pow2_bits_high by lia. reflexivity.
Qed.

(** Bit-by-bit comparison of two numbers, bit [k] at a time *)
Ltac bitwise k Hk :=
  apply Z.bits_inj'; intros k Hk;
  repeat first
    [ rewrite toUint32_bit by lia
    | rewrite Z.land_spec | rewrite Z.lor_spec | rewrite Z.lxor_spec
    | rewrite Z.lnot_spec by lia ].

Lemma U_band (a b : Z) : toUint32 (band a b) = Z.land (toUint32 a) (toUint32 b).
Proof.
  unfold band. bitwise k Hk.
  destruct (Z.ltb_spec k 32); simpl; [ | reflexivity ].
  rewrite !toInt32_bit by lia. reflexivity.
Qed.

Lemma U_bor (a b : Z) : toUint32 (bor a b) = Z.lor (toUint32 a) (toUint32 b).
Proof.
  unfold bor. bitwise k Hk.
  destruct (Z.ltb_spec k 32); simpl; [ | reflexivity ].
  rewrite !toInt32_bit by lia. reflexivity.
Qed.

Lemma U_bxor (a b : Z) : toUint32 (bxor a b) = Z.lxor (toUint32 a) (toUint32 b).
Proof.
  unfold bxor. bitwise k Hk.
  destruct (Z.ltb_spec k 32); simpl; [ | reflexivity ].
  rewrite !toInt32_bit by lia. reflexivity.
Qed.

Lemma ones32_bit (k : Z) : 0 <= k -> Z.testbit (2 ^ 32 - 1) k = (k <? 32).
Proof.
  intros Hk. change (2 ^ 32 - 1) with (Z.ones 32).
  destruct (Z.ltb_spec k 32).
  - apply Z.ones_spec_low. lia.
  - apply Z.ones_spec_high. lia.
Qed.

Lemma U_bnot (a : Z) : toUint32 (bnot a) = Z.lxor (toUint32 a) (2 ^ 32 - 1).
Proof.
  unfold bnot. bitwise k Hk. rewrite ones32_bit by lia.
  destruct (Z.ltb_spec k 32); simpl; [ | reflexivity ].
  rewrite toInt32_bit by lia. destruct (Z.testbit a k); reflexivity.
Qed.

Lemma U_mask (a : Z) : toUint32 (band a mask32) = toUint32 a.
Proof.
  rewrite U_band. bitwise k Hk.
  change mask32 with (2 ^ 32 - 1). rewrite ones32_bit by lia.
  destruct (k <? 32); simpl; [ | reflexivity ].
  destruct (Z.testbit a k); reflexivity.
Qed.

Lemma U_add (a b : Z) : toUint32 (a + b) = (toUint32 a + toUint32 b) mod 2 ^ 32.
Proof. unfold toUint32. apply Zplus_mod. Qed.

Lemma U_idem (a : Z) : toUint32 (toUint32 a) = toUint32 a.
Proof. unfold toUint32. apply Zmod_mod. Qed.

Lemma U_small (a : Z) : 0 <= a < 2 ^ 32 -> toUint32 a = a.
Proof. intros H. unfold toUint32. apply Z.mod_small. exact H. Qed.

Lemma U_shl (a n : Z) :
  0 <= n < 32 -> toUint32 (shl a n) = (toUint32 a * 2 ^ n) mod 2 ^ 32.
Proof.
  intros Hn. unfold shl. rewrite toUint32_toInt32.
  rewrite (Z.mod_small n 32) by lia.
  rewrite Z.shiftl_mul_pow2 by lia.
  unfold toUint32.
  rewrite <- (Zmult_mod_idemp_l (toInt32 a)), toInt32_mod.
  rewrite <- (Zmult_mod_idemp_l (a mod 2 ^ 32)), Zmod_mod.
  reflexivity.
Qed.

Lemma U_shru (a n : Z) : 0 <= n < 32 -> shru a n = toUint32 a / 2 ^ n.
Proof.
  intros Hn. unfold shru. rewrite (Z.mod_small n 32) by lia.
  apply Z.shiftr_div_pow2. lia.
Qed.

Lemma shru_range (a n : Z) : 0 <= n < 32 -> 0 <= shru a n < 2 ^ 32.
Proof.
  intros Hn. rewrite U_shru by lia.
  pose proof (toUint32_range a) as Ha.
  assert (0 < 2 ^ n) by (apply Z.pow_pos_nonneg; lia).
  split.
  - apply Z.div_pos; lia.
  - apply Z.le_lt_trans with (toUint32 a); [ | lia ].
    apply Z.div_le_upper_bound; nia.
Qed.

(** The rotation idiom [((x << n) | (x >>> (32 - n))) & 0xffffffff] *)
Lemma U_rotate (a n m : Z) :
  0 < n < 32 -> m = 32 - n ->
  toUint32 (band (bor (shl a n) (shru a m)) mask32)
  = Sha1Spec.ROTL n (toUint32 a).
Proof.
  intros Hn ->. rewrite U_mask, U_bor, U_shl by lia.
  rewrite (U_small (shru a (32 - n))) by (apply shru_range; lia).
  rewrite U_shru by lia. reflexivity.
Qed.

Lemma U_Ch (b c d : Z) :
  toUint32 (bor (band b c) (band (bnot b) d))
  = Sha1Spec.Ch (toUint32 b) (toUint32 c) (toUint32 d).
Proof.
  unfold Sha1Spec.Ch, Sha1Spec.complement.
  rewrite U_bor, !U_band, U_bnot.
  apply Z.bits_inj'; intros k Hk.
  rewrite Z.lor_spec, Z.lxor_spec, !Z.land_spec, Z.lxor_spec.
  rewrite ones32_bit, !toUint32_bit by lia.
  destruct (k <? 32), (Z.testbit b k), (Z.testbit c k), (Z.testbit d k);
    reflexivity.
Qed.

Lemma U_Parity (b c d : Z) :
  toUint32 (bxor (bxor b c) d)
  = Sha1Spec.Parity (toUint32 b) (toUint32 c) (toUint32 d).
Proof. unfold Sha1Spec.Parity. rewrite !U_bxor. reflexivity. Qed.

Lemma U_Maj (b c d : Z) :
  toUint32 (bor (band b c) (band d (bor b c)))
  = Sha1Spec.Maj (toUint32 b) (toUint32 c) (toUint32 d).
Proof.
  unfold Sha1Spec.Maj.
  rewrite !U_bor, !U_band, U_bor.
  apply Z.bits_inj'; intros k Hk.
  rewrite !Z.lor_spec, !Z.lxor_spec, !Z.land_spec, Z.lor_spec.
  destruct (Z.testbit (toUint32 b) k), (Z.testbit (toUint32 c) k),
    (Z.testbit (toUint32 d) k); reflexivity.
Qed.

(** [(x >> k) & 0xff] is byte [k / 8] of the unsigned value of [x] *)
Lemma U_byte (h k : Z) :
  0 <= k <= 24 -> band (shr h k) 255 = (toUint32 h / 2 ^ k) mod 256.
Proof.
  intros Hk. unfold band, shr.
  rewrite (Z.mod_small k 32) by lia.
  rewrite (toInt32_small 255) by lia.
  change 255 with (Z.ones 8). rewrite Z.land_ones by lia.
  change 256 with (2 ^ 8).
  apply Z.bits_inj'; intros j Hj.
  destruct (Z.ltb_spec j 8).
  - rewrite !Z.mod_pow2_bits_low by lia.
    rewrite <- Z.shiftr_div_pow2 by lia.
    rewrite toInt32_bit.
    + rewrite !Z.shiftr_spec by lia. rewrite toInt32_bit by lia.
      rewrite toUint32_bit by lia.
      destruct (Z.ltb_spec (j + k) 32); [ reflexivity | lia ].
    + split; [ lia | ].
      lia.
  - rewrite !Z.mod_pow2_bits_high by lia. reflexivity.
Qed.

End Int32Facts.

(** ** One block: [processBlock] against the standard's block computation *)

Module Sha1Block.
Import Int32 Int32Facts Sha1 HashRel.

Lemma Forall_bytesAt (l : list Z) : Forall isByte l -> bytesAt l.
Proof.
  intros H i. destruct (Nat.lt_ge_cases i (length l)) as [Hi | Hi].
  - apply Forall_nth; assumption.
  - rewrite nth_overflow by exact Hi. unfold isByte. lia.
Qed.

Lemma lor_add (a b n : Z) :
  0 <= n -> 0 <= b < 2 ^ n -> Z.lor (a * 2 ^ n) b = a * 2 ^ n + b.
Proof.
  intros Hn Hb.
  assert (Hd : Z.land (a * 2 ^ n) b = 0).
  { apply Z.bits_inj'; intros k Hk. rewrite Z.land_spec, Z.bits_0.
    destruct (Z.lt_ge_cases k n).
    - rewrite Z.mul_pow2_bits_low by lia. reflexivity.
    - rewrite <- (Z.mod_small b (2 ^ n)) by lia.
      rewrite Z.mod_pow2_bits_high by lia. apply andb_false_r. }
  rewrite <- Z.lxor_lor by exact Hd. symmetry. apply Z.add_nocarry_lxor. exact Hd.
Qed.

Lemma U_loadWord (block : list Z) (j : nat) :
  bytesAt block -> toUint32 (loadWord block (4 * j)) = Sha1Spec.M block j.
Proof.
  intros Hb. unfold loadWord, Sha1Spec.M.
  pose proof (Hb (4 * j)%nat) as H0.
  pose proof (Hb (4 * j + 1)%nat) as H1.
  pose proof (Hb (4 * j + 2)%nat) as H2.
  pose proof (Hb (4 * j + 3)%nat) as H3.
  unfold isByte in *.
  set (b0 := nth (4 * j) block 0) in *.
  set (b1 := nth (4 * j + 1) block 0) in *.
  set (b2 := nth (4 * j + 2) block 0) in *.
  set (b3 := nth (4 * j + 3) block 0) in *.
  rewrite !U_bor, !U_shl by lia.
  rewrite (U_small b0), (U_small b1), (U_small b2), (U_small b3) by lia.
  rewrite (Z.mod_small (b0 * 2 ^ 24)), (Z.mod_small (b1 * 2 ^ 16)),
    (Z.mod_small (b2 * 2 ^ 8)) by lia.
  rewrite (lor_add b0 (b1 * 2 ^ 16) 24) by lia.
  replace (b0 * 2 ^ 24 + b1 * 2 ^ 16) with ((b0 * 2 ^ 8 + b1) * 2 ^ 16) by lia.
  rewrite (lor_add _ (b2 * 2 ^ 8) 16) by lia.
  replace ((b0 * 2 ^ 8 + b1) * 2 ^ 16 + b2 * 2 ^ 8)
    with (((b0 * 2 ^ 8 + b1) * 2 ^ 8 + b2) * 2 ^ 8) by lia.
  rewrite (lor_add _ b3 8) by lia.
  lia.
Qed.

Lemma U_loadWords (block : list Z) :
  bytesAt block ->
  map toUint32 (loadWords block) = map (Sha1Spec.M block) (seq 0 16).
Proof.
  intros Hb. unfold loadWords. rewrite map_map.
  apply map_ext. intros j. apply U_loadWord. exact Hb.
Qed.

Lemma U_nth (w : list Z) (i : nat) :
  nth i (map toUint32 w) 0 = toUint32 (nth i w 0).
Proof. exact (map_nth toUint32 w 0 i). Qed.

Lemma U_extendWords (n : nat) (w : list Z) :
  map toUint32 (extendWords n w) = Sha1Spec.schedule n (map toUint32 w).
Proof.
  revert w. induction n as [ | n IH]; intros w; simpl; [ reflexivity | ].
  rewrite IH, map_app, length_map. simpl.
  rewrite (U_rotate _ 1 31) by lia.
  rewrite !U_bxor, !U_nth. reflexivity.
Qed.

Lemma U_roundFK (i : nat) (b c d : Z) :
  toUint32 (fst (roundFK (Z.of_nat i) b c d))
  = Sha1Spec.f i (toUint32 b) (toUint32 c) (toUint32 d)
  /\ snd (roundFK (Z.of_nat i) b c d) = Sha1Spec.K i.
Proof.
  unfold roundFK, Sha1Spec.f, Sha1Spec.K.
  destruct (Nat.ltb_spec i 20); [ rewrite (proj2 (Z.ltb_lt _ _)) by lia | rewrite (proj2 (Z.ltb_ge _ _)) by lia ].
  { simpl. split; [ apply U_Ch | reflexivity ]. }
  destruct (Nat.ltb_spec i 40); [ rewrite (proj2 (Z.ltb_lt _ _)) by lia | rewrite (proj2 (Z.ltb_ge _ _)) by lia ].
  { simpl. split; [ apply U_Parity | reflexivity ]. }
  destruct (Nat.ltb_spec i 60); [ rewrite (proj2 (Z.ltb_lt _ _)) by lia | rewrite (proj2 (Z.ltb_ge _ _)) by lia ].
  { simpl. split; [ apply U_Maj | reflexivity ]. }
  simpl. split; [ apply U_Parity | reflexivity ].
Qed.

Lemma mod_sum5 (a b c d e : Z) :
  (a + b + c + d + e) mod 2 ^ 32
  = ((((a mod 2 ^ 32 + b mod 2 ^ 32) mod 2 ^ 32 + c mod 2 ^ 32) mod 2 ^ 32
      + d) mod 2 ^ 32 + e mod 2 ^ 32) mod 2 ^ 32.
Proof.
  rewrite <- (Zplus_mod a b).
  rewrite <- (Zplus_mod (a + b) c).
  rewrite (Zplus_mod_idemp_l (a + b + c) d).
  rewrite <- (Zplus_mod (a + b + c + d) e).
  reflexivity.
Qed.

Lemma U_rounds (n i : nat) (w : list Z) (r : Regs) :
  Utuple (rounds n i w r) = Sha1Spec.steps n i (map toUint32 w) (Utuple r).
Proof.
  revert i r. induction n as [ | n IH]; intros i r; [ reflexivity | ].
  destruct r as [[[[a b] c] d] e]. cbn [rounds].
  destruct (U_roundFK i b c d) as [Hf Hk].
  destruct (roundFK (Z.of_nat i) b c d) as [f k]. cbn [fst snd] in Hf, Hk.
  rewrite IH. cbn [Sha1Spec.steps Utuple]. f_equal.
  rewrite (U_rotate b 30 2) by lia.
  rewrite U_mask, U_nth, <- Hf, <- Hk, <- (U_rotate a 5 27) by lia.
  unfold Sha1Spec.add32, toUint32.
  rewrite mod_sum5. reflexivity.
Qed.

(** [processBlock] computes the standard's block function on the unsigned
    reading of the registers *)
Lemma U_processBlock (hv block : list Z) :
  bytesAt block ->
  Uregs (processBlock hv block) = Sha1Spec.compress (Uregs hv) block.
Proof.
  intros Hb. unfold Sha1Spec.compress, Sha1Spec.W, Uregs at 2.
  cbv beta iota.
  rewrite <- U_loadWords, <- U_extendWords by exact Hb.
  change (Uregs hv)
    with (Utuple (nth 0 hv 0, nth 1 hv 0, nth 2 hv 0, nth 3 hv 0, nth 4 hv 0)).
  rewrite <- U_rounds. unfold processBlock.
  destruct (rounds 80 0 _ _) as [[[[a b] c] d] e].
  unfold Uregs, Utuple. cbn [nth].
  rewrite !U_mask. unfold Sha1Spec.add32, toUint32.
  rewrite !(Z.add_comm (nth _ hv 0)).
  rewrite <- !Zplus_mod. reflexivity.
Qed.

(** [processBlock] reads its argument at the indices below 64 only *)
Lemma processBlock_ext (hv b1 b2 : list Z) :
  (forall i, (i < 64)%nat -> nth i b1 0 = nth i b2 0) ->
  processBlock hv b1 = processBlock hv b2.
Proof.
  intros H. unfold processBlock.
  replace (loadWords b1) with (loadWords b2); [ reflexivity | ].
  unfold loadWords. apply map_ext_in. intros j Hj.
  apply in_seq in Hj. unfold loadWord.
  rewrite !H by lia. reflexivity.
Qed.

End Sha1Block.

(** ** The buffered [update] and [digest] against padding and block hashing *)

Module Sha1Stream.
Import Int32 Int32Facts Sha1 HashRel Sha1Block.

Lemma nth_arraySet (l : list Z) (i j : nat) (v : Z) :
  nth j (arraySet l i v) 0 = if (j =? i)%nat then v else nth j l 0.
Proof.
  unfold arraySet. rewrite app_assoc.
  assert (Hlen : length (firstn i l ++ repeat 0 (i - length l)) = i).
  { rewrite length_app, length_firstn, repeat_length. lia. }
  destruct (Nat.eqb_spec j i) as [-> | Hne].
  - rewrite app_nth2 by lia. rewrite Hlen, Nat.sub_diag. reflexivity.
  - destruct (Nat.lt_ge_cases j i) as [Hlt | Hge].
    + rewrite app_nth1 by lia.
      destruct (Nat.lt_ge_cases j (length l)) as [Hj | Hj].
      * rewrite app_nth1 by (rewrite length_firstn; lia).
        rewrite nth_firstn. destruct (Nat.ltb_spec j i); [ reflexivity | lia ].
      * rewrite app_nth2 by (rewrite length_firstn; lia).
        rewrite nth_repeat. symmetry. apply nth_overflow. exact Hj.
    + rewrite app_nth2 by lia. rewrite Hlen.
      destruct (j - i)%nat as [ | d] eqn:Hd; [ lia | ].
      cbn [nth]. rewrite nth_skipn. f_equal. lia.
Qed.

Lemma compress_ext (H : Sha1Spec.Words) (b1 b2 : list Z) :
  (forall i, (i < 64)%nat -> nth i b1 0 = nth i b2 0) ->
  Sha1Spec.compress H b1 = Sha1Spec.compress H b2.
Proof.
  intros Hb. unfold Sha1Spec.compress, Sha1Spec.W.
  replace (map (Sha1Spec.M b1) (seq 0 16)) with (map (Sha1Spec.M b2) (seq 0 16));
    [ reflexivity | ].
  apply map_ext_in. intros j Hj. apply in_seq in Hj.
  unfold Sha1Spec.M. rewrite !Hb by lia. reflexivity.
Qed.

Lemma hashBlocks_S (q : nat) (H : Sha1Spec.Words) (m : list Z) :
  Sha1Spec.hashBlocks (S q) H m
  = Sha1Spec.compress (Sha1Spec.hashBlocks q H m) (firstn 64 (skipn (64 * q) m)).
Proof.
  revert H m. induction q as [ | q IH]; intros H m.
  - reflexivity.
  - change (Sha1Spec.hashBlocks (S (S q)) H m)
      with (Sha1Spec.hashBlocks (S q) (Sha1Spec.compress H (firstn 64 m)) (skipn 64 m)).
    rewrite IH. rewrite skipn_skipn.
    replace (64 * q + 64)%nat with (64 * S q)%nat by lia.
    reflexivity.
Qed.

Lemma hashBlocks_ext (q : nat) (H : Sha1Spec.Words) (m m' : list Z) :
  (forall i, (i < 64 * q)%nat -> nth i m 0 = nth i m' 0) ->
  Sha1Spec.hashBlocks q H m = Sha1Spec.hashBlocks q H m'.
Proof.
  revert H m m'. induction q as [ | q IH]; intros H m m' Hm; [ reflexivity | ].
  cbn [Sha1Spec.hashBlocks].
  rewrite (compress_ext H (firstn 64 m) (firstn 64 m')).
  - apply IH. intros i Hi. rewrite !nth_skipn. apply Hm. lia.
  - intros i Hi. rewrite !nth_firstn.
    destruct (Nat.ltb_spec i 64); [ apply Hm; lia | reflexivity ].
Qed.

(** What has been read so far: [msg] and the first [n] entries of [data] *)
Lemma nth_consumed (msg data : list Z) (n i : nat) :
  nth i (msg ++ firstn n data) 0
  = if (i <? length msg)%nat then nth i msg 0
    else if (i - length msg <? n)%nat then nth (i - length msg) data 0 else 0.
Proof.
  destruct (Nat.ltb_spec i (length msg)).
  - apply app_nth1. assumption.
  - rewrite app_nth2 by lia. apply nth_firstn.
Qed.

Lemma length_consumed (msg data : list Z) (n : nat) :
  (n <= length data)%nat -> length (msg ++ firstn n data) = (length msg + n)%nat.
Proof. intros H. rewrite length_app, length_firstn. lia. Qed.

Lemma bytesAt_consumed (msg data : list Z) (n : nat) :
  bytesAt msg -> bytesAt data -> bytesAt (msg ++ firstn n data).
Proof.
  intros Hm Hd i. rewrite nth_consumed.
  destruct (i <? length msg)%nat; [ apply Hm | ].
  destruct (i - length msg <? n)%nat; [ apply Hd | ].
  unfold isByte. lia.
Qed.

Lemma Inv_reset : Inv reset [].
Proof.
  exists 0%nat. cbn [reset bufferPos hashValues messageBuffer totalLength].
  split; [ reflexivity | ]. split; [ lia | ]. split; [ reflexivity | ].
  split; [ intros i Hi; lia | ]. split; [ reflexivity | ].
  intros i. destruct i; unfold isByte; cbn; lia.
Qed.

Lemma hash_step (hv blk : list Z) (q : nat) (M M' : list Z) :
  Uregs hv = Sha1Spec.hashBlocks q Sha1Spec.H_init M ->
  (forall i, (i < 64 * q)%nat -> nth i M' 0 = nth i M 0) ->
  (forall i, (i < 64)%nat -> nth i blk 0 = nth (64 * q + i) M' 0) ->
  bytesAt M' ->
  Uregs (processBlock hv blk) = Sha1Spec.hashBlocks (S q) Sha1Spec.H_init M'.
Proof.
  intros Hhv Hpre Hblk Hbytes.
  rewrite hashBlocks_S.
  rewrite (processBlock_ext hv blk (firstn 64 (skipn (64 * q) M'))).
  - rewrite U_processBlock.
    + rewrite Hhv. f_equal. apply hashBlocks_ext.
      intros i Hi. symmetry. apply Hpre. exact Hi.
    + intros i. rewrite nth_firstn, nth_skipn.
      destruct (i <? 64)%nat; [ apply Hbytes | unfold isByte; lia ].
  - intros i Hi. rewrite nth_firstn, nth_skipn.
    destruct (Nat.ltb_spec i 64); [ apply Hblk; exact Hi | lia ].
Qed.

(** One iteration of the block-at-a-time loop *)
Lemma Inv_fast (st : HashState) (M M' blk : list Z) :
  Inv st M -> bufferPos st = 0%nat ->
  length M' = (length M + 64)%nat ->
  (forall i, (i < length M)%nat -> nth i M' 0 = nth i M 0) ->
  (forall i, (i < 64)%nat -> nth i blk 0 = nth (length M + i) M' 0) ->
  bytesAt M' ->
  Inv {| hashValues := processBlock (hashValues st) blk;
         messageBuffer := messageBuffer st;
         bufferPos := bufferPos st;
         totalLength := totalLength st + 64 |} M'.
Proof.
  intros (q & Hlen & Hpos & Hhv & Hbuf & Htot & Hbytes) Hz HlenM Hpre Hblk HbytesM.
  exists (S q). cbn [hashValues messageBuffer bufferPos totalLength].
  rewrite Hz in *.
  split; [ lia | ]. split; [ lia | ].
  split.
  { apply (hash_step _ _ q M M'); try assumption.
    - intros i Hi. apply Hpre. lia.
    - intros i Hi. rewrite (Hblk i Hi). f_equal. lia. }
  split; [ intros i Hi; lia | ].
  split; [ lia | exact HbytesM ].
Qed.

(** One iteration of the byte-at-a-time loop, in its two cases *)
Lemma Inv_fill (st : HashState) (M M' : list Z) (x : Z) :
  Inv st M ->
  length M' = (length M + 1)%nat ->
  (forall i, (i < length M)%nat -> nth i M' 0 = nth i M 0) ->
  nth (length M) M' 0 = x ->
  bytesAt M' ->
  (S (bufferPos st) = 64%nat ->
   Inv {| hashValues := processBlock (hashValues st)
                          (arraySet (messageBuffer st) (bufferPos st) x);
          messageBuffer := arraySet (messageBuffer st) (bufferPos st) x;
          bufferPos := 0;
          totalLength := totalLength st + 1 |} M')
  /\ (S (bufferPos st) <> 64%nat ->
      Inv {| hashValues := hashValues st;
             messageBuffer := arraySet (messageBuffer st) (bufferPos st) x;
             bufferPos := S (bufferPos st);
             totalLength := totalLength st + 1 |} M').
Proof.
  intros (q & Hlen & Hpos & Hhv & Hbuf & Htot & Hbytes) HlenM Hpre Hx HbytesM.
  assert (Hnew : forall i, (i < S (bufferPos st))%nat ->
            nth i (arraySet (messageBuffer st) (bufferPos st) x) 0
            = nth (64 * q + i) M' 0).
  { intros i Hi. rewrite nth_arraySet.
    destruct (Nat.eqb_spec i (bufferPos st)) as [-> | Hne].
    - rewrite <- Hlen. symmetry. exact Hx.
    - rewrite Hbuf by lia. symmetry. apply Hpre. lia. }
  split; intros Hfull.
  - exists (S q). cbn [hashValues messageBuffer bufferPos totalLength].
    split; [ lia | ]. split; [ lia | ].
    split.
    { apply (hash_step _ _ q M M'); try assumption.
      - intros i Hi. apply Hpre. lia.
      - intros i Hi. apply Hnew. lia. }
    split; [ intros i Hi; lia | ].
    split; [ lia | exact HbytesM ].
  - exists q. cbn [hashValues messageBuffer bufferPos totalLength].
    split; [ lia | ]. split; [ lia | ].
    split.
    { rewrite Hhv. apply hashBlocks_ext. intros i Hi. symmetry. apply Hpre. lia. }
    split; [ exact Hnew | ].
    split; [ lia | exact HbytesM ].
Qed.

Lemma fastLoop_inv (fuel : nat) (data : list Z) (len dataPos : nat)
    (st : HashState) (msg : list Z) :
  (len <= length data)%nat -> bytesAt msg -> bytesAt data ->
  Inv st (msg ++ firstn dataPos data) -> bufferPos st = 0%nat ->
  (dataPos <= len)%nat -> (len - dataPos < 64 * fuel)%nat ->
  exists dataPos' st',
    fastLoop fuel data len dataPos st = Some (dataPos', st')
    /\ Inv st' (msg ++ firstn dataPos' data)
    /\ (dataPos <= dataPos' <= len)%nat.
Proof.
  intros Hlen Hmsg Hdata. revert dataPos st.
  induction fuel as [ | fuel IH]; intros dataPos st HInv Hz Hdp Hfuel; [ lia | ].
  cbn [fastLoop].
  destruct (Nat.ltb_spec (dataPos + 64) len) as [Hlt | Hge].
  - destruct (IH (dataPos + 64)%nat
      {| hashValues := processBlock (hashValues st) (slice data dataPos (dataPos + 64));
         messageBuffer := messageBuffer st;
         bufferPos := bufferPos st;
         totalLength := totalLength st + 64 |}) as (dp' & st' & Hrun & HInv' & Hdp').
    + apply (Inv_fast st (msg ++ firstn dataPos data)); try assumption.
      * rewrite !length_consumed by lia. lia.
      * intros i Hi. rewrite length_consumed in Hi by lia.
        rewrite !nth_consumed.
        destruct (Nat.ltb_spec i (length msg)); [ reflexivity | ].
        destruct (Nat.ltb_spec (i - length msg) (dataPos + 64));
          destruct (Nat.ltb_spec (i - length msg) dataPos); try lia; reflexivity.
      * intros i Hi. rewrite length_consumed by lia. rewrite nth_consumed.
        destruct (Nat.ltb_spec (length msg + dataPos + i) (length msg)); [ lia | ].
        destruct (Nat.ltb_spec (length msg + dataPos + i - length msg) (dataPos + 64));
          [ | lia ].
        unfold slice. rewrite nth_firstn, nth_skipn.
        destruct (Nat.ltb_spec i (dataPos + 64 - dataPos)); [ | lia ].
        f_equal. lia.
      * apply bytesAt_consumed; assumption.
    + exact Hz.
    + lia.
    + lia.
    + exists dp', st'. split; [ exact Hrun | ]. split; [ exact HInv' | lia ].
  - exists dataPos, st. split; [ reflexivity | ]. split; [ exact HInv | lia ].
Qed.

Lemma fillLoop_inv (fuel : nat) (data : list Z) (len dataPos : nat)
    (st : HashState) (msg : list Z) :
  (len <= length data)%nat -> bytesAt msg -> bytesAt data ->
  Inv st (msg ++ firstn dataPos data) ->
  (dataPos <= len)%nat -> (len - dataPos < fuel)%nat ->
  exists st',
    fillLoop fuel data len dataPos st = Some st'
    /\ Inv st' (msg ++ firstn len data).
Proof.
  intros Hlen Hmsg Hdata. revert dataPos st.
  induction fuel as [ | fuel IH]; intros dataPos st HInv Hdp Hfuel; [ lia | ].
  cbn [fillLoop].
  destruct (Nat.ltb_spec dataPos len) as [Hlt | Hge].
  - destruct (Inv_fill st (msg ++ firstn dataPos data) (msg ++ firstn (S dataPos) data)
                (nth dataPos data 0)) as [Hfull Hpart].
    + exact HInv.
    + rewrite !length_consumed by lia. lia.
    + intros i Hi. rewrite length_consumed in Hi by lia.
      rewrite !nth_consumed.
      destruct (Nat.ltb_spec i (length msg)); [ reflexivity | ].
      destruct (Nat.ltb_spec (i - length msg) (S dataPos));
        destruct (Nat.ltb_spec (i - length msg) dataPos); try lia; reflexivity.
    + rewrite length_consumed by lia. rewrite nth_consumed.
      destruct (Nat.ltb_spec (length msg + dataPos) (length msg)); [ lia | ].
      destruct (Nat.ltb_spec (length msg + dataPos - length msg) (S dataPos)); [ | lia ].
      f_equal. lia.
    + apply bytesAt_consumed; assumption.
    + destruct (Nat.eqb_spec (S (bufferPos st)) 64) as [He | Hne].
      * destruct (fastLoop_inv fuel data len (S dataPos) _ msg Hlen Hmsg Hdata (Hfull He))
          as (dp' & st' & Hrun & HInv' & Hdp'); [ reflexivity | lia | lia | ].
        rewrite Hrun. apply IH; [ exact HInv' | lia | lia ].
      * apply IH; [ exact (Hpart Hne) | lia | lia ].
  - exists st. split; [ reflexivity | ].
    replace len with dataPos by lia. exact HInv.
Qed.

(** [update] reads the first [len] entries of [data] *)
Lemma update_inv (data : list Z) (dataLength : option nat) (len : nat)
    (st : HashState) (msg : list Z) :
  len = match dataLength with Some (S n) => S n | _ => length data end ->
  (len <= length data)%nat -> bytesAt data ->
  Inv st msg ->
  exists st', update data dataLength st = Some st' /\ Inv st' (msg ++ firstn len data).
Proof.
  intros Hl Hlen Hdata HInv. unfold update. rewrite <- Hl.
  assert (Hmsg : bytesAt msg) by (destruct HInv as (q & _ & _ & _ & _ & _ & H); exact H).
  assert (HInv0 : Inv st (msg ++ firstn 0 data)) by (cbn [firstn]; rewrite app_nil_r; exact HInv).
  destruct (Nat.eqb_spec (bufferPos st) 0) as [Hz | Hnz].
  - destruct (fastLoop_inv (S len) data len 0 st msg Hlen Hmsg Hdata HInv0 Hz)
      as (dp' & st' & Hrun & HInv' & Hdp'); [ lia | lia | ].
    rewrite Hrun. apply fillLoop_inv; try assumption; lia.
  - apply fillLoop_inv; try assumption; lia.
Qed.

(** *** The padding and the length field *)

Lemma band_255 (x : Z) : band x 255 = toUint32 x mod 256.
Proof.
  unfold band. rewrite (toInt32_small 255) by lia.
  change 255 with (Z.ones 8). rewrite Z.land_ones by lia.
  change 256 with (2 ^ 8).
  apply Z.bits_inj'; intros j Hj.
  destruct (Z.ltb_spec j 8).
  - rewrite !Z.mod_pow2_bits_low by lia.
    rewrite toInt32_bit, toUint32_bit by lia.
    destruct (Z.ltb_spec j 32); [ reflexivity | lia ].
  - rewrite !Z.mod_pow2_bits_high by lia. reflexivity.
Qed.

Lemma shru_iter (k : nat) (L : Z) :
  toUint32 (Nat.iter k (fun x => shru x 8) L) = (L mod 2 ^ 32) / 2 ^ (8 * Z.of_nat k).
Proof.
  induction k as [ | k IH].
  - cbn [Nat.iter]. change (8 * Z.of_nat 0) with 0. rewrite Z.pow_0_r, Z.div_1_r.
    reflexivity.
  - change (Nat.iter (S k) (fun x => shru x 8) L)
      with (shru (Nat.iter k (fun x => shru x 8) L) 8).
    rewrite U_shru by lia. rewrite IH.
    pose proof (Z.mod_pos_bound L (2 ^ 32) ltac:(lia)) as HF.
    assert (Hp : 0 < 2 ^ (8 * Z.of_nat k)) by (apply Z.pow_pos_nonneg; lia).
    rewrite Z.div_div by lia.
    replace (2 ^ (8 * Z.of_nat k) * 2 ^ 8) with (2 ^ (8 * Z.of_nat (S k)))
      by (rewrite <- Z.pow_add_r by lia; f_equal; lia).
    apply U_small.
    assert (Hq : 0 < 2 ^ (8 * Z.of_nat (S k))) by (apply Z.pow_pos_nonneg; lia).
    split.
    + apply Z.div_pos; lia.
    + apply Z.le_lt_trans with (L mod 2 ^ 32); [ | lia ].
      apply Z.div_le_upper_bound; nia.
Qed.

Lemma lengthByte (k : nat) (L : Z) :
  band (Nat.iter k (fun x => shru x 8) L) 255
  = ((L mod 2 ^ 32) / 2 ^ (8 * Z.of_nat k)) mod 256.
Proof. rewrite band_255, shru_iter. reflexivity. Qed.

Lemma lengthLoop_low (L : Z) (buf : list Z) (i : nat) :
  (i < 56)%nat -> nth i (lengthLoop 8 63 L buf) 0 = nth i buf 0.
Proof.
  intros Hi. cbn [lengthLoop Nat.sub]. rewrite !nth_arraySet.
  repeat match goal with
         | |- context [Nat.eqb i ?n] => destruct (Nat.eqb_spec i n); [ lia | ]
         end.
  reflexivity.
Qed.

Lemma lengthLoop_high (L : Z) (buf : list Z) (j : nat) :
  (j < 8)%nat ->
  nth (56 + j) (lengthLoop 8 63 L buf) 0
  = nth j (Sha1Spec.bigEndian64 (L mod 2 ^ 32)) 0.
Proof.
  intros Hj.
  destruct j as [ | [ | [ | [ | [ | [ | [ | [ | j]]]]]]]]; [ .. | lia ];
    cbn [lengthLoop Nat.sub Nat.add]; rewrite !nth_arraySet;
    cbn [Nat.eqb Sha1Spec.bigEndian64 map nth].
  - exact (lengthByte 7 L).
  - exact (lengthByte 6 L).
  - exact (lengthByte 5 L).
  - exact (lengthByte 4 L).
  - exact (lengthByte 3 L).
  - exact (lengthByte 2 L).
  - exact (lengthByte 1 L).
  - exact (lengthByte 0 L).
Qed.

Lemma nth_padding (i : nat) : nth i padding 0 = if (i =? 0)%nat then 128 else 0.
Proof.
  unfold padding. destruct i as [ | i]; cbn [nth Nat.eqb]; [ reflexivity | ].
  apply nth_repeat.
Qed.

Lemma bytesAt_padding : bytesAt padding.
Proof.
  intros i. rewrite nth_padding. destruct (i =? 0)%nat; unfold isByte; lia.
Qed.

Lemma length_padding : length padding = 64%nat.
Proof. reflexivity. Qed.

Lemma zeroCount_spec (q pos : nat) :
  (pos < 64)%nat ->
  Sha1Spec.zeroCount (64 * q + pos)
  = if (pos <? 56)%nat then (55 - pos)%nat else (119 - pos)%nat.
Proof.
  intros Hpos. unfold Sha1Spec.zeroCount.
  destruct (Nat.ltb_spec pos 56).
  - replace (55 - Z.of_nat (64 * q + pos)) with (55 - Z.of_nat pos + (- Z.of_nat q) * 64) by lia.
    rewrite Z.mod_add by lia. rewrite Z.mod_small by lia. lia.
  - replace (55 - Z.of_nat (64 * q + pos))
      with (119 - Z.of_nat pos + (- Z.of_nat q - 1) * 64) by lia.
    rewrite Z.mod_add by lia. rewrite Z.mod_small by lia. lia.
Qed.

Lemma zeroCount_bound (n : nat) : (Sha1Spec.zeroCount n < 64)%nat.
Proof.
  unfold Sha1Spec.zeroCount.
  pose proof (Z.mod_pos_bound (55 - Z.of_nat n) 64 ltac:(lia)). lia.
Qed.

Lemma length_bigEndian64 (f : Z) : length (Sha1Spec.bigEndian64 f) = 8%nat.
Proof. reflexivity. Qed.

Lemma bytesAt_bigEndian64 (f : Z) : bytesAt (Sha1Spec.bigEndian64 f).
Proof.
  apply Forall_bytesAt. unfold Sha1Spec.bigEndian64. cbn [map].
  repeat constructor; apply Z.mod_pos_bound; lia.
Qed.

Lemma length_padWith (f : Z) (msg : list Z) :
  length (Sha1Spec.padWith f msg)
  = (length msg + S (Sha1Spec.zeroCount (length msg)) + 8)%nat.
Proof.
  unfold Sha1Spec.padWith.
  rewrite !length_app, repeat_length, length_bigEndian64. cbn [length]. lia.
Qed.

Lemma nth_padWith (f : Z) (msg : list Z) (i : nat) :
  nth i (Sha1Spec.padWith f msg) 0
  = if (i <? length msg)%nat then nth i msg 0
    else if (i =? length msg)%nat then 128
    else if (i <=? length msg + Sha1Spec.zeroCount (length msg))%nat then 0
    else nth (i - length msg - S (Sha1Spec.zeroCount (length msg)))
             (Sha1Spec.bigEndian64 f) 0.
Proof.
  unfold Sha1Spec.padWith.
  set (k := Sha1Spec.zeroCount (length msg)).
  destruct (Nat.ltb_spec i (length msg)); [ apply app_nth1; assumption | ].
  rewrite app_nth2 by lia.
  destruct (Nat.eqb_spec i (length msg)) as [-> | Hne].
  - rewrite Nat.sub_diag. reflexivity.
  - destruct (i - length msg)%nat as [ | d] eqn:Hd; [ lia | ].
    cbn [app nth].
    destruct (Nat.leb_spec i (length msg + k)).
    + rewrite app_nth1 by (rewrite repeat_length; lia). apply nth_repeat.
    + rewrite app_nth2 by (rewrite repeat_length; lia).
      rewrite repeat_length. reflexivity.
Qed.

Lemma bytesAt_padWith (f : Z) (msg : list Z) :
  bytesAt msg -> bytesAt (Sha1Spec.padWith f msg).
Proof.
  intros Hm i. rewrite nth_padWith.
  destruct (i <? length msg)%nat; [ apply Hm | ].
  destruct (i =? length msg)%nat; [ unfold isByte; lia | ].
  destruct (i <=? _)%nat; [ unfold isByte; lia | ].
  apply bytesAt_bigEndian64.
Qed.

Lemma padWith_prefix (f : Z) (msg : list Z) (i : nat) :
  (i < length msg + S (Sha1Spec.zeroCount (length msg)))%nat ->
  nth i (Sha1Spec.padWith f msg) 0
  = nth i (msg ++ firstn (S (Sha1Spec.zeroCount (length msg))) padding) 0.
Proof.
  intros Hi. rewrite nth_padWith, nth_consumed, nth_padding.
  destruct (Nat.ltb_spec i (length msg)); [ reflexivity | ].
  destruct (Nat.ltb_spec (i - length msg) (S (Sha1Spec.zeroCount (length msg))));
    [ | lia ].
  destruct (Nat.eqb_spec i (length msg)) as [-> | Hne].
  - rewrite Nat.sub_diag. reflexivity.
  - destruct (Nat.eqb_spec (i - length msg) 0); [ lia | ].
    destruct (Nat.leb_spec i (length msg + Sha1Spec.zeroCount (length msg)));
      [ reflexivity | lia ].
Qed.

(** [digest()] pads, writes the length field and hashes the last block *)
Lemma finalize_spec (st : HashState) (msg : list Z) :
  Inv st msg ->
  exists st',
    finalize st = Some st'
    /\ Uregs (hashValues st')
       = Sha1Spec.hashPadded
           (Sha1Spec.padWith ((8 * Z.of_nat (length msg)) mod 2 ^ 32) msg).
Proof.
  intros HInv. pose proof HInv as (q & Hlen & Hpos & Hhv & Hbuf & Htot & Hbytes).
  set (k := Sha1Spec.zeroCount (length msg)).
  assert (Hk : k = if (bufferPos st <? 56)%nat then (55 - bufferPos st)%nat
                   else (119 - bufferPos st)%nat).
  { unfold k. rewrite Hlen. apply zeroCount_spec. exact Hpos. }
  assert (Hup : exists st1,
     (if (bufferPos st <? 56)%nat
      then update padding (Some (56 - bufferPos st)%nat) st
      else update padding (Some (64 - (bufferPos st - 56))%nat) st) = Some st1
     /\ Inv st1 (msg ++ firstn (S k) padding)).
  { destruct (Nat.ltb_spec (bufferPos st) 56).
    - replace (56 - bufferPos st)%nat with (S k) by lia.
      apply update_inv;
        [ reflexivity | rewrite length_padding; lia | apply bytesAt_padding | exact HInv ].
    - replace (64 - (bufferPos st - 56))%nat with (S k) by lia.
      apply update_inv;
        [ reflexivity | rewrite length_padding; lia | apply bytesAt_padding | exact HInv ]. }
  destruct Hup as (st1 & Hrun & HInv1).
  unfold finalize. rewrite Hrun.
  eexists. split; [ reflexivity | ]. cbn [hashValues].
  destruct HInv1 as (q1 & Hlen1 & Hpos1 & Hhv1 & Hbuf1 & Htot1 & Hbytes1).
  rewrite length_consumed in Hlen1
    by (rewrite length_padding; pose proof (zeroCount_bound (length msg)); fold k; lia).
  assert (Hbp1 : bufferPos st1 = 56%nat).
  { destruct (Nat.ltb_spec (bufferPos st) 56); lia. }
  unfold Sha1Spec.hashPadded.
  replace (length (Sha1Spec.padWith ((8 * Z.of_nat (length msg)) mod 2 ^ 32) msg) / 64)%nat
    with (S q1).
  2: { rewrite length_padWith. fold k.
       replace (length msg + S k + 8)%nat with (S q1 * 64)%nat by lia.
       symmetry. apply Nat.div_mul. lia. }
  apply (hash_step _ _ q1 (msg ++ firstn (S k) padding)).
  - exact Hhv1.
  - intros i Hi. apply padWith_prefix. fold k. lia.
  - intros i Hi. destruct (Nat.lt_ge_cases i 56) as [Hlo | Hhi].
    + rewrite lengthLoop_low by exact Hlo. rewrite Hbuf1 by lia.
      symmetry. apply padWith_prefix. fold k. lia.
    + replace i with (56 + (i - 56))%nat at 1 by lia.
      rewrite lengthLoop_high by lia.
      rewrite nth_padWith. fold k.
      destruct (Nat.ltb_spec (64 * q1 + i) (length msg)); [ lia | ].
      destruct (Nat.eqb_spec (64 * q1 + i) (length msg)); [ lia | ].
      destruct (Nat.leb_spec (64 * q1 + i) (length msg + k)); [ lia | ].
      rewrite Htot, (Z.mul_comm (Z.of_nat (length msg)) 8).
      f_equal. lia.
  - apply bytesAt_padWith. exact Hbytes.
Qed.

Lemma digestBytes_spec (hv : list Z) :
  digestBytes hv = Sha1Spec.digestOf (Uregs hv).
Proof.
  unfold digestBytes, Sha1Spec.digestOf, Uregs, Sha1Spec.wordBytes.
  cbn [seq flat_map map app].
  rewrite !U_byte by lia.
  rewrite Z.pow_0_r, !Z.div_1_r. reflexivity.
Qed.

(** After any input the generator has read, [digest()] returns the digest
    of that input with the bit length taken modulo 2^32 *)
Lemma digest_spec (st : HashState) (msg : list Z) :
  Inv st msg -> digest st = Some (Sha1Spec.SHA1_trunc msg).
Proof.
  intros HInv. destruct (finalize_spec st msg HInv) as (st' & Hrun & Hhv).
  unfold digest. rewrite Hrun. cbn [option_map].
  rewrite digestBytes_spec, Hhv. reflexivity.
Qed.

Lemma bytesAt_bytesOfString (s : string) : bytesAt (bytesOfString s).
Proof.
  apply Forall_bytesAt. unfold bytesOfString.
  induction (list_ascii_of_string s) as [ | c l IH]; cbn [map]; constructor.
  - pose proof (N_ascii_bounded c). unfold isByte. lia.
  - exact IH.
Qed.

Lemma updateString_inv (s : string) (st : HashState) (msg : list Z) :
  Inv st msg ->
  exists st', updateString s st = Some st' /\ Inv st' (msg ++ bytesOfString s).
Proof.
  intros HInv. unfold updateString.
  destruct (update_inv (bytesOfString s) None (length (bytesOfString s)) st msg)
    as (st' & Hrun & HInv'); [ reflexivity | lia | apply bytesAt_bytesOfString | exact HInv | ].
  rewrite firstn_all in HInv'. exists st'. split; assumption.
Qed.

(** The length field is the standard's when the input is shorter than
    2^29 bytes *)
Lemma SHA1_trunc_small (msg : list Z) :
  Z.of_nat (length msg) < 2 ^ 29 -> Sha1Spec.SHA1_trunc msg = Sha1Spec.SHA1 msg.
Proof.
  intros H. unfold Sha1Spec.SHA1_trunc, Sha1Spec.SHA1, Sha1Spec.pad.
  rewrite Z.mod_small by lia. reflexivity.
Qed.

End Sha1Stream.


(** ** The hexadecimal output *)

Module HexFacts.
Import Int32 Sha1 HashRel Sha1Block Sha1Stream Auth.

Lemma append_assoc (a b c : string) : ((a ++ b) ++ c = a ++ (b ++ c))%string.
Proof.
  induction a as [ | x a IH]; cbn [String.append]; [ reflexivity | ].
  rewrite IH. reflexivity.
Qed.

Lemma length_append (a b : string) :
  String.length (a ++ b) = (String.length a + String.length b)%nat.
Proof.
  induction a as [ | x a IH]; cbn [String.append String.length]; [ reflexivity | ].
  rewrite IH. reflexivity.
Qed.

Lemma toLowerCase_app (a b : string) :
  toLowerCase (a ++ b) = (toLowerCase a ++ toLowerCase b)%string.
Proof.
  induction a as [ | c a IH]; cbn [String.append toLowerCase];
    [ reflexivity | rewrite IH; reflexivity ].
Qed.

Lemma allChars_app (p : ascii -> bool) (a b : string) :
  allChars p (a ++ b) = allChars p a && allChars p b.
Proof.
  unfold allChars. induction a as [ | c a IH]; cbn [String.append list_ascii_of_string forallb];
    [ reflexivity | rewrite IH; apply andb_assoc ].
Qed.

Lemma digit_facts (d : Z) : 0 <= d < 16 -> digitFacts d.
Proof.
  intros Hd. rewrite <- (Z2Nat.id d) by lia.
  assert (Hn : (Z.to_nat d < 16)%nat) by lia.
  revert Hn. generalize (Z.to_nat d). intros n Hn.
  do 16 (destruct n as [ | n]; [ vm_compute; repeat split; reflexivity | ]).
  lia.
Qed.

Lemma hexString_facts (bytes : list Z) :
  Forall isByte bytes ->
  toLowerCase (hexString bytes) = Sha1Spec.hex bytes
  /\ String.length (hexString bytes) = (2 * length bytes)%nat
  /\ allChars isUpperHexChar (hexString bytes) = true
  /\ allChars isLowerHexChar (Sha1Spec.hex bytes) = true.
Proof.
  induction 1 as [ | b rest Hb Hrest IH].
  - repeat split; reflexivity.
  - destruct IH as (IH1 & IH2 & IH3 & IH4). unfold isByte in Hb.
    assert (Hhi : 0 <= b / 16 < 16).
    { split; [ apply Z.div_pos; lia | apply Z.div_lt_upper_bound; lia ]. }
    assert (Hlo : 0 <= b mod 16 < 16) by (apply Z.mod_pos_bound; lia).
    destruct (digit_facts (b / 16) Hhi) as (A1 & A2 & A3 & A4).
    destruct (digit_facts (b mod 16) Hlo) as (B1 & B2 & B3 & B4).
    cbn [hexString Sha1Spec.hex length].
    rewrite Z.rem_mod_nonneg by lia.
    repeat split.
    + rewrite !toLowerCase_app, A1, B1, IH1.
      rewrite append_assoc. reflexivity.
    + rewrite !length_append, A2, B2, IH2. lia.
    + rewrite !allChars_app, A3, B3, IH3. reflexivity.
    + rewrite !allChars_app, A4, B4, IH4. reflexivity.
Qed.

Lemma length_toLowerCase (s : string) : String.length (toLowerCase s) = String.length s.
Proof.
  induction s as [ | c s IH]; cbn [toLowerCase String.length]; [ reflexivity | ].
  rewrite IH. reflexivity.
Qed.

Lemma wordBytes_bytes (x : Z) : Forall isByte (Sha1Spec.wordBytes x).
Proof.
  unfold Sha1Spec.wordBytes. repeat constructor; apply Z.mod_pos_bound; lia.
Qed.

Lemma digestOf_bytes (H : Sha1Spec.Words) :
  Forall isByte (Sha1Spec.digestOf H) /\ length (Sha1Spec.digestOf H) = 20%nat.
Proof.
  destruct H as [[[[a b] c] d] e]. unfold Sha1Spec.digestOf. split.
  - repeat (apply Forall_app; split); apply wordBytes_bytes.
  - reflexivity.
Qed.

(** [getHash()] and [calculateHash] after one [update] with a string *)
Lemma getHash_spec (input : string) :
  exists st,
    updateString input reset = Some st
    /\ digest st = Some (Sha1Spec.SHA1_trunc (bytesOfString input))
    /\ getHashHex st = Some (hexString (Sha1Spec.SHA1_trunc (bytesOfString input)))
    /\ calculateHash input
       = Ok (Sha1Spec.hex (Sha1Spec.SHA1_trunc (bytesOfString input))).
Proof.
  destruct (updateString_inv input reset [] Inv_reset) as (st & Hrun & HInv).
  cbn [app] in HInv.
  pose proof (digest_spec st _ HInv) as Hd.
  exists st. split; [ exact Hrun | ]. split; [ exact Hd | ].
  assert (Hh : getHashHex st
               = Some (hexString (Sha1Spec.SHA1_trunc (bytesOfString input)))).
  { unfold getHashHex. rewrite Hd. reflexivity. }
  split; [ exact Hh | ].
  unfold calculateHash. rewrite Hrun. cbn [ofOption bind]. rewrite Hh. cbn [ofOption bind].
  f_equal. apply hexString_facts. apply digestOf_bytes.
Qed.

End HexFacts.

(** ** Key discovery: the set as a list without repetitions *)

Module KeysFacts.
Import Keys KeysSpec.

Lemma includes_In (l : list string) (s : string) : includes l s = true <-> In s l.
Proof.
  unfold includes. rewrite existsb_exists. split.
  - intros (x & Hin & Heq). apply String.eqb_eq in Heq. subst. exact Hin.
  - intros Hin. exists s. split; [ exact Hin | apply String.eqb_refl ].
Qed.

Lemma includes_app (l1 l2 : list string) (s : string) :
  includes (l1 ++ l2) s = includes l1 s || includes l2 s.
Proof. unfold includes. apply existsb_app. Qed.

Lemma filter_filter_comm (p q : string -> bool) (l : list string) :
  filter p (filter q l) = filter q (filter p l).
Proof.
  induction l as [ | x l IH]; [ reflexivity | ]. cbn [filter].
  destruct (p x) eqn:Hp, (q x) eqn:Hq; cbn [filter]; rewrite ?Hp, ?Hq, IH; reflexivity.
Qed.

Lemma filter_filter (p q : string -> bool) (l : list string) :
  filter p (filter q l) = filter (fun k => q k && p k) l.
Proof.
  induction l as [ | x l IH]; [ reflexivity | ]. cbn [filter].
  destruct (q x); cbn [filter andb]; [ | exact IH ].
  destruct (p x); rewrite IH; reflexivity.
Qed.

Lemma filter_all (p : string -> bool) (l : list string) :
  (forall y, p y = true) -> filter p l = l.
Proof.
  intros H. induction l as [ | x l IH]; [ reflexivity | ].
  cbn [filter]. rewrite H, IH. reflexivity.
Qed.

Lemma filter_absorb (p q : string -> bool) (l : list string) :
  (forall y, p y = true -> q y = true) -> filter p (filter q l) = filter p l.
Proof.
  intros H. induction l as [ | x l IH]; [ reflexivity | ]. cbn [filter].
  destruct (q x) eqn:Hq; cbn [filter].
  - rewrite IH. reflexivity.
  - destruct (p x) eqn:Hp; [ rewrite (H x Hp) in Hq; discriminate | exact IH ].
Qed.

Lemma firstOccurrences_filter (p : string -> bool) (l : list string) :
  firstOccurrences (filter p l) = filter p (firstOccurrences l).
Proof.
  induction l as [ | x l IH]; [ reflexivity | ].
  cbn [filter firstOccurrences]. destruct (p x) eqn:Hp.
  - cbn [firstOccurrences]. rewrite IH. f_equal. apply filter_filter_comm.
  - rewrite IH. symmetry. apply filter_absorb.
    intros y Hy. destruct (String.eqb_spec y x) as [-> | Hne]; [ congruence | reflexivity ].
Qed.

Lemma In_firstOccurrences (l : list string) (k : string) :
  In k (firstOccurrences l) <-> In k l.
Proof.
  induction l as [ | x l IH]; [ reflexivity | ].
  cbn [firstOccurrences In]. rewrite filter_In, IH.
  destruct (String.eqb_spec k x) as [-> | Hne]; cbn [negb]; intuition congruence.
Qed.

Lemma NoDup_firstOccurrences (l : list string) : NoDup (firstOccurrences l).
Proof.
  induction l as [ | x l IH]; cbn [firstOccurrences]; constructor.
  - rewrite filter_In. intros [_ H]. rewrite String.eqb_refl in H. discriminate H.
  - apply NoDup_filter. exact IH.
Qed.

(** Adding keys one after the other keeps the first occurrence of each *)
Lemma fold_setAdd (l set : list string) :
  fold_left (fun s k => setAdd k s) l set
  = set ++ firstOccurrences (filter (fun k => negb (includes set k)) l).
Proof.
  revert set. induction l as [ | x l IH]; intros set.
  - cbn [fold_left filter firstOccurrences]. symmetry. apply app_nil_r.
  - cbn [fold_left filter]. unfold setAdd at 2.
    destruct (includes set x) eqn:Hx; cbn [negb].
    + apply IH.
    + rewrite IH. rewrite <- app_assoc. f_equal. cbn [app firstOccurrences]. f_equal.
      rewrite <- firstOccurrences_filter, filter_filter. f_equal.
      apply filter_ext. intros k. rewrite includes_app. cbn [includes existsb].
      rewrite orb_false_r, negb_orb. reflexivity.
Qed.

Lemma fold_addMatch (ignore ms set : list string) :
  fold_left (addMatch ignore) ms set
  = fold_left (fun s k => setAdd k s)
      (filter (notIgnored ignore) (map stripQuotes ms)) set.
Proof.
  revert set. induction ms as [ | m ms IH]; intros set; [ reflexivity | ].
  cbn [fold_left map filter]. unfold addMatch at 2, notIgnored at 1.
  destruct (negb (includes ignore (stripQuotes m))); cbn [fold_left]; apply IH.
Qed.

Lemma fold_scripts (ignore scripts set : list string) :
  fold_left (fun set src => fold_left (addMatch ignore) (matchAll 0 src) set) scripts set
  = fold_left (fun s k => setAdd k s)
      (filter (notIgnored ignore) (discovered scripts)) set.
Proof.
  revert set. induction scripts as [ | src scripts IH]; intros set; [ reflexivity | ].
  cbn [fold_left]. unfold discovered. cbn [flat_map].
  rewrite filter_app, fold_left_app, <- fold_addMatch. apply IH.
Qed.

Lemma findApiKeys_eq (scripts ignore : list string) :
  findApiKeys scripts ignore
  = rev (firstOccurrences (filter (notIgnored ignore) (discovered scripts))).
Proof.
  unfold findApiKeys. rewrite fold_scripts, fold_setAdd. cbn [app]. f_equal. f_equal.
  apply filter_all. intros y. reflexivity.
Qed.

Lemma findApiKeys_In (scripts ignore : list string) (k : string) :
  In k (findApiKeys scripts ignore) <-> In k (discovered scripts) /\ ~ In k ignore.
Proof.
  rewrite findApiKeys_eq, <- in_rev, In_firstOccurrences, filter_In.
  unfold notIgnored. rewrite negb_true_iff, <- not_true_iff_false, includes_In.
  reflexivity.
Qed.

(** *** The dispatcher *)

Lemma isLastSuccessful_true (st : KeyCache) (k : string) :
  isLastSuccessful st k = true <-> lastSuccessfulKey st = Some k.
Proof.
  unfold isLastSuccessful. destruct (lastSuccessfulKey st) as [k' | ].
  - rewrite String.eqb_eq. split; [ intros ->; reflexivity | intros H; injection H; auto ].
  - split; discriminate.
Qed.

Lemma isLastSuccessful_None (st : KeyCache) (k : string) :
  lastSuccessfulKey st = None -> isLastSuccessful st k = false.
Proof. unfold isLastSuccessful. intros ->. reflexivity. Qed.

Lemma failed_succeeded (r : Response) : failed r = true <-> succeeded r = None.
Proof.
  destruct r as [status text | ]; cbn [failed succeeded].
  - destruct ((200 <=? status)%Z && (status <? 300)%Z); cbn [negb];
      split; intros H; try discriminate H; reflexivity.
  - split; reflexivity.
Qed.

Lemma length_setDispatch (id : nat) (d : Dispatch) (l : list Dispatch) :
  (id < length l)%nat -> length (setDispatch id d l) = length l.
Proof.
  intros H. unfold setDispatch.
  rewrite length_app, length_firstn. cbn [length]. rewrite length_skipn. lia.
Qed.

Lemma nth_error_setDispatch_same (id : nat) (d : Dispatch) (l : list Dispatch) :
  (id < length l)%nat -> nth_error (setDispatch id d l) id = Some d.
Proof.
  intros H. unfold setDispatch.
  rewrite nth_error_app2 by (rewrite length_firstn; lia).
  rewrite length_firstn. replace (id - Nat.min id (length l))%nat with 0%nat by lia.
  reflexivity.
Qed.

Lemma nth_error_setDispatch_other (id j : nat) (d : Dispatch) (l : list Dispatch) :
  j <> id -> (id < length l)%nat ->
  nth_error (setDispatch id d l) j = nth_error l j.
Proof.
  intros Hne H. unfold setDispatch.
  destruct (Nat.lt_ge_cases j id) as [Hlt | Hge].
  - rewrite nth_error_app1 by (rewrite length_firstn; lia).
    rewrite nth_error_firstn. destruct (Nat.ltb_spec j id); [ reflexivity | lia ].
  - rewrite nth_error_app2 by (rewrite length_firstn; lia).
    rewrite length_firstn. replace (Nat.min id (length l)) with id by lia.
    destruct (j - id)%nat as [ | m] eqn:E; [ lia | ].
    cbn [nth_error]. rewrite nth_error_skipn. f_equal. lia.
Qed.

Lemma entries_app {A : Type} (id i : nat) (x : A) (l : list (nat * A)) :
  map snd (filter (fun r => (fst r =? id)%nat) (l ++ [(i, x)]))
  = map snd (filter (fun r => (fst r =? id)%nat) l)
    ++ (if (i =? id)%nat then [x] else []).
Proof.
  rewrite filter_app, map_app. cbn [filter fst].
  destruct (i =? id)%nat; reflexivity.
Qed.

Lemma entries_above {A : Type} (id : nat) (l : list (nat * A)) :
  Forall (fun r => (fst r < id)%nat) l ->
  map snd (filter (fun r => (fst r =? id)%nat) l) = [].
Proof.
  induction 1 as [ | r l Hr _ IH]; [ reflexivity | ].
  cbn [filter]. destruct (Nat.eqb_spec (fst r) id); [ lia | exact IH ].
Qed.

(** What an attempt can do *)
Lemma attempt_cases (openError : option string) (keyIndex : nat) (keys : list string) :
  (exists k, nth_error keys keyIndex = Some k
             /\ attemptRequestWithKeys openError keyIndex keys = Sends k)
  \/ attemptRequestWithKeys openError keyIndex keys = Fails allKeysFailed
  \/ exists exception, attemptRequestWithKeys openError keyIndex keys = Throws exception.
Proof.
  unfold attemptRequestWithKeys.
  destruct (nth_error keys keyIndex) as [k | ]; [ | right; left; reflexivity ].
  destruct openError as [e | ]; [ right; right; exists e; reflexivity | ].
  destruct (setRequestHeader k) as [e | ].
  - right. right. exists e. reflexivity.
  - left. exists k. split; reflexivity.
Qed.

(** The callback of a request that failed *)
Lemma onResponse_failure (id : nat) (response : Response) (scripts : list string)
    (w : World) (keyIndex : nat) (keys : list string) (currentKey : string) :
  nth_error (dispatches w) id = Some (Waiting keyIndex keys currentKey) ->
  succeeded response = None ->
  let refresh := isLastSuccessful (variables w) currentKey in
  let pool := findApiKeys scripts [currentKey] in
  let next := if refresh && (0 <? length pool)%nat then (0%nat, pool)
              else ((keyIndex + 1)%nat, keys) in
  let after := afterAttempt Uncaught id (fst next) (snd next)
                 (attemptRequestWithKeys None (fst next) (snd next)) (requests w) in
  onResponse id response scripts w
  = {| variables := if refresh
                    then {| cachedApiKeys := Some pool; lastSuccessfulKey := None |}
                    else variables w;
       dispatches := setDispatch id (fst after) (dispatches w);
       requests := snd after;
       refreshes := if refresh then refreshes w ++ [(id, pool)] else refreshes w |}.
Proof.
  intros Hd Hs. cbv zeta. unfold onResponse, onFailure. rewrite Hd, Hs.
  destruct (isLastSuccessful (variables w) currentKey); cbn [andb].
  - destruct (0 <? length (findApiKeys scripts [currentKey]))%nat; cbn [fst snd];
      match goal with
      | |- context [afterAttempt ?t ?i ?k ?ks ?a ?l] =>
          destruct (afterAttempt t i k ks a l); reflexivity
      end.
  - cbn [fst snd].
    match goal with
    | |- context [afterAttempt ?t ?i ?k ?ks ?a ?l] =>
        destruct (afterAttempt t i k ks a l); reflexivity
    end.
Qed.

Lemma onResponse_idle (id : nat) (response : Response) (scripts : list string)
    (w : World) :
  (forall d, nth_error (dispatches w) id = Some d -> inFlight d = false) ->
  onResponse id response scripts w = w.
Proof.
  intros H. unfold onResponse.
  destruct (nth_error (dispatches w) id) as [d | ]; [ | reflexivity ].
  specialize (H d eq_refl). destruct d; try reflexivity. discriminate H.
Qed.

(** The logs name calls that were made *)
Lemma logged_weaken {A : Type} (n m : nat) (l : list (nat * A)) :
  (n <= m)%nat -> Forall (fun r => (fst r < n)%nat) l -> Forall (fun r => (fst r < m)%nat) l.
Proof.
  intros Hle H. eapply Forall_impl; [ | exact H ]. cbn. intros r Hr. lia.
Qed.

Lemma logged_step (w : World) (e : Event) : logged w -> logged (step w e).
Proof.
  intros [Hreq Href]. destruct e as [openError scripts | id response scripts];
    cbn [step].
  - unfold sendMakerSuiteRequest.
    destruct (length (cachedOrFound scripts (variables w)) =? 0)%nat.
    + split; cbn [dispatches requests refreshes]; rewrite length_app; cbn [length];
        eapply logged_weaken; try eassumption; lia.
    + destruct (attemptRequestWithKeys openError 0
                  (keysToTry (cachedOrFound scripts (variables w))
                     (lastSuccessfulKey (variables w)))) as [k | s | ex];
        cbn [afterAttempt]; split; cbn [dispatches requests refreshes];
        rewrite length_app; cbn [length];
        try (eapply logged_weaken; try eassumption; lia).
      apply Forall_app. split; [ eapply logged_weaken; try eassumption; lia | ].
      constructor; [ cbn [fst]; lia | constructor ].
  - unfold onResponse.
    destruct (nth_error (dispatches w) id) as [d | ] eqn:Hd; [ | split; assumption ].
    destruct d as [keyIndex keys currentKey | | | | ]; try (split; assumption).
    assert (Hid : (id < length (dispatches w))%nat)
      by (apply nth_error_Some; rewrite Hd; discriminate).
    destruct (succeeded response) as [text | ].
    + split; cbn [dispatches requests refreshes]; rewrite length_setDispatch by exact Hid;
        assumption.
    + destruct (onFailure scripts keyIndex keys currentKey (variables w))
        as [[st [keyIndex' keys']] pool].
      destruct (attemptRequestWithKeys None keyIndex' keys') as [k | s | ex];
        cbn [afterAttempt]; split; cbn [dispatches requests refreshes];
        rewrite length_setDispatch by exact Hid;
        try assumption;
        try (destruct pool; [ apply Forall_app; split;
                                [ assumption | constructor; [ exact Hid | constructor ] ]
                            | assumption ]).
      apply Forall_app. split; [ assumption | constructor; [ exact Hid | constructor ] ].
Qed.

Lemma logged_run (events : list Event) (w : World) : logged w -> logged (run w events).
Proof.
  revert w. induction events as [ | e events IH]; intros w H; [ exact H | ].
  cbn [run fold_left]. apply IH. apply logged_step. exact H.
Qed.

Lemma logged_pageLoad : logged pageLoad.
Proof. split; constructor. Qed.

(** A call starts *)
Lemma Progress_start (openError : option string) (scripts : list string) (w : World) :
  logged w ->
  Progress (length (dispatches w)) (length (initialKeys scripts w)) 0
    (sendMakerSuiteRequest openError scripts w).
Proof.
  intros [Hreq Href]. unfold Progress, sendMakerSuiteRequest, initialKeys.
  set (id := length (dispatches w)).
  set (keys := keysToTry (cachedOrFound scripts (variables w))
                 (lastSuccessfulKey (variables w))).
  assert (Hr0 : map snd (filter (fun r => (fst r =? id)%nat) (requests w)) = [])
    by (apply entries_above; exact Hreq).
  assert (Hf0 : map snd (filter (fun r => (fst r =? id)%nat) (refreshes w)) = [])
    by (apply entries_above; exact Href).
  destruct (length (cachedOrFound scripts (variables w)) =? 0)%nat.
  - exists (Thrown "No API keys found").
    unfold requestsBy, refreshesBy. cbn [dispatches requests refreshes variables].
    rewrite Hr0, Hf0. cbn [length concat remaining inFlight].
    split; [ rewrite nth_error_app2 by (fold id; lia); fold id;
             rewrite Nat.sub_diag; reflexivity | ].
    split; [ lia | ]. split; [ lia | ].
    split; [ discriminate | ].
    intros _. right. right. exists "No API keys found". right. right. reflexivity.
  - destruct (attempt_cases openError 0 keys) as [(k & Hk & ->) | [-> | (ex & ->)]];
      cbn [afterAttempt]; eexists;
      unfold requestsBy, refreshesBy; cbn [dispatches requests refreshes variables];
      (split; [ rewrite nth_error_app2 by (fold id; lia); fold id;
                rewrite Nat.sub_diag; reflexivity | ]);
      rewrite ?entries_app, Hr0, Hf0, ?Nat.eqb_refl;
      cbn [length concat remaining inFlight app].
    + assert (0 < length keys)%nat by (apply nth_error_Some; rewrite Hk; discriminate).
      split; [ lia | ]. split; [ lia | ].
      split; [ intros _; split; [ reflexivity | intros H0; contradiction H0; reflexivity ]
             | discriminate ].
    + split; [ lia | ]. split; [ lia | ].
      split; [ discriminate | ]. intros _. right. left. reflexivity.
    + split; [ lia | ]. split; [ lia | ].
      split; [ discriminate | ]. intros _. right. right. exists ex. left. reflexivity.
Qed.

(** An event that is not the success of another call *)
Lemma Progress_step (id n0 answers : nat) (w : World) (e : Event) :
  Progress id n0 answers w ->
  match e with
  | Answer i r _ => i = id \/ failed r = true
  | Call _ _ => True
  end ->
  Progress id n0 (answers + (if isAnswerTo id e then 1 else 0)) (step w e).
Proof.
  intros (d & Hd & Hone & Hbound & Hfly & Hend) He.
  unfold Progress. unfold requestsBy, refreshesBy in *.
  assert (Hid : (id < length (dispatches w))%nat)
    by (apply nth_error_Some; rewrite Hd; discriminate).
  destruct e as [openError scripts | i response scripts]; cbn [step isAnswerTo].
  - (* another call starts *)
    rewrite Nat.add_0_r. exists d.
    unfold sendMakerSuiteRequest.
    destruct (length (cachedOrFound scripts (variables w)) =? 0)%nat.
    + cbn [dispatches requests refreshes variables lastSuccessfulKey].
      split; [ rewrite nth_error_app1 by exact Hid; exact Hd | ].
      repeat (split; [ assumption | ]). assumption.
    + destruct (attemptRequestWithKeys openError 0
                  (keysToTry (cachedOrFound scripts (variables w))
                     (lastSuccessfulKey (variables w)))) as [k | s | ex];
        cbn [afterAttempt];
        cbn [dispatches requests refreshes variables lastSuccessfulKey];
        rewrite ?entries_app;
        try (replace (length (dispatches w) =? id)%nat with false
               by (symmetry; apply Nat.eqb_neq; lia));
        rewrite ?app_nil_r;
        (split; [ rewrite nth_error_app1 by exact Hid; exact Hd | ]);
        repeat (split; [ assumption | ]); assumption.
  - destruct (Nat.eqb_spec i id) as [-> | Hne].
    + (* an answer to the call itself *)
      destruct d as [keyIndex keys currentKey | s | ex | ex | ex];
        try (rewrite onResponse_idle
               by (intros d' Hd'; rewrite Hd in Hd'; injection Hd' as <-; reflexivity);
             eexists; split; [ exact Hd | ];
             repeat (split; [ assumption | ]);
             split; [ discriminate | assumption ]).
      destruct (Hfly eq_refl) as [Hcount Hmark]. clear Hfly Hend.
      cbn [remaining] in Hbound.
      destruct (succeeded response) as [text | ] eqn:Hs.
      * (* success *)
        unfold onResponse. rewrite Hd, Hs.
        exists (Settled (Resolved text)).
        cbn [dispatches requests refreshes variables remaining inFlight].
        split; [ apply nth_error_setDispatch_same; exact Hid | ].
        split; [ exact Hone | ]. split; [ lia | ].
        split; [ discriminate | ]. intros _. left. exists text. reflexivity.
      * (* failure *)
        rewrite (onResponse_failure id response scripts w keyIndex keys currentKey Hd Hs).
        cbv zeta.
        destruct (isLastSuccessful (variables w) currentKey) eqn:Hlast; cbn [andb].
        -- (* the key succeeded last: refresh *)
           assert (Hnone : map snd (filter (fun r => (fst r =? id)%nat) (refreshes w)) = []).
           { destruct (map snd (filter (fun r => (fst r =? id)%nat) (refreshes w)))
               as [ | p ps] eqn:E; [ reflexivity | ].
             apply isLastSuccessful_true in Hlast.
             rewrite Hmark in Hlast by discriminate. discriminate Hlast. }
           rewrite Hnone in *.
           cbn [length concat] in Hbound.
           set (pool := findApiKeys scripts [currentKey]).
           destruct (0 <? length pool)%nat eqn:Hpool; cbn [fst snd].
           ++ apply Nat.ltb_lt in Hpool.
              destruct (attempt_cases None 0 pool) as [(k & Hk & ->) | [-> | (ex & ->)]];
                cbn [afterAttempt fst snd]; eexists;
                cbn [dispatches requests refreshes variables lastSuccessfulKey];
                (split; [ apply nth_error_setDispatch_same; exact Hid | ]);
                rewrite !entries_app, Hnone, ?Nat.eqb_refl;
                cbn [app length concat remaining inFlight]; rewrite ?app_nil_r,
                  ?length_app; cbn [length].
              ** split; [ lia | ]. split; [ lia | ].
                 split; [ intros _; split; [ lia | reflexivity ] | discriminate ].
              ** split; [ lia | ]. split; [ lia | ].
                 split; [ discriminate | ]. intros _. right. left. reflexivity.
              ** split; [ lia | ]. split; [ lia | ].
                 split; [ discriminate | ]. intros _. right. right. exists ex.
                 right. left. reflexivity.
           ++ destruct (attempt_cases None (keyIndex + 1) keys)
                as [(k & Hk & ->) | [-> | (ex & ->)]];
                cbn [afterAttempt fst snd]; eexists;
                cbn [dispatches requests refreshes variables lastSuccessfulKey];
                (split; [ apply nth_error_setDispatch_same; exact Hid | ]);
                rewrite !entries_app, Hnone, ?Nat.eqb_refl;
                cbn [app length concat remaining inFlight]; rewrite ?app_nil_r,
                  ?length_app; cbn [length].
              ** assert (keyIndex + 1 < length keys)%nat
                   by (apply nth_error_Some; rewrite Hk; discriminate).
                 split; [ lia | ]. split; [ lia | ].
                 split; [ intros _; split; [ lia | reflexivity ] | discriminate ].
              ** split; [ lia | ]. split; [ lia | ].
                 split; [ discriminate | ]. intros _. right. left. reflexivity.
              ** split; [ lia | ]. split; [ lia | ].
                 split; [ discriminate | ]. intros _. right. right. exists ex.
                 right. left. reflexivity.
        -- (* the next key of the list *)
           cbn [fst snd].
           destruct (attempt_cases None (keyIndex + 1) keys)
             as [(k & Hk & ->) | [-> | (ex & ->)]];
             cbn [afterAttempt fst snd]; eexists;
             cbn [dispatches requests refreshes variables lastSuccessfulKey];
             (split; [ apply nth_error_setDispatch_same; exact Hid | ]);
             rewrite ?entries_app, ?Nat.eqb_refl;
             cbn [remaining inFlight]; rewrite ?app_nil_r, ?length_app; cbn [length].
           ++ assert (keyIndex + 1 < length keys)%nat
                by (apply nth_error_Some; rewrite Hk; discriminate).
              split; [ exact Hone | ]. split; [ lia | ].
              split; [ intros _; split; [ lia | exact Hmark ] | discriminate ].
           ++ split; [ exact Hone | ]. split; [ lia | ].
              split; [ discriminate | ]. intros _. right. left. reflexivity.
           ++ split; [ exact Hone | ]. split; [ lia | ].
              split; [ discriminate | ]. intros _. right. right. exists ex.
              right. left. reflexivity.
    + (* an answer to another call: not a success *)
      rewrite Nat.add_0_r.
      destruct He as [He | He]; [ contradiction | ].
      apply failed_succeeded in He.
      destruct (nth_error (dispatches w) i) as [di | ] eqn:Hdi;
        [ | rewrite onResponse_idle by (intros d' Hd'; rewrite Hdi in Hd'; discriminate Hd');
            exists d; repeat (split; [ assumption | ]); assumption ].
      destruct di as [keyIndex keys currentKey | s | ex | ex | ex];
        try (rewrite onResponse_idle
               by (intros d' Hd'; rewrite Hdi in Hd'; injection Hd' as <-; reflexivity);
             exists d; repeat (split; [ assumption | ]); assumption).
      assert (Hi : (i < length (dispatches w))%nat)
        by (apply nth_error_Some; rewrite Hdi; discriminate).
      rewrite (onResponse_failure i response scripts w keyIndex keys currentKey Hdi He).
      cbv zeta. exists d.
      assert (Hmark' : inFlight d = true ->
                       map snd (filter (fun r => (fst r =? id)%nat) (refreshes w)) <> [] ->
                       lastSuccessfulKey
                         (if isLastSuccessful (variables w) currentKey
                          then {| cachedApiKeys := Some (findApiKeys scripts [currentKey]);
                                  lastSuccessfulKey := None |}
                          else variables w) = None).
      { intros Hf Hr. destruct (isLastSuccessful (variables w) currentKey);
          [ reflexivity | exact (proj2 (Hfly Hf) Hr) ]. }
      match goal with
      | |- context [afterAttempt ?t ?a ?b ?c ?x ?l] =>
          assert (Hlog : map snd (filter (fun r => (fst r =? id)%nat)
                                    (snd (afterAttempt t a b c x l)))
                         = map snd (filter (fun r => (fst r =? id)%nat) l));
          [ destruct x; cbn [afterAttempt snd]; rewrite ?entries_app;
            try (replace (i =? id)%nat with false by (symmetry; apply Nat.eqb_neq; exact Hne));
            rewrite ?app_nil_r; reflexivity | ]
      end.
      assert (Href : map snd (filter (fun r => (fst r =? id)%nat)
                                (if isLastSuccessful (variables w) currentKey
                                 then refreshes w ++ [(i, findApiKeys scripts [currentKey])]
                                 else refreshes w))
                     = map snd (filter (fun r => (fst r =? id)%nat) (refreshes w))).
      { destruct (isLastSuccessful (variables w) currentKey); [ | reflexivity ].
        rewrite entries_app.
        replace (i =? id)%nat with false by (symmetry; apply Nat.eqb_neq; exact Hne).
        apply app_nil_r. }
      cbn [dispatches requests refreshes variables]. rewrite Hlog, Href.
      split; [ rewrite nth_error_setDispatch_other by (assumption || (intros E; apply Hne; symmetry; exact E));
               exact Hd | ].
      split; [ exact Hone | ]. split; [ exact Hbound | ].
      split; [ | exact Hend ].
      intros Hf. split; [ exact (proj1 (Hfly Hf)) | exact (Hmark' Hf) ].
Qed.

Lemma Progress_run (id n0 : nat) (events : list Event) :
  forall (answers : nat) (w : World),
    Progress id n0 answers w ->
    noOtherSuccess id events ->
    Progress id n0 (answers + answersTo id events) (run w events).
Proof.
  induction events as [ | e events IH]; intros answers w H Hno.
  - cbn [run fold_left]. unfold answersTo. cbn [filter length].
    rewrite Nat.add_0_r. exact H.
  - inversion Hno as [ | e' es He Hes ]; subst.
    cbn [run fold_left].
    replace (answers + answersTo id (e :: events))%nat
      with ((answers + (if isAnswerTo id e then 1 else 0)) + answersTo id events)%nat.
    + apply IH; [ | exact Hes ]. apply Progress_step; assumption.
    + unfold answersTo. cbn [filter]. destruct (isAnswerTo id e); cbn [length]; lia.
Qed.

End KeysFacts.


(** ** The schema converter *)

Module ConvertFacts.
Import Convert ConvertSpec.

Lemma bind_Ok {A B : Type} (c : result A) (k : A -> result B) (b : B) :
  bind c k = Ok b -> exists a, c = Ok a /\ k a = Ok b.
Proof.
  destruct c as [a | m | ]; cbn [bind]; intros H; [ | discriminate H | discriminate H ].
  exists a. split; [ reflexivity | exact H ].
Qed.

(** *** Trimming *)

Lemma last_firstn_S (l : list JSVal) (i : nat) :
  (i < length l)%nat -> last (firstn (S i) l) Undefined = nth i l Undefined.
Proof.
  revert i. induction l as [ | x l IH]; intros i Hi; [ cbn in Hi; lia | ].
  destruct i as [ | i].
  - reflexivity.
  - cbn [length] in Hi. change (firstn (S (S i)) (x :: l)) with (x :: firstn (S i) l).
    cbn [nth]. rewrite <- IH by lia.
    destruct l as [ | y l]; [ cbn in Hi; lia | reflexivity ].
Qed.

Lemma skipn_nullish (l : list JSVal) (n : nat) :
  (forall i, (n <= i < length l)%nat -> nullish (nth i l Undefined) = true) ->
  Forall isNullish (skipn n l).
Proof.
  intros H. apply Forall_forall. intros v Hin.
  destruct (In_nth _ _ Undefined Hin) as (j & Hj & <-).
  rewrite length_skipn in Hj. rewrite nth_skipn. apply H. lia.
Qed.

(** The loop cuts the array after its last non-null entry, and leaves it as
    it is when it has none *)
Lemma trimLoop_spec (n : nat) (schema : list JSVal) :
  (n <= length schema)%nat ->
  (forall i, (n <= i < length schema)%nat -> nullish (nth i schema Undefined) = true) ->
  exists dropped,
    schema = trimLoop n schema ++ dropped
    /\ Forall isNullish dropped
    /\ (endsNonNull (trimLoop n schema)
        \/ (dropped = [] /\ Forall isNullish schema)).
Proof.
  induction n as [ | n IH]; intros Hn Htail.
  - exists []. cbn [trimLoop]. rewrite app_nil_r.
    split; [ reflexivity | ]. split; [ constructor | ].
    right. split; [ reflexivity | ].
    change schema with (skipn 0 schema). apply skipn_nullish. exact Htail.
  - cbn [trimLoop]. destruct (nullish (nth n schema Undefined)) eqn:Hnull; cbn [negb].
    + apply IH; [ lia | ]. intros i Hi.
      destruct (Nat.eq_dec i n) as [-> | Hne]; [ exact Hnull | apply Htail; lia ].
    + exists (skipn (S n) schema).
      split; [ symmetry; apply firstn_skipn | ].
      split; [ apply skipn_nullish; intros i Hi; apply Htail; lia | ].
      left. unfold endsNonNull. rewrite last_firstn_S by lia. exact Hnull.
Qed.

(** *** The depth of a document *)

Lemma list_max_In (f : JSVal -> nat) (l : list JSVal) (v : JSVal) :
  In v l -> (f v <= list_max (map f l))%nat.
Proof.
  intros H.
  pose proof (proj1 (list_max_le (map f l) _) (Nat.le_refl _)) as F.
  rewrite Forall_forall in F. apply F. apply in_map. exact H.
Qed.

Lemma depth_property (props : list (string * JSVal)) (kv : string * JSVal) :
  In kv props -> (depth (snd kv) < depth (Obj props))%nat.
Proof.
  intros H. cbn [depth]. apply Nat.lt_succ_r.
  pose proof (proj1 (list_max_le (map (fun kv => depth (snd kv)) props) _)
                (Nat.le_refl _)) as F.
  rewrite Forall_forall in F. apply F.
  apply (in_map (fun kv => depth (snd kv))). exact H.
Qed.

Lemma lookup_In (k : string) (props : list (string * JSVal)) (v : JSVal) :
  lookup k props = Some v -> exists k', In (k', v) props.
Proof.
  induction props as [ | [k' x] props IH]; cbn [lookup]; [ discriminate | ].
  destruct (k' =? k)%string.
  - intros H. injection H as <-. exists k'. left. reflexivity.
  - intros H. destruct (IH H) as (k'' & Hin). exists k''. right. exact Hin.
Qed.

Lemma getProp_depth (rs : JSVal) (k : string) (v : JSVal) :
  getProp rs k = Ok v -> v = Undefined \/ (depth v < depth rs)%nat.
Proof.
  destruct rs as [ | | | | | | props | ]; cbn [getProp]; intros H;
    try discriminate H; try (injection H as <-; left; reflexivity).
  destruct (lookup k props) as [x | ] eqn:Hl; injection H as <-;
    [ right | left; reflexivity ].
  destruct (lookup_In _ _ _ Hl) as (k' & Hin).
  exact (depth_property props (k', x) Hin).
Qed.

Lemma getProp_Str_depth (rs : JSVal) (k s : string) :
  getProp rs k = Ok (Str s) -> (1 <= depth rs)%nat.
Proof.
  intros H. destruct (getProp_depth rs k _ H) as [He | Hd]; [ discriminate He | lia ].
Qed.

Lemma getProp_fuel (v : JSVal) (k : string) : getProp v k <> OutOfFuel.
Proof. destruct v; cbn [getProp]; discriminate. Qed.

Lemma objectEntries_depth (ps : JSVal) (entries : list (string * JSVal))
    (kv : string * JSVal) :
  objectEntries ps = Ok entries -> In kv entries ->
  depth (snd kv) = 0%nat \/ (depth (snd kv) < depth ps)%nat.
Proof.
  destruct ps as [ | | | | s | l | props | ]; cbn [objectEntries]; intros H Hin;
    try discriminate H; injection H as <-.
  - contradiction Hin.
  - contradiction Hin.
  - apply in_map_iff in Hin. destruct Hin as (ic & <- & _). left. reflexivity.
  - apply in_map_iff in Hin. destruct Hin as ([i v] & <- & Hiv).
    apply in_combine_r in Hiv. right. cbn [snd depth]. apply Nat.lt_succ_r.
    apply list_max_In. exact Hiv.
  - right. apply depth_property. exact Hin.
  - contradiction Hin.
Qed.

Lemma objectEntries_fuel (ps : JSVal) : objectEntries ps <> OutOfFuel.
Proof. destruct ps; cbn [objectEntries]; discriminate. Qed.

(** *** The encoded schema *)

Lemma getProp_Obj (props : list (string * JSVal)) (k : string) :
  getProp (Obj props) k = Ok (optValue (lookup k props)).
Proof. reflexivity. Qed.

Lemma knownType_number (raw : string) :
  knownType raw = true -> nullish (SCHEMA_TYPE_TO_NUMBER (toLocaleLowerCase raw)) = false.
Proof.
  unfold knownType, SCHEMA_TYPE_TO_NUMBER. cbn [existsb].
  set (t := toLocaleLowerCase raw).
  rewrite !(String.eqb_sym t).
  destruct ("string" =? t)%string; [ reflexivity | ].
  destruct ("number" =? t)%string; [ reflexivity | ].
  destruct ("integer" =? t)%string; [ reflexivity | ].
  destruct ("boolean" =? t)%string; [ reflexivity | ].
  destruct ("array" =? t)%string; [ reflexivity | ].
  destruct ("object" =? t)%string; [ reflexivity | ].
  cbn. discriminate.
Qed.

Lemma mapResult_Forall2 {A B : Type} (f : A -> result B) (l : list A) (ys : list B) :
  mapResult f l = Ok ys -> Forall2 (fun x y => f x = Ok y) l ys.
Proof.
  revert ys. induction l as [ | x l IH]; intros ys H; cbn [mapResult] in H.
  - injection H as <-. constructor.
  - apply bind_Ok in H. destruct H as (y & Hy & H).
    apply bind_Ok in H. destruct H as (ys' & Hys & H).
    injection H as <-. constructor; [ exact Hy | apply IH; exact Hys ].
Qed.

Lemma mapResult_Ok {A B : Type} (f : A -> result B) (l : list A) :
  (forall x, In x l -> exists y, f x = Ok y) -> exists ys, mapResult f l = Ok ys.
Proof.
  induction l as [ | x l IH]; intros H; cbn [mapResult].
  - exists []. reflexivity.
  - destruct (H x (or_introl eq_refl)) as (y & Hy).
    destruct IH as (ys & Hys); [ intros z Hz; apply H; right; exact Hz | ].
    exists (y :: ys). rewrite Hy. cbn [bind]. rewrite Hys. reflexivity.
Qed.

(** The shape of the array literal *)
Lemma buildSchema_inv (convert : JSVal -> result JSVal) (rs : JSVal)
    (schema : list JSVal) :
  buildSchema convert rs = Ok schema ->
  exists raw d n e items props req,
    getProp rs "type" = Ok (Str raw)
    /\ schema = [SCHEMA_TYPE_TO_NUMBER (toLocaleLowerCase raw); Null; d; n; e;
                 items; props; req]
    /\ (items = Null
        \/ (toLocaleLowerCase raw = "array"
            /\ exists i, getProp rs "items" = Ok i /\ convert i = Ok items))
    /\ (props = Null
        \/ (toLocaleLowerCase raw = "object"
            /\ exists ps entries l,
                 getProp rs "properties" = Ok ps
                 /\ objectEntries ps = Ok entries
                 /\ mapResult (propertyEntry convert) entries = Ok l
                 /\ props = Arr l)).
Proof.
  unfold buildSchema. intros H.
  apply bind_Ok in H. destruct H as (rawType & Hraw & H).
  apply bind_Ok in H. destruct H as (type & Htype & H).
  destruct rawType as [ | | | | raw | | | ]; try discriminate Htype.
  injection Htype as <-.
  apply bind_Ok in H. destruct H as (d & _ & H).
  apply bind_Ok in H. destruct H as (n & _ & H).
  apply bind_Ok in H. destruct H as (e & _ & H).
  apply bind_Ok in H. destruct H as (items & Hitems & H).
  apply bind_Ok in H. destruct H as (props & Hprops & H).
  apply bind_Ok in H. destruct H as (req & _ & H).
  injection H as <-.
  exists raw, (coalesce d Null), (coalesce n Null), e, items, props, req.
  split; [ exact Hraw | ]. split; [ reflexivity | ]. split.
  - destruct (String.eqb_spec (toLocaleLowerCase raw) "array") as [Ha | _].
    + apply bind_Ok in Hitems. destruct Hitems as (i & Hget & Hi).
      right. split; [ exact Ha | ]. exists i. split; assumption.
    + injection Hitems as <-. left. reflexivity.
  - destruct (String.eqb_spec (toLocaleLowerCase raw) "object") as [Ho | _].
    + apply bind_Ok in Hprops. destruct Hprops as (ps & Hps & Hprops).
      apply bind_Ok in Hprops. destruct Hprops as (entries & Hentries & Hprops).
      apply bind_Ok in Hprops. destruct Hprops as (l & Hl & Hprops).
      injection Hprops as <-. right. split; [ exact Ho | ].
      exists ps, entries, l. repeat split; assumption.
    + injection Hprops as <-. left. reflexivity.
Qed.

(** What one call returns, in terms of the array literal it built *)
Lemma convertResponseSchema_trim (fuel : nat) (rs r : JSVal) :
  convertResponseSchema (S fuel) rs = Ok r ->
  exists schema kept dropped,
    buildSchema (convertResponseSchema fuel) rs = Ok schema
    /\ length schema = 8%nat
    /\ r = Arr kept
    /\ schema = kept ++ dropped
    /\ Forall isNullish dropped
    /\ (endsNonNull kept \/ (dropped = [] /\ Forall isNullish schema)).
Proof.
  cbn [convertResponseSchema]. intros H.
  apply bind_Ok in H. destruct H as (schema & Hbuild & H). injection H as <-.
  assert (Hlen : length schema = 8%nat).
  { destruct (buildSchema_inv _ _ _ Hbuild) as (raw & d & n & e & i & p & q & _ & -> & _).
    reflexivity. }
  destruct (trimLoop_spec (length schema) schema (Nat.le_refl _))
    as (dropped & Hsplit & Hdropped & Hend); [ intros i Hi; lia | ].
  exists schema, (trimLoop (length schema) schema), dropped.
  repeat split; assumption.
Qed.

Lemma entries_encoded (strict : bool) (convert : JSVal -> result JSVal)
    (entries : list (string * JSVal)) :
  forall l,
    (forall kv c, In kv entries -> convert (snd kv) = Ok c -> EncodedSchema strict c) ->
    mapResult (propertyEntry convert) entries = Ok l ->
    Forall (fun e => exists k s, e = Arr [Str k; s] /\ EncodedSchema strict s) l.
Proof.
  induction entries as [ | kv entries IH]; intros l Henc H; cbn [mapResult] in H.
  - injection H as <-. constructor.
  - apply bind_Ok in H. destruct H as (y & Hy & H).
    apply bind_Ok in H. destruct H as (ys & Hys & H). injection H as <-.
    constructor.
    + unfold propertyEntry in Hy. apply bind_Ok in Hy. destruct Hy as (c & Hc & Hy).
      injection Hy as <-. exists (fst kv), c.
      split; [ reflexivity | apply (Henc kv c); [ left; reflexivity | exact Hc ] ].
    + apply IH; [ | exact Hys ]. intros kv' c Hin. apply Henc. right. exact Hin.
Qed.

(** Every result has the encoded form, and the strict one when the schema is
    well typed *)
Lemma convertResponseSchema_encoded (strict : bool) (fuel : nat) :
  forall rs r,
    (strict = true -> WellTyped rs) ->
    convertResponseSchema fuel rs = Ok r -> EncodedSchema strict r.
Proof.
  induction fuel as [ | fuel IH]; intros rs r Hwt H; [ discriminate H | ].
  destruct (convertResponseSchema_trim fuel rs r H)
    as (schema & kept & dropped & Hbuild & Hlen & -> & Hsplit & Hdropped & Hend).
  destruct (buildSchema_inv _ _ _ Hbuild)
    as (raw & d & n & e & items & props & req & Hraw & Hschema & Hitems & Hprops).
  assert (Hnth : forall j v, nth_error kept j = Some v -> nth_error schema j = Some v).
  { intros j v Hj. rewrite Hsplit. rewrite nth_error_app1; [ exact Hj | ].
    apply nth_error_Some. congruence. }
  constructor.
  - destruct Hend as [Hend | [-> Hall]]; [ left; exact Hend | ].
    right. destruct strict.
    + exfalso. destruct (Hwt eq_refl) as [ps raw' Htype Hknown _ _].
      rewrite getProp_Obj, Htype in Hraw. injection Hraw as <-.
      rewrite Hschema in Hall. inversion Hall as [ | x l Hx _]. subst.
      unfold isNullish in Hx. rewrite (knownType_number raw' Hknown) in Hx.
      discriminate Hx.
    + split; [ reflexivity | ].
      rewrite app_nil_r in Hsplit. rewrite <- Hsplit. exact Hall.
  - intros s Hs. apply Hnth in Hs. rewrite Hschema in Hs. cbn in Hs. injection Hs as <-.
    destruct Hitems as [-> | (Ha & i & Hget & Hi)]; [ left; reflexivity | right ].
    apply (IH i); [ | exact Hi ].
    intros Hstrict. destruct (Hwt Hstrict) as [ps raw' Htype _ Harr _].
    rewrite getProp_Obj, Htype in Hraw. injection Hraw as <-.
    destruct (Harr Ha) as (i' & Hi' & Hw).
    rewrite getProp_Obj, Hi' in Hget. injection Hget as <-. exact Hw.
  - intros ps Hps. apply Hnth in Hps. rewrite Hschema in Hps. cbn in Hps.
    injection Hps as <-.
    destruct Hprops as [-> | (Ho & pv & entries & l & Hget & Hentries & Hl & ->)];
      [ left; reflexivity | right ].
    exists l. split; [ reflexivity | ].
    apply (entries_encoded strict (convertResponseSchema fuel) entries); [ | exact Hl ].
    intros kv c Hin Hc. apply (IH (snd kv)); [ | exact Hc ].
    intros Hstrict. destruct (Hwt Hstrict) as [ps raw' Htype _ _ Hobj].
    rewrite getProp_Obj, Htype in Hraw. injection Hraw as <-.
    destruct (Hobj Ho) as (ps' & Hps' & Hall).
    rewrite getProp_Obj, Hps' in Hget. injection Hget as <-.
    cbn [objectEntries] in Hentries. injection Hentries as <-.
    rewrite Forall_forall in Hall. exact (Hall kv Hin).
Qed.

(** *** The fuel of [convertResponseSchema] *)

Lemma bind_fuel {A B : Type} (c : result A) (k : A -> result B) :
  c <> OutOfFuel -> (forall a, c = Ok a -> k a <> OutOfFuel) -> bind c k <> OutOfFuel.
Proof.
  intros Hc Hk. destruct c as [a | m | ]; cbn [bind];
    [ apply Hk; reflexivity | discriminate | contradiction Hc; reflexivity ].
Qed.

Lemma mapResult_fuel {A B : Type} (f : A -> result B) (l : list A) :
  (forall x, In x l -> f x <> OutOfFuel) -> mapResult f l <> OutOfFuel.
Proof.
  induction l as [ | x l IH]; intros H; cbn [mapResult]; [ discriminate | ].
  apply bind_fuel; [ apply H; left; reflexivity | intros y _ ].
  apply bind_fuel; [ apply IH; intros z Hz; apply H; right; exact Hz | intros ys _ ].
  discriminate.
Qed.

(** With more fuel than the document is deep, [convertResponseSchema] returns
    or throws *)
Lemma convertResponseSchema_fuel (fuel : nat) :
  forall rs, (depth rs < fuel)%nat -> convertResponseSchema fuel rs <> OutOfFuel.
Proof.
  induction fuel as [ | fuel IH]; intros rs Hd; [ lia | ].
  cbn [convertResponseSchema].
  apply bind_fuel; [ | intros schema _; discriminate ].
  unfold buildSchema.
  apply bind_fuel; [ apply getProp_fuel | intros rawType Hraw ].
  destruct rawType as [ | | | | raw | | | ]; cbn [bind]; try discriminate.
  pose proof (getProp_Str_depth rs _ _ Hraw) as Hone.
  apply bind_fuel; [ apply getProp_fuel | intros d _ ].
  apply bind_fuel; [ apply getProp_fuel | intros n _ ].
  apply bind_fuel.
  { destruct (toLocaleLowerCase raw =? "string")%string; [ | discriminate ].
    apply bind_fuel; [ apply getProp_fuel | intros e _; discriminate ]. }
  intros e _.
  apply bind_fuel.
  { destruct (toLocaleLowerCase raw =? "array")%string; [ | discriminate ].
    apply bind_fuel; [ apply getProp_fuel | intros i Hi ].
    apply IH. destruct (getProp_depth rs _ _ Hi) as [-> | Hlt]; [ cbn [depth] | ]; lia. }
  intros items _.
  apply bind_fuel.
  { destruct (toLocaleLowerCase raw =? "object")%string; [ | discriminate ].
    apply bind_fuel; [ apply getProp_fuel | intros ps Hps ].
    apply bind_fuel; [ apply objectEntries_fuel | intros entries Hentries ].
    apply bind_fuel; [ | intros l _; discriminate ].
    apply mapResult_fuel. intros kv Hkv.
    apply bind_fuel; [ | intros c _; discriminate ].
    apply IH.
    destruct (objectEntries_depth ps entries kv Hentries Hkv) as [Hz | Hlt]; [ lia | ].
    destruct (getProp_depth rs _ _ Hps) as [-> | Hlt']; [ cbn [depth] in Hlt | ]; lia. }
  intros props _.
  apply bind_fuel; [ | intros req _; discriminate ].
  destruct (raw =? "object")%string; [ | discriminate ].
  apply bind_fuel; [ apply getProp_fuel | intros r _; discriminate ].
Qed.

Lemma bind_returns {A B : Type} (c : result A) (k : A -> result B) :
  (exists a, c = Ok a) -> (forall a, exists b, k a = Ok b) -> exists b, bind c k = Ok b.
Proof.
  intros (a & ->) Hk. cbn [bind]. apply Hk.
Qed.

(** A well-typed schema is converted: with more fuel than it is deep the
    call returns *)
Lemma convertResponseSchema_returns (fuel : nat) :
  forall rs, WellTyped rs -> (depth rs < fuel)%nat ->
             exists r, convertResponseSchema fuel rs = Ok r.
Proof.
  induction fuel as [ | fuel IH]; intros rs Hwt Hd; [ lia | ].
  destruct Hwt as [props raw Htype Hknown Harr Hobj].
  cbn [convertResponseSchema]. unfold buildSchema.
  rewrite !getProp_Obj, Htype. cbn [optValue bind].
  apply bind_returns; [ | intros schema; eexists; reflexivity ].
  apply bind_returns.
  { destruct (toLocaleLowerCase raw =? "string")%string; eexists; reflexivity. }
  intros e. apply bind_returns.
  { destruct (String.eqb_spec (toLocaleLowerCase raw) "array") as [Ha | _];
      [ | eexists; reflexivity ].
    destruct (Harr Ha) as (i & Hi & Hw). rewrite Hi. cbn [optValue].
    apply IH; [ exact Hw | ].
    destruct (lookup_In _ _ _ Hi) as (k' & Hin).
    pose proof (depth_property props (k', i) Hin) as Hlt. cbn [snd] in Hlt. lia. }
  intros items. apply bind_returns.
  { destruct (String.eqb_spec (toLocaleLowerCase raw) "object") as [Ho | _];
      [ | eexists; reflexivity ].
    destruct (Hobj Ho) as (ps & Hps & Hall). rewrite Hps.
    cbn [optValue bind objectEntries].
    apply bind_returns; [ | intros l; eexists; reflexivity ].
    apply mapResult_Ok. intros kv Hin. rewrite Forall_forall in Hall.
    apply bind_returns; [ | intros c; eexists; reflexivity ].
    apply IH; [ exact (Hall kv Hin) | ].
    pose proof (depth_property ps kv Hin) as H1.
    destruct (lookup_In _ _ _ Hps) as (k' & Hin').
    pose proof (depth_property props (k', Obj ps) Hin') as H2. cbn [snd] in H2. lia. }
  intros properties. apply bind_returns; [ | intros req; eexists; reflexivity ].
  destruct (raw =? "object")%string; eexists; reflexivity.
Qed.

End ConvertFacts.

(** ** The two document shapes *)

Module PromptShapes.
Import Auth Convert ConvertSpec ConvertFacts.










Section Payload.

Variable display : JSVal -> string.


End Payload.

End PromptShapes.


(** * The properties of the specification *)

Import Int32 Sha1 HashRel Sha1Block Sha1Stream HexFacts Auth Examples.

(** ** Hash engine *)

Lemma length_bytesOfString (s : string) :
  length (bytesOfString s) = String.length s.
Proof.
  unfold bytesOfString. rewrite length_map.
  induction s as [ | c s IH]; cbn [list_ascii_of_string length String.length];
    [ reflexivity | rewrite IH; reflexivity ].
Qed.

(** For every input shorter than 2^29 bytes the generator computes SHA-1:
    the digest bytes, the hexadecimal text of [getHash] up to letter case,
    and [calculateHash] exactly. *)
Theorem calculateHash_is_SHA1 (input : string) :
  Z.of_nat (String.length input) < 2 ^ 29 ->
  exists st,
    updateString input reset = Some st
    /\ digest st = Some (Sha1Spec.SHA1 (bytesOfString input))
    /\ option_map toLowerCase (getHashHex st)
       = Some (Sha1Spec.hex (Sha1Spec.SHA1 (bytesOfString input)))
    /\ calculateHash input = Ok (Sha1Spec.hex (Sha1Spec.SHA1 (bytesOfString input))).
Proof.
  intros Hlen.
  destruct (getHash_spec input) as (st & Hrun & Hd & Hh & Hc).
  rewrite SHA1_trunc_small in Hd, Hh, Hc by (rewrite length_bytesOfString; exact Hlen).
  exists st. split; [ exact Hrun | ]. split; [ exact Hd | ]. split; [ | exact Hc ].
  rewrite Hh. cbn [option_map]. f_equal.
  apply hexString_facts. apply digestOf_bytes.
Qed.

Lemma calculateHash_is_SHA1_abc :
  (Z.of_nat (String.length "abc") < 2 ^ 29)
  /\ exists st,
       updateString "abc" reset = Some st
       /\ digest st = Some (Sha1Spec.SHA1 (bytesOfString "abc"))
       /\ option_map toLowerCase (getHashHex st)
          = Some (Sha1Spec.hex (Sha1Spec.SHA1 (bytesOfString "abc")))
       /\ calculateHash "abc" = Ok (Sha1Spec.hex (Sha1Spec.SHA1 (bytesOfString "abc"))).
Proof.
  split; [ vm_compute; reflexivity | ].
  apply (calculateHash_is_SHA1 "abc"). vm_compute. reflexivity.
Defined.

(** The test vectors of the standard: the empty message, "abc", and a
    message of 112 bytes (two data blocks and a padding block). *)
Example SHA1_test_vectors :
  Sha1Spec.hex (Sha1Spec.SHA1 (bytesOfString EmptyString))
  = "da39a3ee5e6b4b0d3255bfef95601890afd80709"
  /\ Sha1Spec.hex (Sha1Spec.SHA1 (bytesOfString "abc"))
     = "a9993e364706816aba3e25717850c26c9cd0d89d"
  /\ Sha1Spec.hex (Sha1Spec.SHA1 (bytesOfString
       "abcdefghbcdefghicdefghijdefghijkefghijklfghijklmghijklmnhijklmnoijklmnopjklmnopqklmnopqrlmnopqrsmnopqrstnopqrstu"))
     = "a49b2446a02c645bf419f995b67091253a04a259".
Proof. vm_compute. repeat split; reflexivity. Qed.

Example calculateHash_test_vectors :
  calculateHash EmptyString = Ok "da39a3ee5e6b4b0d3255bfef95601890afd80709"
  /\ calculateHash "abc" = Ok "a9993e364706816aba3e25717850c26c9cd0d89d"
  /\ calculateHash
       "abcdefghbcdefghicdefghijdefghijkefghijklfghijklmghijklmnhijklmnoijklmnopjklmnopqklmnopqrlmnopqrsmnopqrstnopqrstu"
     = Ok "a49b2446a02c645bf419f995b67091253a04a259".
Proof. vm_compute. repeat split; reflexivity. Qed.

(** Whatever the generator has read, the last block it hashes carries the
    bit length modulo 2^32; from 2^29 bytes on this is not the standard's
    padding. *)
Lemma padWith_trunc_differs (msg : list Z) :
  Z.of_nat (length msg) = 2 ^ 29 ->
  Sha1Spec.padWith ((8 * Z.of_nat (length msg)) mod 2 ^ 32) msg <> Sha1Spec.pad msg.
Proof.
  intros Hlen Heq. unfold Sha1Spec.pad in Heq. rewrite Hlen in Heq.
  assert (H : nth (length msg + S (Sha1Spec.zeroCount (length msg)) + 3)
                (Sha1Spec.padWith ((8 * 2 ^ 29) mod 2 ^ 32) msg) 0
              = nth (length msg + S (Sha1Spec.zeroCount (length msg)) + 3)
                  (Sha1Spec.padWith (8 * 2 ^ 29) msg) 0)
    by (rewrite Heq; reflexivity).
  rewrite !nth_padWith in H.
  set (k := Sha1Spec.zeroCount (length msg)) in *.
  destruct (Nat.ltb_spec (length msg + S k + 3) (length msg)); [ lia | ].
  destruct (Nat.eqb_spec (length msg + S k + 3) (length msg)); [ lia | ].
  destruct (Nat.leb_spec (length msg + S k + 3) (length msg + k)); [ lia | ].
  replace (length msg + S k + 3 - length msg - S k)%nat with 3%nat in H by lia.
  vm_compute in H. discriminate H.
Qed.

(** The loop that appends the length, run on [bitLength = 2^32]: it writes
    eight zero bytes, because [>>>=] keeps 32 bits of [bitLength]; the 64-bit
    length field of the standard is 00 00 00 01 00 00 00 00. *)
Example lengthLoop_wraps :
  map (fun i => nth i (lengthLoop 8 63 (536870912 * 8) (repeat 0 64)) 0) (seq 56 8)
  = [0; 0; 0; 0; 0; 0; 0; 0]
  /\ Sha1Spec.bigEndian64 (8 * 536870912) = [0; 0; 0; 1; 0; 0; 0; 0].
Proof. vm_compute. split; reflexivity. Qed.

Lemma digest_of_2_29_bytes (data : list Z) :
  bytesAt data -> Z.of_nat (length data) = 2 ^ 29 ->
  exists st,
    update data None reset = Some st
    /\ digest st = Some (Sha1Spec.digestOf (Sha1Spec.hashPadded (Sha1Spec.padWith 0 data)))
    /\ Sha1Spec.padWith 0 data <> Sha1Spec.pad data.
Proof.
  intros Hbytes Hlen.
  destruct (update_inv data None (length data) reset [] eq_refl (Nat.le_refl _)
              Hbytes Inv_reset) as (st & Hrun & HInv).
  cbn [app] in HInv. rewrite firstn_all in HInv.
  exists st. split; [ exact Hrun | ].
  pose proof (padWith_trunc_differs data Hlen) as Hdiff.
  pose proof (digest_spec st data HInv) as Hd.
  unfold Sha1Spec.SHA1_trunc in Hd. rewrite Hlen in Hd, Hdiff.
  change ((8 * 2 ^ 29) mod 2 ^ 32) with 0 in Hd, Hdiff.
  split; assumption.
Qed.

(** C1 (failing input): after an [update] with 2^29 zero bytes, [digest()]
    returns the hash of the input padded with a length field of zero, which
    is not the padded message of the standard (whose length field is 2^32). *)
Theorem digest_length_field_wraps :
  exists st,
    update (repeat 0 (Z.to_nat (2 ^ 29))) None reset = Some st
    /\ digest st
       = Some (Sha1Spec.digestOf
                 (Sha1Spec.hashPadded (Sha1Spec.padWith 0 (repeat 0 (Z.to_nat (2 ^ 29))))))
    /\ Sha1Spec.padWith 0 (repeat 0 (Z.to_nat (2 ^ 29)))
       <> Sha1Spec.pad (repeat 0 (Z.to_nat (2 ^ 29))).
Proof.
  apply digest_of_2_29_bytes.
  - intros i. rewrite nth_repeat. unfold isByte. lia.
  - rewrite repeat_length. apply Z2Nat.id. apply Z.pow_nonneg. lia.
Qed.

(** The generator is incremental: after any sequence of [update] calls with
    strings, [digest()] is the digest of their concatenation. *)
Lemma digest_after_updates (chunks : list string) :
  exists st,
    updateStrings chunks reset = Some st
    /\ digest st = Some (Sha1Spec.SHA1_trunc (concat (map bytesOfString chunks))).
Proof.
  assert (H : forall st msg, Inv st msg ->
            exists st', updateStrings chunks st = Some st'
                        /\ Inv st' (msg ++ concat (map bytesOfString chunks))).
  { induction chunks as [ | c rest IH]; intros st msg HInv.
    - exists st. cbn [map concat]. rewrite app_nil_r. split; [ reflexivity | exact HInv ].
    - destruct (updateString_inv c st msg HInv) as (st1 & Hrun & HInv1).
      destruct (IH st1 _ HInv1) as (st2 & Hrun2 & HInv2).
      exists st2. cbn [updateStrings map concat]. rewrite Hrun, app_assoc.
      split; assumption. }
  destruct (H reset [] Inv_reset) as (st & Hrun & HInv).
  exists st. split; [ exact Hrun | ]. apply digest_spec. exact HInv.
Qed.

(** C8 (as amended): for every input, [getHash()] returns 40 uppercase
    hexadecimal characters, and [calculateHash], which lower-cases them,
    returns 40 lowercase hexadecimal characters. *)
Theorem calculateHash_lowercase_hex (input : string) :
  exists st h,
    updateString input reset = Some st
    /\ getHashHex st = Some h
    /\ String.length h = 40%nat
    /\ allChars isUpperHexChar h = true
    /\ calculateHash input = Ok (toLowerCase h)
    /\ String.length (toLowerCase h) = 40%nat
    /\ allChars isLowerHexChar (toLowerCase h) = true.
Proof.
  destruct (getHash_spec input) as (st & Hrun & Hd & Hh & Hc).
  set (bytes := Sha1Spec.SHA1_trunc (bytesOfString input)) in *.
  assert (Hb : Forall isByte bytes /\ length bytes = 20%nat)
    by (apply digestOf_bytes).
  destruct Hb as [Hb Hl].
  destruct (hexString_facts bytes Hb) as (F1 & F2 & F3 & F4).
  exists st, (hexString bytes).
  split; [ exact Hrun | ]. split; [ exact Hh | ].
  split; [ rewrite F2, Hl; reflexivity | ].
  split; [ exact F3 | ].
  split; [ rewrite F1; exact Hc | ].
  split; [ rewrite length_toLowerCase, F2, Hl; reflexivity | ].
  rewrite F1. exact F4.
Qed.

(** C8 (counterexample): the text [getHash()] returns for the empty input
    is not a lowercase hexadecimal string. *)
Lemma getHash_not_lowercase :
  exists st h,
    updateString EmptyString reset = Some st
    /\ getHashHex st = Some h
    /\ h = "DA39A3EE5E6B4B0D3255BFEF95601890AFD80709"
    /\ allChars isLowerHexChar h = false.
Proof.
  eexists. eexists. split; [ vm_compute; reflexivity | ].
  split; [ vm_compute; reflexivity | ].
  split; reflexivity.
Qed.

(** ** Token deriver *)

Lemma append_nil_r (s : string) : (s ++ EmptyString)%string = s.
Proof.
  induction s as [ | c s IH]; cbn [String.append]; [ reflexivity | ].
  rewrite IH. reflexivity.
Qed.

Lemma calculateHash_total (input : string) : exists h, calculateHash input = Ok h.
Proof.
  destruct (getHash_spec input) as (st & _ & _ & _ & Hc).
  eexists. exact Hc.
Qed.

Lemma normalizeUrl_nonEmpty (env : Env) (url origin : string) :
  normalizeUrl env url = Ok origin -> nonEmpty origin = true -> nonEmpty url = true.
Proof.
  intros Hn Ho. destruct url as [ | c url]; [ | reflexivity ].
  cbn in Hn. injection Hn as <-. discriminate Ho.
Qed.

(** C2: with a non-empty secret, normalized origin and label, and no array
    of parameters, the token is the label, a space, and the hash of the
    secret, a space and the origin. *)
Theorem createAuthHash_without_params (env : Env) (token hashName origin : string)
    (additionalParams : AdditionalParams) :
  normalizeUrl env (locationHref env) = Ok origin ->
  nonEmpty token = true -> nonEmpty origin = true -> nonEmpty hashName = true ->
  isArray additionalParams = false ->
  exists hash,
    calculateHash (token ++ " " ++ origin) = Ok hash
    /\ createAuthHash env token hashName additionalParams
       = Ok (Some (hashName ++ " " ++ hash)%string).
Proof.
  intros Hurl Htoken Horigin Hname Hparams.
  destruct (calculateHash_total (token ++ " " ++ origin)) as (hash & Hhash).
  exists hash. split; [ exact Hhash | ].
  unfold createAuthHash.
  rewrite (normalizeUrl_nonEmpty env _ origin Hurl Horigin), Htoken, Hname.
  cbn [andb]. rewrite Hurl. cbn [bind].
  assert (Hp : createAuthParams env origin token (orNull additionalParams) = Ok hash).
  { destruct additionalParams; [ | | discriminate Hparams ];
      cbn [orNull createAuthParams app join String.concat]; exact Hhash. }
  rewrite Hp. reflexivity.
Qed.

Lemma createAuthHash_without_params_example :
  normalizeUrl examplePage (locationHref examplePage) = Ok "https://example.com"
  /\ exists hash,
       calculateHash "S https://example.com" = Ok hash
       /\ createAuthHash examplePage "S" "SAPISIDHASH" Falsy
          = Ok (Some ("SAPISIDHASH " ++ hash)%string).
Proof.
  split; [ vm_compute; reflexivity | ].
  apply (createAuthHash_without_params examplePage "S" "SAPISIDHASH"
           "https://example.com" Falsy); vm_compute; reflexivity.
Defined.

(** C3: with an array of parameters, the token is the label, a space, the
    timestamp in seconds, an underscore and the hash of the joined values
    (when there are any), the timestamp, the secret and the origin; the
    concatenated keys follow after one more underscore exactly when the
    array is not empty. *)
Theorem createAuthHash_with_params (env : Env) (token hashName origin : string)
    (params : list AuthParam) :
  normalizeUrl env (locationHref env) = Ok origin ->
  nonEmpty token = true -> nonEmpty origin = true -> nonEmpty hashName = true ->
  let timestamp := numberToString (dateNow env / 1000) in
  let hashed :=
    match params with
    | [] => (timestamp ++ " " ++ token ++ " " ++ origin)%string
    | _ :: _ =>
        (join ":" (map value params) ++ " " ++ timestamp ++ " " ++ token ++ " " ++ origin)%string
    end in
  let keysSuffix :=
    match params with
    | [] => EmptyString
    | _ :: _ => ("_" ++ join EmptyString (map key params))%string
    end in
  exists hash,
    calculateHash hashed = Ok hash
    /\ createAuthHash env token hashName (ParamArray params)
       = Ok (Some (hashName ++ " " ++ timestamp ++ "_" ++ hash ++ keysSuffix)%string).
Proof.
  intros Hurl Htoken Horigin Hname timestamp hashed keysSuffix.
  destruct (calculateHash_total hashed) as (hash & Hhash).
  exists hash. split; [ exact Hhash | ].
  unfold createAuthHash.
  rewrite (normalizeUrl_nonEmpty env _ origin Hurl Horigin), Htoken, Hname.
  cbn [andb]. rewrite Hurl. cbn [bind orNull].
  unfold createAuthParams. fold timestamp.
  destruct params as [ | p ps].
  - cbn [map length Nat.eqb Nat.ltb Nat.leb app join String.concat].
    unfold hashed in Hhash. rewrite Hhash. cbn [bind String.concat].
    unfold keysSuffix. rewrite append_nil_r. reflexivity.
  - cbn [map length Nat.eqb Nat.ltb Nat.leb app].
    change (join " " [join ":" (value p :: map value ps); timestamp; token; origin])
      with hashed.
    rewrite Hhash. cbn [bind]. reflexivity.
Qed.

Lemma createAuthHash_with_params_example :
  normalizeUrl examplePage (locationHref examplePage) = Ok "https://example.com"
  /\ exists hash,
       calculateHash "v 1700000000 S https://example.com" = Ok hash
       /\ createAuthHash examplePage "S" "SAPISIDHASH" (ParamArray [mkParam "k" "v"])
          = Ok (Some ("SAPISIDHASH 1700000000_" ++ hash ++ "_k")%string).
Proof.
  split; [ vm_compute; reflexivity | ].
  apply (createAuthHash_with_params examplePage "S" "SAPISIDHASH"
           "https://example.com" [mkParam "k" "v"]); vm_compute; reflexivity.
Defined.

(** ** Credential source and request dispatcher *)

Import Keys KeysSpec KeysFacts.

(** C9: the keys [findApiKeys] returns are pairwise distinct, none of them
    is in the exclusion list, they are exactly the discovered keys that are
    not excluded, and they are listed in reverse order of first discovery. *)
Theorem findApiKeys_spec (scripts ignore : list string) :
  NoDup (findApiKeys scripts ignore)
  /\ (forall k, In k ignore -> ~ In k (findApiKeys scripts ignore))
  /\ (forall k, In k (findApiKeys scripts ignore)
                <-> In k (discovered scripts) /\ ~ In k ignore)
  /\ findApiKeys scripts ignore
     = rev (firstOccurrences (filter (notIgnored ignore) (discovered scripts))).
Proof.
  split.
  { rewrite findApiKeys_eq. apply NoDup_rev. apply NoDup_firstOccurrences. }
  split.
  { intros k Hk Hin. apply findApiKeys_In in Hin. tauto. }
  split.
  { intros k. apply findApiKeys_In. }
  apply findApiKeys_eq.
Qed.

Example findApiKeys_example :
  findApiKeys ["a = 'AIzaSyA1'; b = `AIzaSyB2`; c = 'AIzaSyA1'"; "d = 'AIzaSyC3'"] []
  = ["AIzaSyC3"; "AIzaSyB2"; "AIzaSyA1"]
  /\ findApiKeys ["a = 'AIzaSyA1'; b = `AIzaSyB2`; c = 'AIzaSyA1'"; "d = 'AIzaSyC3'"]
       ["AIzaSyC3"]
     = ["AIzaSyB2"; "AIzaSyA1"].
Proof. vm_compute. split; reflexivity. Qed.

(** C4: when the request a call sent with the key [X] fails and [X] is the
    last successful key, the callback discovers the pool again without [X],
    stores it in the cache and clears the last successful key; the call goes
    on at index 0 of the new pool when it is not empty, and at the next index
    of its old list otherwise: it sends the request with that key (or stops
    on the exception [setRequestHeader] throws for it), and it is rejected
    with the all-keys-failed error when the old list has no next key.  The
    other calls are left as they are. *)
Theorem refresh_when_last_successful_fails (w : World) (id keyIndex : nat)
    (keys : list string) (X : string) (response : Response) (scripts : list string) :
  nth_error (dispatches w) id = Some (Waiting keyIndex keys X) ->
  lastSuccessfulKey (variables w) = Some X ->
  failed response = true ->
  let pool := findApiKeys scripts [X] in
  let w' := step w (Answer id response scripts) in
  ~ In X pool
  /\ variables w' = {| cachedApiKeys := Some pool; lastSuccessfulKey := None |}
  /\ refreshes w' = refreshes w ++ [(id, pool)]
  /\ (forall other, other <> id ->
        nth_error (dispatches w') other = nth_error (dispatches w) other)
  /\ match pool with
     | first :: _ =>
         match setRequestHeader first with
         | None =>
             nth_error (dispatches w') id = Some (Waiting 0 pool first)
             /\ requests w' = requests w ++ [(id, first)]
         | Some exception =>
             nth_error (dispatches w') id = Some (Uncaught exception)
             /\ requests w' = requests w
         end
     | [] =>
         match nth_error keys (keyIndex + 1) with
         | Some next =>
             match setRequestHeader next with
             | None =>
                 nth_error (dispatches w') id = Some (Waiting (keyIndex + 1) keys next)
                 /\ requests w' = requests w ++ [(id, next)]
             | Some exception =>
                 nth_error (dispatches w') id = Some (Uncaught exception)
                 /\ requests w' = requests w
             end
         | None =>
             nth_error (dispatches w') id = Some (Settled allKeysFailed)
             /\ requests w' = requests w
         end
     end.
Proof.
  intros Hd Hlast Hfail pool w'.
  assert (Hid : (id < length (dispatches w))%nat)
    by (apply nth_error_Some; rewrite Hd; discriminate).
  apply failed_succeeded in Hfail.
  pose proof (onResponse_failure id response scripts w keyIndex keys X Hd Hfail) as Hw.
  cbv zeta in Hw. fold pool in Hw.
  rewrite (proj2 (isLastSuccessful_true (variables w) X) Hlast) in Hw.
  cbn [andb] in Hw. change (onResponse id response scripts w) with w' in Hw.
  split.
  { intros Hin. apply findApiKeys_In in Hin. apply (proj2 Hin). left. reflexivity. }
  rewrite Hw. cbn [variables refreshes dispatches requests].
  split; [ reflexivity | ]. split; [ reflexivity | ].
  split.
  { intros other Hne. apply nth_error_setDispatch_other; assumption. }
  rewrite nth_error_setDispatch_same by exact Hid.
  destruct pool as [ | first rest]; cbn [length Nat.ltb Nat.leb fst snd].
  - unfold attemptRequestWithKeys.
    destruct (nth_error keys (keyIndex + 1)) as [next | ]; [ | split; reflexivity ].
    destruct (setRequestHeader next); split; reflexivity.
  - unfold attemptRequestWithKeys. cbn [nth_error].
    destruct (setRequestHeader first); split; reflexivity.
Qed.

Lemma refresh_when_last_successful_fails_example :
  nth_error (dispatches waitingWorld) 1 = Some (Waiting 0 ["AIzaSyOLD"] "AIzaSyOLD")
  /\ failed denied = true
  /\ findApiKeys rotatedPage ["AIzaSyOLD"] = ["AIzaSyNEW"]
  /\ step waitingWorld (Answer 1 denied rotatedPage)
     = {| variables := {| cachedApiKeys := Some ["AIzaSyNEW"];
                          lastSuccessfulKey := None |};
          dispatches := [Settled (Resolved "[]"); Waiting 0 ["AIzaSyNEW"] "AIzaSyNEW"];
          requests := [(0%nat, "AIzaSyOLD"); (1%nat, "AIzaSyOLD"); (1%nat, "AIzaSyNEW")];
          refreshes := [(1%nat, ["AIzaSyNEW"])] |}
  /\ (let pool := findApiKeys rotatedPage ["AIzaSyOLD"] in
      let w' := step waitingWorld (Answer 1 denied rotatedPage) in
      ~ In "AIzaSyOLD" pool
      /\ variables w' = {| cachedApiKeys := Some pool; lastSuccessfulKey := None |}
      /\ refreshes w' = refreshes waitingWorld ++ [(1%nat, pool)]
      /\ (forall other, other <> 1%nat ->
            nth_error (dispatches w') other = nth_error (dispatches waitingWorld) other)
      /\ match pool with
         | first :: _ =>
             match setRequestHeader first with
             | None =>
                 nth_error (dispatches w') 1 = Some (Waiting 0 pool first)
                 /\ requests w' = requests waitingWorld ++ [(1%nat, first)]
             | Some exception =>
                 nth_error (dispatches w') 1 = Some (Uncaught exception)
                 /\ requests w' = requests waitingWorld
             end
         | [] =>
             match nth_error ["AIzaSyOLD"] (0 + 1) with
             | Some next =>
                 match setRequestHeader next with
                 | None =>
                     nth_error (dispatches w') 1
                     = Some (Waiting (0 + 1) ["AIzaSyOLD"] next)
                     /\ requests w' = requests waitingWorld ++ [(1%nat, next)]
                 | Some exception =>
                     nth_error (dispatches w') 1 = Some (Uncaught exception)
                     /\ requests w' = requests waitingWorld
                 end
             | None =>
                 nth_error (dispatches w') 1 = Some (Settled allKeysFailed)
                 /\ requests w' = requests waitingWorld
             end
         end).
Proof.
  split; [ reflexivity | ]. split; [ reflexivity | ].
  split; [ vm_compute; reflexivity | ]. split; [ vm_compute; reflexivity | ].
  exact (refresh_when_last_successful_fails waitingWorld 1 0 ["AIzaSyOLD"] "AIzaSyOLD"
           denied rotatedPage eq_refl eq_refl eq_refl).
Defined.

(** A key that is no header value stops the call with the exception of
    [setRequestHeader]: the promise is rejected with it when the first
    attempt throws, and stays pending when a later attempt throws. *)
Example key_with_a_wide_character :
  findApiKeys [wideKeyPage] [] = [("AIzaSy" ++ utf8Wide)%string]
  /\ dispatches (run pageLoad [Call None [wideKeyPage]]) = [RejectedWith "TypeError"]
  /\ dispatches (run pageLoad [Call None [wideKeyPage; "b = 'AIzaSyB'"];
                                Answer 0 denied []])
     = [Uncaught "TypeError"].
Proof. vm_compute. repeat split; reflexivity. Qed.

(** C10 (counterexample): two calls overlap.  The call 1, which starts with
    one key, refreshes the pool twice and sends three requests, because the
    call 2 succeeds in between and sets the last successful key again. *)
Lemma overlapping_calls_refresh_twice :
  initialKeys rotatedPage (run pageLoad [Call None firstPage; Answer 0 accepted firstPage])
  = ["AIzaSyOLD"]
  /\ refreshesBy 1 (run pageLoad overlap) = [["AIzaSyNEW"]; ["AIzaSyOLD"]]
  /\ requestsBy 1 (run pageLoad overlap) = ["AIzaSyOLD"; "AIzaSyNEW"; "AIzaSyOLD"]
  /\ nth_error (dispatches (run pageLoad overlap)) 1 = Some (Settled allKeysFailed)
  /\ ~ (length (refreshesBy 1 (run pageLoad overlap)) <= 1)%nat
  /\ ~ (length (requestsBy 1 (run pageLoad overlap))
        <= length ["AIzaSyOLD"] + length ["AIzaSyNEW"])%nat.
Proof.
  vm_compute. repeat (split; [ reflexivity | ]). split; intros H; lia.
Qed.

(** C10 (as amended): a call during which no other call succeeds refreshes
    the pool at most once and sends at most as many requests as the list it
    starts with and the refreshed pool have keys; once that many of its
    requests have been answered it has ended: resolved, rejected with the
    all-keys-failed error, or with the exception that [xhr.open] or
    [xhr.setRequestHeader] throws. *)
Theorem dispatch_terminates (history : list Event) (openError : option string)
    (scripts : list string) (events : list Event) :
  let w0 := run pageLoad history in
  let id := length (dispatches w0) in
  let w := run (step w0 (Call openError scripts)) events in
  let bound := (length (initialKeys scripts w0) + length (concat (refreshesBy id w)))%nat in
  noOtherSuccess id events ->
  (length (refreshesBy id w) <= 1)%nat
  /\ (length (requestsBy id w) <= bound)%nat
  /\ ((bound <= answersTo id events)%nat -> ended (nth_error (dispatches w) id)).
Proof.
  intros w0 id w bound Hno.
  assert (Hstart : Progress id (length (initialKeys scripts w0)) 0
                     (step w0 (Call openError scripts))).
  { apply Progress_start. apply logged_run. exact logged_pageLoad. }
  pose proof (Progress_run id _ events 0 _ Hstart Hno) as (d & Hd & Hone & Hbound & Hfly & Hend).
  fold w in Hd, Hone, Hbound, Hfly, Hend. fold bound in Hbound.
  split; [ exact Hone | ]. split; [ lia | ].
  intros Hanswers. rewrite Hd.
  destruct (inFlight d) eqn:Hf; [ | apply Hend; reflexivity ].
  destruct (Hfly eq_refl) as [Hcount _]. cbn [Nat.add] in Hcount. lia.
Qed.

Lemma dispatch_terminates_example :
  noOtherSuccess 1 alone
  /\ (let w := run (step (run pageLoad [Call None firstPage; Answer 0 accepted firstPage])
                      (Call None rotatedPage)) alone in
      requestsBy 1 w = ["AIzaSyOLD"; "AIzaSyNEW"]
      /\ refreshesBy 1 w = [["AIzaSyNEW"]]
      /\ nth_error (dispatches w) 1 = Some (Settled allKeysFailed))
  /\ (let w0 := run pageLoad [Call None firstPage; Answer 0 accepted firstPage] in
      let id := length (dispatches w0) in
      let w := run (step w0 (Call None rotatedPage)) alone in
      let bound := (length (initialKeys rotatedPage w0)
                    + length (concat (refreshesBy id w)))%nat in
      (length (refreshesBy id w) <= 1)%nat
      /\ (length (requestsBy id w) <= bound)%nat
      /\ ((bound <= answersTo id alone)%nat -> ended (nth_error (dispatches w) id))).
Proof.
  assert (H : noOtherSuccess 1 alone).
  { repeat constructor. }
  split; [ exact H | ]. split; [ vm_compute; repeat split; reflexivity | ].
  exact (dispatch_terminates [Call None firstPage; Answer 0 accepted firstPage] None
           rotatedPage alone H).
Defined.

(** ** Schema converter *)

Import Convert ConvertSpec ConvertFacts PromptShapes.

(** Whatever the document, when [convertResponseSchema] returns, its result
    is the array of eight entries it built, cut after the last non-null
    entry: the entries kept are a prefix (a null before a later non-null
    entry stays), the entries dropped are all null. *)
Lemma convertResponseSchema_prefix (fuel : nat) (rs r : JSVal) :
  convertResponseSchema fuel rs = Ok r ->
  EncodedSchema false r
  /\ exists fuel' schema kept dropped,
       fuel = S fuel'
       /\ buildSchema (convertResponseSchema fuel') rs = Ok schema
       /\ length schema = 8%nat
       /\ r = Arr kept
       /\ schema = kept ++ dropped
       /\ Forall isNullish dropped
       /\ (endsNonNull kept \/ Forall isNullish schema).
Proof.
  intros H. split.
  { apply (convertResponseSchema_encoded false fuel rs r); [ discriminate | exact H ]. }
  destruct fuel as [ | fuel]; [ discriminate H | ].
  destruct (convertResponseSchema_trim fuel rs r H)
    as (schema & kept & dropped & Hbuild & Hlen & Hr & Hsplit & Hdropped & Hend).
  exists fuel, schema, kept, dropped.
  repeat (split; [ assumption || reflexivity | ]).
  destruct Hend as [He | [_ Ha]]; [ left; exact He | right; exact Ha ].
Qed.

(** C5: for every structured-output schema (an object whose type is one of
    the six kinds, with its item and property schemas), [convertResponseSchema]
    returns the fixed-order array of eight entries cut after its last non-null
    entry: the entries kept are a prefix of the array built (a null before a
    later non-null entry stays), the entries dropped are all null, the result
    ends in a non-null entry, and the same holds for the encoded item and
    property schemas inside it. *)
Theorem convertResponseSchema_trims (fuel : nat) (rs : JSVal) :
  WellTyped rs -> (depth rs < fuel)%nat ->
  exists schema kept dropped,
    convertResponseSchema fuel rs = Ok (Arr kept)
    /\ buildSchema (convertResponseSchema (fuel - 1)) rs = Ok schema
    /\ length schema = 8%nat
    /\ schema = kept ++ dropped
    /\ Forall isNullish dropped
    /\ endsNonNull kept
    /\ EncodedSchema true (Arr kept).
Proof.
  intros Hwt Hd.
  destruct (convertResponseSchema_returns fuel rs Hwt Hd) as (r & Hr).
  pose proof (convertResponseSchema_encoded true fuel rs r (fun _ => Hwt) Hr) as Henc.
  destruct fuel as [ | fuel]; [ lia | ].
  destruct (convertResponseSchema_trim fuel rs r Hr)
    as (schema & kept & dropped & Hbuild & Hlen & -> & Hsplit & Hdropped & _).
  exists schema, kept, dropped.
  replace (S fuel - 1)%nat with fuel by lia.
  repeat (split; [ assumption | ]).
  split; [ | exact Henc ].
  inversion Henc as [l [He | [Hf _]] _ _]; [ exact He | discriminate Hf ].
Qed.

Ltac wellTyped raw :=
  apply (WellTypedSchema _ raw);
    [ reflexivity | reflexivity
    | let H := fresh in intros H; vm_compute in H; try discriminate H
    | let H := fresh in intros H; vm_compute in H; try discriminate H ].

Lemma exampleSchema_wellTyped : WellTyped exampleSchema.
Proof.
  wellTyped "OBJECT". eexists. split; [ reflexivity | ].
  constructor; [ | constructor; [ | constructor ] ]; cbn [snd].
  - wellTyped "string".
  - wellTyped "array". eexists. split; [ reflexivity | ]. wellTyped "integer".
Qed.

Lemma convertResponseSchema_trims_example :
  convertResponseSchema 5 exampleSchema = Ok (Arr exampleEncoded)
  /\ exists schema kept dropped,
       convertResponseSchema 5 exampleSchema = Ok (Arr kept)
       /\ buildSchema (convertResponseSchema (5 - 1)) exampleSchema = Ok schema
       /\ length schema = 8%nat
       /\ schema = kept ++ dropped
       /\ Forall isNullish dropped
       /\ endsNonNull kept
       /\ EncodedSchema true (Arr kept).
Proof.
  split; [ vm_compute; reflexivity | ].
  apply (convertResponseSchema_trims 5 exampleSchema).
  - exact exampleSchema_wellTyped.
  - vm_compute. lia.
Defined.

(** A schema whose type is none of the six and that sets nothing else has no
    non-null entry, and the loop leaves its eight entries in place. *)
Example convertResponseSchema_unknown_type :
  convertResponseSchema 1 (Obj [("type", Str "tuple")])
  = Ok (Arr [Undefined; Null; Null; Null; Null; Null; Null; Null]).
Proof. vm_compute. reflexivity. Qed.





(** The payload of the two example documents *)
Example convertPromptData_documents :
  convertPromptData (fun _ => EmptyString) 1 "chat" studioDocument
  = Ok (Arr [Arr [Null; Null; Null;
                  Arr [Num 1; Null; Str "models/gemini-2.0-flash"; Null; Null; Num 40;
                       Null; UNKNOWN_PAD; Str "text/plain"; Num 0; Null; Null; Null;
                       Num 1; Num 0; Null; Null; Num 0; Num 0];
                  titleArray "chat";
                  Null; Null; Null; Null; Null; Null; Null;
                  Arr [];
                  Arr [Arr [Arr [Str "Hello"; Null; Null; Null; Null; Null; Null; Null;
                                 Str "user"];
                            Arr [Str "Who are you?"; Null; Null; Null; Null; Null; Null;
                                 Null; Str "user"];
                            Arr [Str "A model."; Null; Null; Null; Null; Null; Null;
                                 Null; Str "model"]];
                       userInputField]]]).
Proof. vm_compute. reflexivity. Qed.

(** With an empty model in the request the file has to name no model: the
    request gives no model entry, the file that names [models/] gives one. *)
Example convertPromptData_empty_model :
  convertPromptData (fun _ => EmptyString) 1 "chat"
    (Obj [("model", Str EmptyString); ("generationConfig", Obj []); ("contents", Arr [])])
  <> convertPromptData (fun _ => EmptyString) 1 "chat"
       (Obj [("runSettings", Obj [("model", Str "models/")]);
             ("chunkedPrompt", Obj [("chunks", Arr [])])])
  /\ convertPromptData (fun _ => EmptyString) 1 "chat"
       (Obj [("model", Str EmptyString); ("generationConfig", Obj []); ("contents", Arr [])])
     = convertPromptData (fun _ => EmptyString) 1 "chat"
         (Obj [("runSettings", Obj []); ("chunkedPrompt", Obj [("chunks", Arr [])])]).
Proof.
  split; [ vm_compute; intros H; discriminate H | vm_compute; reflexivity ].
Qed.

(** C7 (failing input): a document that has none of [generationConfig],
    [runSettings] and [chunkedPrompt] is converted as an AI-Studio file: the
    result is a payload with the default configuration and no message list,
    not an absent value. *)
Theorem convertPromptData_without_markers (display : JSVal -> string) (fuel : nat)
    (promptName : string) (props : list (string * JSVal)) :
  lookup "generationConfig" props = None ->
  lookup "runSettings" props = None ->
  lookup "chunkedPrompt" props = None ->
  convertPromptData display fuel promptName (Obj props)
  = Ok (Arr [Arr [Null; Null; Null;
                  Arr [Null; Null; Null; Null; Null; Null; Null; UNKNOWN_PAD;
                       Str "text/plain"; Num 0; Null; Null; Null; Num 1; Num 0;
                       Null; Null; Num 0; Num 0];
                  titleArray promptName;
                  Null; Null; Null; Null; Null; Null; Null;
                  (if truthy (optValue (lookup "systemInstruction" props))
                   then Arr [optValue (lookup "systemInstruction" props)] else Arr []);
                  Arr [Undefined; userInputField]]]).
Proof.
  intros Hg Hr Hc. unfold convertPromptData. cbn [hasProperty]. rewrite Hg. cbn [bind].
  unfold convertPromptStudio. rewrite !getProp_Obj, Hr, Hc. reflexivity.
Qed.

Lemma convertPromptData_empty_document :
  convertPromptData (fun _ => EmptyString) 1 "chat" (Obj [])
  = Ok (Arr [Arr [Null; Null; Null;
                  Arr [Null; Null; Null; Null; Null; Null; Null; UNKNOWN_PAD;
                       Str "text/plain"; Num 0; Null; Null; Null; Num 1; Num 0;
                       Null; Null; Num 0; Num 0];
                  titleArray "chat";
                  Null; Null; Null; Null; Null; Null; Null;
                  Arr [];
                  Arr [Undefined; userInputField]]]).
Proof.
  apply (convertPromptData_without_markers (fun _ => EmptyString) 1 "chat" []); reflexivity.
Defined.

(** * Properties of the rest of the code *)

(** ** A hash generator used more than once *)

Module GeneratorFacts.
Import Int32 Sha1 HashRel Sha1Block Sha1Stream GeneratorUse.

Lemma Inv_resetState (st : HashState) : Inv (resetState st) [].
Proof.
  exists 0%nat. cbn [resetState bufferPos hashValues totalLength messageBuffer length].
  split; [ reflexivity | ]. split; [ lia | ].
  split; [ unfold Uregs; rewrite !nth_arraySet; reflexivity | ].
  split; [ intros i Hi; lia | ].
  split; [ reflexivity | ].
  intros i. destruct i; cbn; unfold isByte; lia.
Qed.

Lemma consumed_firstn (data : list Z) (dataLength : option nat) :
  exists len,
    len = match dataLength with Some (S n) => S n | _ => length data end
    /\ (match dataLength with Some n => (n <= length data)%nat | None => True end ->
        (len <= length data)%nat)
    /\ consumed (data, dataLength) = firstn len data.
Proof.
  unfold consumed. cbn [fst snd].
  destruct dataLength as [ [ | n] | ].
  - exists (length data). split; [ reflexivity | ]. split; [ lia | ].
    rewrite firstn_all. reflexivity.
  - exists (S n). split; [ reflexivity | ]. split; [ intros H; exact H | reflexivity ].
  - exists (length data). split; [ reflexivity | ]. split; [ lia | ].
    rewrite firstn_all. reflexivity.
Qed.

Lemma updateAll_inv (calls : list (list Z * option nat)) :
  Forall byteCall calls ->
  forall st msg, Inv st msg ->
    exists st', updateAll calls st = Some st'
                /\ Inv st' (msg ++ concat (map consumed calls)).
Proof.
  induction 1 as [ | [data dataLength] rest [Hbytes Hlen] _ IH]; intros st msg HInv.
  - exists st. cbn [map concat]. rewrite app_nil_r. split; [ reflexivity | exact HInv ].
  - cbn [fst snd] in Hbytes, Hlen.
    destruct (consumed_firstn data dataLength) as (len & Hdef & Hle & Hcons).
    destruct (update_inv data dataLength len st msg Hdef (Hle Hlen)
                (Forall_bytesAt _ Hbytes) HInv) as (st1 & Hrun & HInv1).
    destruct (IH st1 _ HInv1) as (st2 & Hrun2 & HInv2).
    exists st2. cbn [updateAll map concat]. rewrite Hrun, Hcons, app_assoc.
    split; assumption.
Qed.

Lemma digestAfter_spec (calls : list (list Z * option nat)) (st : HashState) :
  Forall byteCall calls -> Inv st [] ->
  digestAfter calls st = Some (Sha1Spec.SHA1_trunc (concat (map consumed calls))).
Proof.
  intros Hcalls HInv.
  destruct (updateAll_inv calls Hcalls st [] HInv) as (st' & Hrun & HInv').
  unfold digestAfter. rewrite Hrun. apply digest_spec. exact HInv'.
Qed.

Lemma digest_finalize (st st' : HashState) (d : list Z) :
  finalize st = Some st' -> digest st = Some d -> digestBytes (hashValues st') = d.
Proof.
  unfold digest. intros -> H. cbn [option_map] in H. injection H as H. exact H.
Qed.

Lemma padding_length (q pos k : nat) :
  (pos < 64)%nat ->
  k = (if (pos <? 56)%nat then 56 - pos else 64 - (pos - 56))%nat ->
  k = S (Sha1Spec.zeroCount (64 * q + pos)) /\ (0 < k <= 64)%nat.
Proof.
  intros Hpos ->. rewrite zeroCount_spec by exact Hpos.
  destruct (Nat.ltb_spec pos 56); lia.
Qed.

End GeneratorFacts.

Import Int32 Sha1 HashRel Sha1Block Sha1Stream GeneratorUse GeneratorFacts.

(** The digest does not depend on how the input is cut into [update] calls:
    after any sequence of calls on byte arrays, each with or without a
    length, [digest()] is the digest of the bytes the calls were given, in
    order.  A length of 0 stands for the whole array. *)
Theorem digest_of_pieces (calls : list (list Z * option nat)) :
  Forall byteCall calls ->
  digestAfter calls reset = Some (Sha1Spec.SHA1_trunc (concat (map consumed calls))).
Proof.
  intros Hcalls. apply digestAfter_spec; [ exact Hcalls | exact Inv_reset ].
Qed.

Lemma digest_of_pieces_example :
  Forall byteCall [([97; 98; 99; 100], Some 2%nat); ([99], Some 0%nat)]
  /\ digestAfter [([97; 98; 99; 100], Some 2%nat); ([99], Some 0%nat)] reset
     = Some (Sha1Spec.SHA1_trunc [97; 98; 99]).
Proof.
  assert (H : Forall byteCall [([97; 98; 99; 100], Some 2%nat); ([99], Some 0%nat)]).
  { repeat constructor; unfold isByte; cbn; lia. }
  split; [ exact H | ].
  exact (digest_of_pieces [([97; 98; 99; 100], Some 2%nat); ([99], Some 0%nat)] H).
Defined.

(** [reset()] makes a generator as good as new: whatever it has read, and
    also after [digest()], the calls that follow give the digest a fresh
    generator gives. *)
Theorem reset_restores_generator (st : HashState)
    (calls : list (list Z * option nat)) :
  Forall byteCall calls ->
  digestAfter calls (resetState st) = digestAfter calls reset.
Proof.
  intros Hcalls.
  rewrite (digestAfter_spec calls (resetState st) Hcalls (Inv_resetState st)).
  rewrite (digestAfter_spec calls reset Hcalls Inv_reset). reflexivity.
Qed.

Lemma reset_restores_generator_example :
  Forall byteCall [([97; 98; 99], None)]
  /\ digestAfter [([97; 98; 99], None)]
       (resetState {| hashValues := [1; 2; 3; 4; 5]; messageBuffer := [7; 7; 7];
                      bufferPos := 3; totalLength := 67 |})
     = digestAfter [([97; 98; 99], None)] reset.
Proof.
  assert (H : Forall byteCall [([97; 98; 99], None)]).
  { repeat constructor; unfold isByte; cbn; lia. }
  split; [ exact H | ].
  exact (reset_restores_generator _ [([97; 98; 99], None)] H).
Defined.

(** [digest()] is not a read-only call: it leaves the padding in the
    generator.  After it the buffer position is 56, the length counter has
    advanced by the bytes of the padding, and the hash values are those of
    the padded message. *)
Theorem digest_leaves_padding (st : HashState) (msg : list Z) :
  Inv st msg ->
  exists st',
    finalize st = Some st'
    /\ bufferPos st' = 56%nat
    /\ totalLength st'
       = Z.of_nat (length msg) + 1 + Z.of_nat (Sha1Spec.zeroCount (length msg))
    /\ digestBytes (hashValues st') = Sha1Spec.SHA1_trunc msg.
Proof.
  intros HInv.
  pose proof (digest_spec st msg HInv) as Hd.
  pose proof HInv as (q & Hlen & Hpos & Hregs & Hbuf & Htotal & Hbytes).
  set (k := (if (bufferPos st <? 56)%nat then 56 - bufferPos st
             else 64 - (bufferPos st - 56))%nat).
  destruct (padding_length q (bufferPos st) k Hpos eq_refl) as (Hk & Hk0 & Hk64).
  rewrite <- Hlen in Hk.
  assert (Hrun : exists st1, update padding (Some k) st = Some st1
                             /\ Inv st1 (msg ++ firstn k padding)).
  { apply (update_inv padding (Some k) k st msg).
    - destruct k; [ lia | reflexivity ].
    - rewrite length_padding. exact Hk64.
    - exact bytesAt_padding.
    - exact HInv. }
  destruct Hrun as (st1 & Hrun & (q1 & Hlen1 & Hpos1 & _ & _ & Htotal1 & _)).
  assert (Hl : length (msg ++ firstn k padding) = (length msg + k)%nat).
  { apply length_consumed. rewrite length_padding. exact Hk64. }
  rewrite Hl in Hlen1, Htotal1.
  assert (Hfin : finalize st
                 = Some {| hashValues :=
                             processBlock (hashValues st1)
                               (lengthLoop 8 63 (totalLength st * 8) (messageBuffer st1));
                           messageBuffer :=
                             lengthLoop 8 63 (totalLength st * 8) (messageBuffer st1);
                           bufferPos := bufferPos st1;
                           totalLength := totalLength st1 |}).
  { unfold finalize. revert Hrun. unfold k.
    destruct (bufferPos st <? 56)%nat; intros Hrun; rewrite Hrun; reflexivity. }
  eexists. split; [ exact Hfin | ].
  split.
  { cbn [bufferPos].
    assert (Hz : (k = 56 - bufferPos st \/ k = 120 - bufferPos st)%nat).
    { subst k. destruct (Nat.ltb_spec (bufferPos st) 56); lia. }
    lia. }
  split; [ cbn [totalLength]; rewrite Htotal1, Hk; lia | ].
  exact (digest_finalize st _ _ Hfin Hd).
Qed.

Lemma digest_leaves_padding_example :
  Inv reset []
  /\ exists st',
       finalize reset = Some st'
       /\ bufferPos st' = 56%nat
       /\ totalLength st'
          = Z.of_nat (length (@nil Z)) + 1 + Z.of_nat (Sha1Spec.zeroCount (length (@nil Z)))
       /\ digestBytes (hashValues st') = Sha1Spec.SHA1_trunc [].
Proof.
  split; [ exact Inv_reset | ].
  exact (digest_leaves_padding reset [] Inv_reset).
Defined.

(** On the empty input a second [getHash()] does not repeat the first. *)
Example getHash_twice :
  option_map hexString (digest reset) = Some "DA39A3EE5E6B4B0D3255BFEF95601890AFD80709"
  /\ match finalize reset with
     | Some st => getHashHex st <> getHashHex reset
     | None => False
     end.
Proof.
  split; [ vm_compute; reflexivity | ].
  vm_compute. intros H. discriminate H.
Qed.

(** ** Strings: [indexOf], [substring] and prefixes *)

Module TextFacts.
Import Auth Text HexFacts.

Lemma prefix_cons (p s : string) (c d : ascii) :
  String.prefix (String c p) (String d s) = Ascii.eqb c d && String.prefix p s.
Proof.
  cbn [String.prefix]. destruct (ascii_dec c d) as [-> | Hne].
  - rewrite Ascii.eqb_refl. reflexivity.
  - apply Ascii.eqb_neq in Hne. rewrite Hne. reflexivity.
Qed.

Lemma prefix_nil (s : string) : String.prefix EmptyString s = true.
Proof. destruct s; reflexivity. Qed.

Lemma prefix_app (p r : string) : String.prefix p (p ++ r) = true.
Proof.
  induction p as [ | c p IH]; [ apply prefix_nil | ].
  cbn [append]. rewrite prefix_cons, Ascii.eqb_refl, IH. reflexivity.
Qed.

Lemma prefix_split (p s : string) :
  String.prefix p s = true -> exists r, s = (p ++ r)%string.
Proof.
  revert s. induction p as [ | c p IH]; intros s H.
  - exists s. reflexivity.
  - destruct s as [ | d s]; [ discriminate H | ].
    rewrite prefix_cons in H. apply andb_true_iff in H as [Hc Hp].
    apply Ascii.eqb_eq in Hc as ->. destruct (IH s Hp) as (r & ->).
    exists r. reflexivity.
Qed.

Lemma substring_all (s : string) : String.substring 0 (String.length s) s = s.
Proof.
  induction s as [ | c s IH]; [ reflexivity | ].
  cbn [String.length String.substring]. rewrite IH. reflexivity.
Qed.

Lemma substring_skip (a b : string) (m : nat) :
  String.substring (String.length a) m (a ++ b) = String.substring 0 m b.
Proof.
  induction a as [ | c a IH]; [ reflexivity | ].
  cbn [String.length append String.substring]. exact IH.
Qed.

Lemma substring_take (a b : string) :
  String.substring 0 (String.length a) (a ++ b) = a.
Proof.
  induction a as [ | c a IH]; [ destruct b; reflexivity | ].
  cbn [String.length append String.substring]. rewrite IH. reflexivity.
Qed.

Lemma substringTo_app (a b : string) : substringTo (String.length a) (a ++ b) = a.
Proof. apply substring_take. Qed.

Lemma substringFrom_app (a b : string) : substringFrom (String.length a) (a ++ b) = b.
Proof.
  unfold substringFrom. rewrite substring_skip, length_append.
  replace (String.length a + String.length b - String.length a)%nat
    with (String.length b) by lia.
  apply substring_all.
Qed.

Lemma substringFrom_app' (a b : string) (n : nat) :
  n = String.length a -> substringFrom n (a ++ b) = b.
Proof. intros ->. apply substringFrom_app. Qed.

Lemma substringTo_app' (a b : string) (n : nat) :
  n = String.length a -> substringTo n (a ++ b) = a.
Proof. intros ->. apply substringTo_app. Qed.

Lemma append_nil (s : string) : (s ++ EmptyString)%string = s.
Proof. induction s as [ | c s IH]; [ reflexivity | cbn; rewrite IH; reflexivity ]. Qed.

(** [indexOf] for a needle that is not empty *)
Lemma indexOf_nil (c : ascii) (p : string) : indexOf (String c p) EmptyString = None.
Proof. reflexivity. Qed.

Lemma indexOf_cons (c d : ascii) (p s : string) :
  indexOf (String c p) (String d s)
  = if String.prefix (String c p) (String d s) then Some 0%nat
    else option_map S (indexOf (String c p) s).
Proof.
  unfold indexOf. cbn [String.index].
  destruct (String.prefix (String c p) (String d s)); [ reflexivity | ].
  destruct (String.index 0 (String c p) s); reflexivity.
Qed.

(** The needle starts with a character that [a] does not have *)
Lemma indexOf_skip (c : ascii) (p a s : string) :
  hasChar c a = false ->
  indexOf (String c p) (a ++ s)
  = option_map (fun i => (String.length a + i)%nat) (indexOf (String c p) s).
Proof.
  intros H. induction a as [ | d a IH].
  - cbn [append String.length]. destruct (indexOf (String c p) s); reflexivity.
  - cbn [hasChar] in H. apply orb_false_iff in H as [Hd Ha].
    cbn [append]. rewrite indexOf_cons, prefix_cons.
    rewrite Ascii.eqb_sym, Hd. cbn [andb]. rewrite (IH Ha).
    destruct (indexOf (String c p) s); reflexivity.
Qed.

Lemma indexOf_here (c : ascii) (p s : string) :
  indexOf (String c p) (String c p ++ s) = Some 0%nat.
Proof.
  cbn [append]. rewrite indexOf_cons.
  change (String c (p ++ s)) with (String c p ++ s)%string.
  rewrite prefix_app. reflexivity.
Qed.

Lemma indexOf_found (c : ascii) (p a s : string) :
  hasChar c a = false ->
  indexOf (String c p) (a ++ String c p ++ s) = Some (String.length a).
Proof.
  intros H. rewrite (indexOf_skip c p a _ H), indexOf_here.
  cbn [option_map]. f_equal. lia.
Qed.

Lemma indexOf_char_found (c : ascii) (a s : string) :
  hasChar c a = false ->
  indexOf (String c EmptyString) (a ++ String c s) = Some (String.length a).
Proof. exact (indexOf_found c EmptyString a s). Qed.

Lemma indexOf_char_none (c : ascii) (s : string) :
  indexOf (String c EmptyString) s = None <-> hasChar c s = false.
Proof.
  induction s as [ | d s IH]; [ split; reflexivity | ].
  rewrite indexOf_cons, prefix_cons, prefix_nil, andb_true_r. cbn [hasChar].
  rewrite (Ascii.eqb_sym d c).
  destruct (Ascii.eqb c d); cbn [orb].
  - split; discriminate.
  - rewrite <- IH. destruct (indexOf (String c EmptyString) s); cbn [option_map];
      split; congruence.
Qed.

Lemma indexOf_char_split (c : ascii) (s : string) (i : nat) :
  indexOf (String c EmptyString) s = Some i ->
  exists a b, s = (a ++ String c b)%string /\ String.length a = i /\ hasChar c a = false.
Proof.
  revert i. induction s as [ | d s IH]; intros i H; [ discriminate H | ].
  rewrite indexOf_cons, prefix_cons, prefix_nil, andb_true_r in H.
  destruct (Ascii.eqb c d) eqn:Hcd.
  - apply Ascii.eqb_eq in Hcd as <-. injection H as <-.
    exists EmptyString, s. repeat split.
  - destruct (indexOf (String c EmptyString) s) as [j | ]; [ | discriminate H ].
    injection H as <-. destruct (IH j eq_refl) as (a & b & -> & <- & Ha).
    exists (String d a), b. cbn [append String.length hasChar].
    rewrite Ascii.eqb_sym, Hcd, Ha. repeat split.
Qed.

Lemma hasChar_app (c : ascii) (a b : string) :
  hasChar c (a ++ b) = hasChar c a || hasChar c b.
Proof.
  induction a as [ | d a IH]; [ reflexivity | ].
  cbn [append hasChar]. rewrite IH, orb_assoc. reflexivity.
Qed.

Lemma hasChar_toLowerCase (c : ascii) (s : string) :
  lowerAscii c = c -> (forall d, lowerAscii d = c -> d = c) ->
  hasChar c (toLowerCase s) = hasChar c s.
Proof.
  intros Hc Hinj. induction s as [ | d s IH]; [ reflexivity | ].
  cbn [toLowerCase hasChar]. rewrite IH. f_equal.
  destruct (Ascii.eqb d c) eqn:E.
  - apply Ascii.eqb_eq in E as ->. rewrite Hc. apply Ascii.eqb_refl.
  - apply Ascii.eqb_neq. intros H. apply Hinj in H. subst d.
    rewrite Ascii.eqb_refl in E. discriminate E.
Qed.

Lemma beforeFirst_app (c : ascii) (a b : string) :
  hasChar c a = false ->
  beforeFirst (String c EmptyString) (a ++ b)
  = (a ++ beforeFirst (String c EmptyString) b)%string.
Proof.
  intros H. unfold beforeFirst. rewrite (indexOf_skip c EmptyString a b H).
  destruct (indexOf (String c EmptyString) b) as [i | ] eqn:E; cbn [option_map];
    [ | reflexivity ].
  destruct (indexOf_char_split c b i E) as (b1 & b2 & -> & <- & _).
  rewrite substringTo_app.
  rewrite <- append_assoc, <- length_append. apply substringTo_app.
Qed.

Lemma beforeFirst_none (c : ascii) (s : string) :
  hasChar c s = false -> beforeFirst (String c EmptyString) s = s.
Proof.
  intros H. unfold beforeFirst. apply indexOf_char_none in H. rewrite H. reflexivity.
Qed.

Lemma beforeFirst_head (c : ascii) (s : string) :
  beforeFirst (String c EmptyString) (String c s) = EmptyString.
Proof.
  unfold beforeFirst. rewrite indexOf_cons, prefix_cons, Ascii.eqb_refl, prefix_nil.
  reflexivity.
Qed.

Lemma hasChar_beforeFirst (c d : ascii) (s : string) :
  hasChar d s = false -> hasChar d (beforeFirst (String c EmptyString) s) = false.
Proof.
  intros H. unfold beforeFirst.
  destruct (indexOf (String c EmptyString) s) as [i | ] eqn:E; [ | exact H ].
  destruct (indexOf_char_split c s i E) as (a & b & -> & <- & _).
  rewrite substringTo_app. rewrite hasChar_app in H.
  apply orb_false_iff in H as [H _]. exact H.
Qed.

Lemma hasChar_beforeFirst_self (c : ascii) (s : string) :
  hasChar c (beforeFirst (String c EmptyString) s) = false.
Proof.
  unfold beforeFirst.
  destruct (indexOf (String c EmptyString) s) as [i | ] eqn:E.
  - destruct (indexOf_char_split c s i E) as (a & b & -> & <- & Ha).
    rewrite substringTo_app. exact Ha.
  - apply indexOf_char_none. exact E.
Qed.

Lemma toLowerCase_idem (s : string) : toLowerCase (toLowerCase s) = toLowerCase s.
Proof.
  induction s as [ | c s IH]; [ reflexivity | ].
  cbn [toLowerCase]. rewrite IH. f_equal.
  unfold lowerAscii at 1.
  destruct ((65 <=? N_of_ascii (lowerAscii c)) && (N_of_ascii (lowerAscii c) <=? 90))%N
    eqn:E; [ | reflexivity ].
  exfalso. revert E. unfold lowerAscii.
  destruct ((65 <=? N_of_ascii c) && (N_of_ascii c <=? 90))%N eqn:E1.
  - apply andb_true_iff in E1 as [H1 H2].
    apply N.leb_le in H1. apply N.leb_le in H2.
    rewrite N_ascii_embedding by lia.
    intros E. apply andb_true_iff in E as [_ H3]. apply N.leb_le in H3. lia.
  - intros E. rewrite E in E1. discriminate E1.
Qed.

End TextFacts.

(** ** [normalizeUrl] on absolute URLs *)

Module UrlFacts.
Import Auth Text UrlSpec TextFacts HexFacts.

Lemma hasChar_word (c : ascii) (s : string) :
  isWordOrDash c = false -> allChars isWordOrDash s = true -> hasChar c s = false.
Proof.
  intros Hc. unfold allChars. induction s as [ | d s IH]; [ reflexivity | ].
  cbn [list_ascii_of_string forallb hasChar]. intros H.
  apply andb_true_iff in H as [Hd Hs]. rewrite (IH Hs), orb_false_r.
  apply Ascii.eqb_neq. intros ->. rewrite Hc in Hd. discriminate Hd.
Qed.

Lemma lowerAscii_word (c : ascii) : isWordOrDash (lowerAscii c) = isWordOrDash c.
Proof. destruct c as [[] [] [] [] [] [] [] []]; reflexivity. Qed.

Lemma lowerAscii_fixes (c d : ascii) :
  isWordOrDash c = false -> lowerAscii d = c -> d = c.
Proof.
  intros Hc <-.
  destruct d as [[] [] [] [] [] [] [] []]; try reflexivity; discriminate Hc.
Qed.

Lemma lowerAscii_fixed (c : ascii) : isWordOrDash c = false -> lowerAscii c = c.
Proof. destruct c as [[] [] [] [] [] [] [] []]; intros H; try reflexivity; discriminate H. Qed.

Lemma hasChar_lower (c : ascii) (s : string) :
  isWordOrDash c = false -> hasChar c (toLowerCase s) = hasChar c s.
Proof.
  intros Hc. apply hasChar_toLowerCase.
  - apply lowerAscii_fixed. exact Hc.
  - intros d. apply lowerAscii_fixes. exact Hc.
Qed.

Lemma allChars_lower (s : string) :
  allChars isWordOrDash (toLowerCase s) = allChars isWordOrDash s.
Proof.
  unfold allChars. induction s as [ | c s IH]; [ reflexivity | ].
  cbn [toLowerCase list_ascii_of_string forallb]. rewrite lowerAscii_word, IH.
  reflexivity.
Qed.

Lemma nonEmpty_lower (s : string) : nonEmpty (toLowerCase s) = nonEmpty s.
Proof. destruct s; reflexivity. Qed.

Lemma hasScheme_app (s rest : string) :
  allChars isWordOrDash s = true -> hasScheme (s ++ "://" ++ rest) = true.
Proof.
  unfold allChars. induction s as [ | c s IH];
    [ intros _; exact (prefix_app "://" rest) | ].
  cbn [list_ascii_of_string forallb append hasScheme]. intros H.
  apply andb_true_iff in H as [Hc Hs]. rewrite Hc. exact (IH Hs).
Qed.

Lemma eqb_hasChar (c : ascii) (a b : string) :
  hasChar c a = true -> hasChar c b = false -> (a =? b)%string = false.
Proof.
  intros Ha Hb. apply String.eqb_neq. intros ->. rewrite Ha in Hb. discriminate Hb.
Qed.

Lemma slash_in_url (s rest : string) : hasChar "/" (s ++ "://" ++ rest) = true.
Proof. rewrite hasChar_app. cbn. apply orb_true_r. Qed.

Lemma app_same_length (a b c d : string) :
  (a ++ b)%string = (c ++ d)%string -> String.length a = String.length c -> a = c.
Proof.
  revert c. induction a as [ | x a IH]; intros [ | y c] H Hl; try discriminate Hl.
  - reflexivity.
  - cbn [append] in H. injection H as -> H. cbn [String.length] in Hl.
    rewrite (IH c H) by lia. reflexivity.
Qed.

Lemma not_blob (s rest : string) :
  isScheme s -> String.prefix "blob:" (s ++ "://" ++ rest) = false.
Proof.
  intros (_ & Hword & Hne).
  destruct (String.prefix "blob:" (s ++ "://" ++ rest)) eqn:E; [ | reflexivity ].
  exfalso. apply prefix_split in E as (t & E).
  assert (H1 : indexOf ":" (s ++ "://" ++ rest) = Some (String.length s)).
  { apply (indexOf_found ":" EmptyString s ("//" ++ rest)).
    apply hasChar_word; [ reflexivity | exact Hword ]. }
  assert (H2 : indexOf ":" ("blob:" ++ t) = Some 4%nat).
  { apply (indexOf_found ":" EmptyString "blob" t). reflexivity. }
  rewrite E in H1. rewrite H1 in H2. injection H2 as Hlen.
  apply Hne. apply (app_same_length s ("://" ++ rest) "blob" (":" ++ t)).
  - exact E.
  - exact Hlen.
Qed.

Lemma not_relative (s rest : string) :
  nonEmpty s = true -> allChars isWordOrDash s = true ->
  String.prefix "//" (s ++ rest) = false.
Proof.
  destruct s as [ | c s]; [ discriminate | ]. intros _ H.
  unfold allChars in H. cbn [list_ascii_of_string forallb] in H.
  apply andb_true_iff in H as [Hc _].
  cbn [append]. rewrite prefix_cons.
  destruct (Ascii.eqb "/" c) eqn:E; [ | reflexivity ].
  apply Ascii.eqb_eq in E as <-. discriminate Hc.
Qed.

(** What is left of the tail when the fragment and the query are cut *)
Lemma tail_cut (t : string) :
  isTail t ->
  beforeFirst "?" (beforeFirst "#" t) = EmptyString
  \/ exists r, beforeFirst "?" (beforeFirst "#" t) = String "/" r.
Proof.
  destruct t as [ | c t]; [ left; reflexivity | ].
  intros [-> | [-> | ->]].
  - right.
    change (String "/" t) with ("/" ++ t)%string.
    rewrite (beforeFirst_app "#" "/" t eq_refl).
    rewrite (beforeFirst_app "?" "/" _ eq_refl).
    eexists. reflexivity.
  - left.
    change (String "?" t) with ("?" ++ t)%string.
    rewrite (beforeFirst_app "#" "?" t eq_refl).
    apply (beforeFirst_head "?").
  - left. rewrite (beforeFirst_head "#"). reflexivity.
Qed.

Lemma host_cut (a t : string) :
  hasChar "/" a = false ->
  t = EmptyString \/ (exists r, t = String "/" r) ->
  match indexOf "/" (a ++ t) with
  | Some i => substringTo i (a ++ t)
  | None => (a ++ t)%string
  end = a.
Proof.
  intros Ha [-> | (r & ->)].
  - rewrite append_nil. apply indexOf_char_none in Ha. rewrite Ha. reflexivity.
  - rewrite (indexOf_char_found "/" a r Ha). apply substringTo_app.
Qed.

Lemma includes_nonEmpty (p : string) : includes validProtocols p = true -> nonEmpty p = true.
Proof. destruct p; [ discriminate | reflexivity ]. Qed.

(** The closed form of [normalizeUrl] on an absolute URL *)
Lemma normalizeUrl_absolute (env : Env) (s a t : string) :
  isScheme s -> isAuthority a -> isTail t ->
  normalizeUrl env (s ++ "://" ++ a ++ t)
  = if includes validProtocols (toLowerCase s)
    then Ok (toLowerCase s ++ "://" ++ hostAndPort (toLowerCase s) (toLowerCase a))%string
    else Throw ("Invalid protocol: " ++ toLowerCase s).
Proof.
  intros Hs (Ha1 & Ha2 & Ha3) Ht. pose proof Hs as (Hne & Hword & Hblob).
  unfold normalizeUrl.
  assert (E0 : nonEmpty (s ++ "://" ++ a ++ t) = true)
    by (destruct s; [ discriminate Hne | reflexivity ]).
  rewrite E0. cbn [negb].
  rewrite (eqb_hasChar "/" _ "about:blank" (slash_in_url s _) eq_refl).
  rewrite (eqb_hasChar "/" _ "about:srcdoc" (slash_in_url s _) eq_refl).
  cbn [orb]. rewrite (not_blob s (a ++ t) Hs).
  (* the fragment and the query *)
  assert (Hcut : beforeFirst "?" (beforeFirst "#" (s ++ "://" ++ a ++ t))
                 = (s ++ "://" ++ a ++ beforeFirst "?" (beforeFirst "#" t))%string).
  { rewrite <- !append_assoc.
    rewrite (beforeFirst_app "#" ((s ++ "://") ++ a) t).
    2:{ rewrite !hasChar_app, Ha3, (hasChar_word "#" s eq_refl Hword). reflexivity. }
    rewrite (beforeFirst_app "?" ((s ++ "://") ++ a) _).
    2:{ rewrite !hasChar_app, Ha2, (hasChar_word "?" s eq_refl Hword). reflexivity. }
    reflexivity. }
  rewrite Hcut. clear Hcut.
  set (t' := beforeFirst "?" (beforeFirst "#" t)).
  assert (Ht' : toLowerCase t' = EmptyString \/ exists r, toLowerCase t' = String "/" r).
  { destruct (tail_cut t Ht) as [E | (r & E)]; fold t' in E; rewrite E.
    - left. reflexivity.
    - right. eexists. reflexivity. }
  rewrite !toLowerCase_app.
  change (toLowerCase "://") with "://".
  set (p := toLowerCase s). set (la := toLowerCase a). set (lt := toLowerCase t') in *.
  assert (Hp1 : nonEmpty p = true) by (unfold p; rewrite nonEmpty_lower; exact Hne).
  assert (Hp2 : allChars isWordOrDash p = true)
    by (unfold p; rewrite allChars_lower; exact Hword).
  rewrite (not_relative p _ Hp1 Hp2).
  rewrite (hasScheme_app p _ Hp2). cbn [negb].
  rewrite (indexOf_found ":" "//" p (la ++ lt) (hasChar_word ":" p eq_refl Hp2)).
  rewrite substringTo_app. rewrite Hp1. cbn [negb].
  destruct (includes validProtocols p); cbn [negb]; [ | reflexivity ].
  rewrite <- (append_assoc p "://" (la ++ lt)).
  rewrite (substringFrom_app' (p ++ "://") (la ++ lt))
    by (rewrite length_append; reflexivity).
  rewrite (host_cut la lt);
    [ | unfold la; rewrite hasChar_lower by reflexivity; exact Ha1 | exact Ht' ].
  unfold hostAndPort.
  destruct (indexOf ":" la) as [i | ]; [ | reflexivity ].
  destruct ((p =? "http") && negb (substringFrom (i + 1) la =? "80")
            || (p =? "https") && negb (substringFrom (i + 1) la =? "443"))%string.
  - reflexivity.
  - rewrite append_nil. reflexivity.
Qed.

Lemma split_authority (rest : string) :
  exists a t, rest = (a ++ t)%string /\ isAuthority a /\ isTail t.
Proof.
  induction rest as [ | c rest (a & t & -> & (H1 & H2 & H3) & Ht)].
  - exists EmptyString, EmptyString. repeat split.
  - destruct (Ascii.eqb c "/") eqn:E1;
      [ apply Ascii.eqb_eq in E1 as ->; exists EmptyString, (String "/" (a ++ t));
        repeat split; left; reflexivity | ].
    destruct (Ascii.eqb c "?") eqn:E2;
      [ apply Ascii.eqb_eq in E2 as ->; exists EmptyString, (String "?" (a ++ t));
        repeat split; right; left; reflexivity | ].
    destruct (Ascii.eqb c "#") eqn:E3;
      [ apply Ascii.eqb_eq in E3 as ->; exists EmptyString, (String "#" (a ++ t));
        repeat split; right; right; reflexivity | ].
    exists (String c a), t. split; [ reflexivity | ]. split; [ | exact Ht ].
    unfold isAuthority. cbn [hasChar]. rewrite E1, E2, E3, H1, H2, H3. repeat split.
Qed.

(** Host and port of a lower-case authority: lower case, no slash, question
    mark or number sign, and a fixed point of [hostAndPort] *)
Lemma hostAndPort_facts (p la : string) :
  toLowerCase la = la ->
  toLowerCase (hostAndPort p la) = hostAndPort p la
  /\ (forall c, c <> ":"%char -> hasChar c la = false ->
                hasChar c (hostAndPort p la) = false)
  /\ hostAndPort p (hostAndPort p la) = hostAndPort p la.
Proof.
  intros Hl.
  destruct (indexOf ":" la) as [i | ] eqn:Hi.
  - destruct (indexOf_char_split ":" la i Hi) as (x & y & Hla & Hlen & Hx).
    assert (Ex : substringTo i la = x) by (rewrite Hla, <- Hlen; apply substringTo_app).
    assert (Ey : substringFrom (i + 1) la = y).
    { rewrite Hla.
      change (x ++ String ":" y)%string with (x ++ (":" ++ y))%string.
      rewrite <- append_assoc. apply substringFrom_app'.
      rewrite length_append, Hlen. reflexivity. }
    assert (Hlow : toLowerCase x = x /\ toLowerCase y = y).
    { rewrite Hla in Hl.
      change (x ++ String ":" y)%string with (x ++ (":" ++ y))%string in Hl.
      rewrite !toLowerCase_app in Hl. change (toLowerCase ":") with ":" in Hl.
      assert (Hxx : toLowerCase x = x).
      { apply (app_same_length _ _ _ _ Hl). apply length_toLowerCase. }
      split; [ exact Hxx | ].
      rewrite Hxx in Hl. clear - Hl.
      induction x as [ | c x IH]; cbn [append] in Hl;
        [ injection Hl as Hl; exact Hl | injection Hl as Hl; exact (IH Hl) ]. }
    destruct Hlow as [Hlx Hly].
    destruct ((p =? "http") && negb (y =? "80") || (p =? "https") && negb (y =? "443"))%string
      eqn:Hcond.
    + assert (E : hostAndPort p la = la).
      { unfold hostAndPort. rewrite Hi, Ex, Ey, Hcond. symmetry. exact Hla. }
      rewrite !E. split; [ exact Hl | ]. split; [ intros c _ H; exact H | reflexivity ].
    + assert (E : hostAndPort p la = x).
      { unfold hostAndPort. rewrite Hi, Ex, Ey, Hcond. reflexivity. }
      rewrite !E. split; [ exact Hlx | ]. split.
      * intros c _ H. rewrite Hla, hasChar_app in H.
        apply orb_false_iff in H as [H _]. exact H.
      * unfold hostAndPort. apply indexOf_char_none in Hx. rewrite Hx. reflexivity.
  - assert (E : hostAndPort p la = la) by (unfold hostAndPort; rewrite Hi; reflexivity).
    rewrite !E. split; [ exact Hl | ]. split; [ intros c _ H; exact H | reflexivity ].
Qed.

Lemma listed_scheme (p : string) :
  includes validProtocols p = true -> isScheme p /\ toLowerCase p = p.
Proof.
  unfold includes, validProtocols. cbn [existsb]. intros H.
  repeat (apply orb_true_iff in H as [H | H];
          [ apply String.eqb_eq in H; subst p;
            split; [ split; [ reflexivity | split; [ reflexivity | discriminate ] ]
                   | reflexivity ] | ]).
  discriminate H.
Qed.

End UrlFacts.

Import Auth Text UrlSpec TextFacts HexFacts UrlFacts.



(** The path, the query and the fragment of an absolute URL do not count:
    the URL is normalized as the URL without them is. *)
Theorem normalizeUrl_ignores_path (env : Env) (scheme authority tail : string) :
  isScheme scheme -> isAuthority authority -> isTail tail ->
  normalizeUrl env (scheme ++ "://" ++ authority ++ tail)
  = normalizeUrl env (scheme ++ "://" ++ authority).
Proof.
  intros Hs Ha Ht.
  rewrite (normalizeUrl_absolute env scheme authority tail Hs Ha Ht).
  pose proof (normalizeUrl_absolute env scheme authority EmptyString Hs Ha I) as E.
  rewrite append_nil in E. rewrite E. reflexivity.
Qed.

Lemma normalizeUrl_ignores_path_example :
  isScheme "https" /\ isAuthority "Example.com:8443" /\ isTail "/app?tab=1#top"
  /\ normalizeUrl examplePage ("https" ++ "://" ++ "Example.com:8443" ++ "/app?tab=1#top")
     = normalizeUrl examplePage ("https" ++ "://" ++ "Example.com:8443").
Proof.
  assert (Hs : isScheme "https")
    by (split; [ reflexivity | split; [ reflexivity | discriminate ] ]).
  assert (Ha : isAuthority "Example.com:8443") by (repeat split).
  assert (Ht : isTail "/app?tab=1#top") by (left; reflexivity).
  split; [ exact Hs | ]. split; [ exact Ha | ]. split; [ exact Ht | ].
  exact (normalizeUrl_ignores_path examplePage "https" "Example.com:8443"
           "/app?tab=1#top" Hs Ha Ht).
Defined.

(** [normalizeUrl] is idempotent on absolute URLs: what it returns for one
    is an absolute URL that it returns unchanged. *)
Theorem normalizeUrl_idempotent (env : Env) (scheme rest origin : string) :
  isScheme scheme ->
  normalizeUrl env (scheme ++ "://" ++ rest) = Ok origin ->
  normalizeUrl env origin = Ok origin.
Proof.
  intros Hs H. destruct (split_authority rest) as (a & t & -> & Ha & Ht).
  rewrite (normalizeUrl_absolute env scheme a t Hs Ha Ht) in H.
  destruct (includes validProtocols (toLowerCase scheme)) eqn:Hin; [ | discriminate H ].
  injection H as <-.
  set (p := toLowerCase scheme) in *. set (la := toLowerCase a).
  destruct (listed_scheme p Hin) as [Hp Hlp].
  destruct (hostAndPort_facts p la (toLowerCase_idem a)) as (Hlow & Hchars & Hfix).
  destruct Ha as (Ha1 & Ha2 & Ha3).
  assert (Hh : isAuthority (hostAndPort p la)).
  { repeat split; apply Hchars; try discriminate; unfold la;
      rewrite hasChar_lower by reflexivity; assumption. }
  pose proof (normalizeUrl_absolute env p (hostAndPort p la) EmptyString Hp Hh I) as E.
  rewrite append_nil in E. rewrite Hlp, Hin, Hlow, Hfix in E. exact E.
Qed.

Lemma normalizeUrl_idempotent_example :
  isScheme "HTTP"
  /\ normalizeUrl examplePage ("HTTP" ++ "://" ++ "Example.com:80/a") = Ok "http://example.com"
  /\ normalizeUrl examplePage "http://example.com" = Ok "http://example.com".
Proof.
  assert (Hs : isScheme "HTTP")
    by (split; [ reflexivity | split; [ reflexivity | discriminate ] ]).
  assert (H : normalizeUrl examplePage ("HTTP" ++ "://" ++ "Example.com:80/a")
              = Ok "http://example.com") by (vm_compute; reflexivity).
  split; [ exact Hs | ]. split; [ exact H | ].
  exact (normalizeUrl_idempotent examplePage "HTTP" "Example.com:80/a"
           "http://example.com" Hs H).
Defined.



(** ** Keys and calls *)

Module KeyShapeFacts.
Import Auth Keys KeysSpec KeysFacts KeyShape HexFacts TextFacts.

Lemma keyRun_chars (s : string) :
  allChars isKeyChar (fst (keyRun s)) = true.
Proof.
  unfold allChars. induction s as [ | c rest IH]; [ reflexivity | ].
  cbn [keyRun].
  destruct (isQuote c) eqn:Hq; cbn [orb]; [ reflexivity | ].
  destruct (startsWithSpace (String c rest)) eqn:Hs; [ reflexivity | ].
  destruct (keyRun rest) as [run after]. cbn [fst list_ascii_of_string forallb] in *.
  rewrite IH, andb_true_r. unfold isKeyChar. rewrite Hq. cbn [negb andb].
  unfold startsWithSpace in Hs.
  apply orb_false_iff in Hs as [Hs _]. rewrite Hs. reflexivity.
Qed.

Lemma stripQuotes_plain (s : string) :
  allChars isKeyChar s = true -> stripQuotes s = s.
Proof.
  unfold allChars. induction s as [ | c s IH]; [ reflexivity | ].
  cbn [list_ascii_of_string forallb stripQuotes]. intros H.
  apply andb_true_iff in H as [Hc Hs]. unfold isKeyChar in Hc.
  apply andb_true_iff in Hc as [Hq _]. apply negb_true_iff in Hq.
  rewrite Hq, (IH Hs). reflexivity.
Qed.

Lemma stripQuotes_app (a b : string) :
  stripQuotes (a ++ b) = (stripQuotes a ++ stripQuotes b)%string.
Proof.
  induction a as [ | c a IH]; [ reflexivity | ].
  cbn [append stripQuotes]. destruct (isQuote c); rewrite IH; reflexivity.
Qed.

Lemma matchAt_shape (s m : string) :
  matchAt s = Some m ->
  exists run, stripQuotes m = ("AIzaSy" ++ run)%string /\ allChars isKeyChar run = true.
Proof.
  unfold matchAt. destruct s as [ | q rest]; [ discriminate | ].
  destruct (isQuote q && String.prefix "AIzaSy" rest) eqn:Hq; [ | discriminate ].
  apply andb_true_iff in Hq as [Hq _].
  pose proof (keyRun_chars (substringFrom 6 rest)) as Hrun.
  destruct (keyRun (substringFrom 6 rest)) as [run after]. cbn [fst] in Hrun.
  destruct after as [ | q' after]; [ discriminate | ].
  destruct (isQuote q') eqn:Hq'; [ | discriminate ].
  intros H. injection H as <-. exists run. split; [ | exact Hrun ].
  change (stripQuotes (String q EmptyString ++ "AIzaSy" ++ run ++ String q' EmptyString)
          = ("AIzaSy" ++ run)%string).
  rewrite !stripQuotes_app. cbn [stripQuotes]. rewrite Hq, Hq'.
  rewrite (stripQuotes_plain run Hrun).
  change (stripQuotes "AIzaSy") with "AIzaSy".
  cbn [append]. rewrite append_nil. reflexivity.
Qed.

Lemma matchAll_shape (src : string) :
  forall skip m, In m (matchAll skip src) -> exists s, matchAt s = Some m.
Proof.
  induction src as [ | c rest IH]; intros skip m Hin; [ contradiction | ].
  cbn [matchAll] in Hin. destruct skip as [ | k]; [ | exact (IH k m Hin) ].
  destruct (matchAt (String c rest)) as [m' | ] eqn:E.
  - destruct Hin as [<- | Hin]; [ exists (String c rest); exact E | exact (IH _ m Hin) ].
  - exact (IH 0%nat m Hin).
Qed.

Lemma idle_step (w : World) (e : Event) :
  cachedApiKeys (variables w) = Some [] -> idle w ->
  let w' := step w e in
  cachedApiKeys (variables w') = Some [] /\ idle w'
  /\ requests w' = requests w
  /\ exists added,
       dispatches w' = dispatches w ++ added
       /\ Forall (fun d => d = Thrown "No API keys found") added.
Proof.
  intros Hc Hidle. destruct e as [openError scripts | id response scripts]; cbn [step].
  - unfold sendMakerSuiteRequest, cachedOrFound. rewrite Hc. cbn [length Nat.eqb].
    cbn [variables cachedApiKeys dispatches requests].
    split; [ reflexivity | ].
    split; [ apply Forall_app; split; [ exact Hidle | repeat constructor ] | ].
    split; [ reflexivity | ].
    exists [Thrown "No API keys found"]. split; [ reflexivity | repeat constructor ].
  - rewrite onResponse_idle.
    + split; [ exact Hc | ]. split; [ exact Hidle | ]. split; [ reflexivity | ].
      exists []. split; [ symmetry; apply app_nil_r | constructor ].
    + intros d Hd. apply nth_error_In in Hd.
      exact (proj1 (Forall_forall _ _) Hidle d Hd).
Qed.

Lemma discovered_shape (scripts : list string) (k : string) :
  In k (discovered scripts) ->
  exists run, k = ("AIzaSy" ++ run)%string /\ allChars isKeyChar run = true.
Proof.
  intros Hin. unfold discovered in Hin. apply in_flat_map in Hin as (src & _ & Hin).
  apply in_map_iff in Hin as (m & <- & Hm).
  destruct (matchAll_shape src 0 m Hm) as (s & Hs).
  exact (matchAt_shape s m Hs).
Qed.

Lemma findApiKeys_distinct (scripts ignore : list string) :
  NoDup (findApiKeys scripts ignore)
  /\ Forall (fun k => nonEmpty k = true) (findApiKeys scripts ignore).
Proof.
  split.
  - rewrite findApiKeys_eq. apply NoDup_rev. apply NoDup_firstOccurrences.
  - apply Forall_forall. intros k Hin. apply findApiKeys_In in Hin as [Hin _].
    destruct (discovered_shape scripts k Hin) as (run & -> & _). reflexivity.
Qed.

Lemma distinctCache_step (w : World) (e : Event) :
  distinctCache w -> distinctCache (step w e).
Proof.
  unfold distinctCache. intros H.
  destruct e as [openError scripts | id response scripts]; cbn [step].
  - unfold sendMakerSuiteRequest.
    assert (Hk : NoDup (cachedOrFound scripts (variables w))
                 /\ Forall (fun k => nonEmpty k = true)
                      (cachedOrFound scripts (variables w))).
    { unfold cachedOrFound. destruct (cachedApiKeys (variables w));
        [ exact H | apply findApiKeys_distinct ]. }
    destruct (length (cachedOrFound scripts (variables w)) =? 0)%nat;
      [ exact Hk | ].
    destruct (afterAttempt _ _ _ _ _ _) as [d sent]. exact Hk.
  - unfold onResponse.
    destruct (nth_error (dispatches w) id) as [[keyIndex keys currentKey | | | | ] | ];
      try exact H.
    destruct (succeeded response); [ exact H | ].
    unfold onFailure. destruct (isLastSuccessful (variables w) currentKey).
    + destruct (0 <? length (findApiKeys scripts [currentKey]))%nat;
        destruct (afterAttempt _ _ _ _ _ _) as [d sent];
        cbn [variables cachedApiKeys]; apply findApiKeys_distinct.
    + destruct (afterAttempt _ _ _ _ _ _) as [d sent]. exact H.
Qed.

Lemma distinctCache_run (events : list Event) (w : World) :
  distinctCache w -> distinctCache (run w events).
Proof.
  revert w. induction events as [ | e events IH]; intros w H; [ exact H | ].
  cbn [run fold_left]. apply IH. apply distinctCache_step. exact H.
Qed.

Lemma filter_absent (k : string) (keys : list string) :
  ~ In k keys -> filter (fun key => negb (String.eqb key k)) keys = keys.
Proof.
  induction keys as [ | x l IH]; intros H; [ reflexivity | ].
  cbn [filter]. destruct (String.eqb_spec x k) as [-> | Hne]; cbn [negb].
  - exfalso. apply H. left. reflexivity.
  - rewrite IH; [ reflexivity | ]. intros Hin. apply H. right. exact Hin.
Qed.

Lemma filter_other_length (k : string) (keys : list string) :
  NoDup keys -> In k keys ->
  S (length (filter (fun key => negb (String.eqb key k)) keys)) = length keys.
Proof.
  induction 1 as [ | x l Hx Hl IH]; intros Hin; [ contradiction | ].
  cbn [filter length]. destruct (String.eqb_spec x k) as [-> | Hne]; cbn [negb].
  - rewrite (filter_absent k l Hx). reflexivity.
  - cbn [length]. f_equal. apply IH. destruct Hin as [E | Hin];
      [ contradiction | exact Hin ].
Qed.

Lemma keysToTry_facts (keys : list string) (last : option string) :
  NoDup keys ->
  NoDup (keysToTry keys last)
  /\ length (keysToTry keys last) = length keys
  /\ forall k, In k (keysToTry keys last) <-> In k keys.
Proof.
  intros Hnd. unfold keysToTry. destruct last as [k | ];
    [ | split; [ exact Hnd | split; [ reflexivity | reflexivity ] ] ].
  destruct (nonEmpty k && includes keys k) eqn:E;
    [ | split; [ exact Hnd | split; [ reflexivity | reflexivity ] ] ].
  apply andb_true_iff in E as [_ Hin]. apply includes_In in Hin.
  split; [ | split ].
  - constructor; [ | apply NoDup_filter; exact Hnd ].
    rewrite filter_In. intros [_ H]. rewrite String.eqb_refl in H. discriminate H.
  - cbn [length]. apply filter_other_length; assumption.
  - intros x. cbn [In]. rewrite filter_In. split.
    + intros [<- | [H _]]; assumption.
    + intros H. destruct (String.eqb_spec x k) as [-> | Hne].
      * left. reflexivity.
      * right. split; [ exact H | reflexivity ].
Qed.

End KeyShapeFacts.

Import Keys KeysSpec KeysFacts KeyShape KeyShapeFacts.

(** Every key [findApiKeys] returns is [AIzaSy] followed by characters that
    are neither quotes nor ASCII white space; no key is empty. *)
Theorem findApiKeys_key_shape (scripts ignore : list string) (k : string) :
  In k (findApiKeys scripts ignore) ->
  exists run, k = ("AIzaSy" ++ run)%string /\ allChars isKeyChar run = true.
Proof.
  intros Hin. apply findApiKeys_In in Hin as [Hin _].
  exact (discovered_shape scripts k Hin).
Qed.

Lemma findApiKeys_key_shape_example :
  In "AIzaSyB2" (findApiKeys ["a = 'AIzaSyA1'; b = `AIzaSyB2`"] ["AIzaSyA1"])
  /\ exists run, "AIzaSyB2" = ("AIzaSy" ++ run)%string /\ allChars isKeyChar run = true.
Proof.
  assert (H : In "AIzaSyB2" (findApiKeys ["a = 'AIzaSyA1'; b = `AIzaSyB2`"] ["AIzaSyA1"]))
    by (vm_compute; left; reflexivity).
  split; [ exact H | ].
  exact (findApiKeys_key_shape ["a = 'AIzaSyA1'; b = `AIzaSyB2`"] ["AIzaSyA1"]
           "AIzaSyB2" H).
Defined.

(** Once a refresh has left the cache empty and no request is in flight, the
    page never sends a request again: every later call throws [No API keys
    found], whatever keys the scripts of the page then hold. *)
Theorem emptied_cache_stays_empty (w : World) (events : list Event) :
  cachedApiKeys (variables w) = Some [] -> idle w ->
  let w' := run w events in
  cachedApiKeys (variables w') = Some []
  /\ requests w' = requests w
  /\ exists added,
       dispatches w' = dispatches w ++ added
       /\ Forall (fun d => d = Thrown "No API keys found") added.
Proof.
  revert w. induction events as [ | e events IH]; intros w Hc Hidle.
  - cbn [run fold_left]. split; [ exact Hc | ]. split; [ reflexivity | ].
    exists []. split; [ symmetry; apply app_nil_r | constructor ].
  - cbn [run fold_left].
    destruct (idle_step w e Hc Hidle) as (Hc1 & Hidle1 & Hreq1 & added1 & Hd1 & Ha1).
    destruct (IH (step w e) Hc1 Hidle1) as (Hc2 & Hreq2 & added2 & Hd2 & Ha2).
    split; [ exact Hc2 | ]. split; [ rewrite <- Hreq1; exact Hreq2 | ].
    exists (added1 ++ added2). split.
    + unfold run in Hd2. rewrite Hd2, Hd1, app_assoc. reflexivity.
    + apply Forall_app. split; assumption.
Qed.

Lemma emptied_cache_stays_empty_example :
  (let w := run pageLoad [Call None firstPage; Answer 0 accepted firstPage;
                          Call None firstPage; Answer 1 denied firstPage] in
   cachedApiKeys (variables w) = Some [] /\ idle w
   /\ dispatches (run w [Call None rotatedPage])
      = [Settled (Resolved "[]"); Settled allKeysFailed; Thrown "No API keys found"])
  /\ (let w := run pageLoad [Call None firstPage; Answer 0 accepted firstPage;
                             Call None firstPage; Answer 1 denied firstPage] in
      let w' := run w [Call None rotatedPage] in
      cachedApiKeys (variables w') = Some []
      /\ requests w' = requests w
      /\ exists added,
           dispatches w' = dispatches w ++ added
           /\ Forall (fun d => d = Thrown "No API keys found") added).
Proof.
  assert (H : let w := run pageLoad [Call None firstPage; Answer 0 accepted firstPage;
                                     Call None firstPage; Answer 1 denied firstPage] in
              cachedApiKeys (variables w) = Some [] /\ idle w).
  { vm_compute. split; [ reflexivity | repeat constructor ]. }
  split.
  - split; [ exact (proj1 H) | ]. split; [ exact (proj2 H) | vm_compute; reflexivity ].
  - exact (emptied_cache_stays_empty _ [Call None rotatedPage] (proj1 H) (proj2 H)).
Defined.

(** Whatever has happened on the page since it was loaded, the list a call
    tries is the cached list in another order: it holds no key twice, it has
    the keys of the cache and as many, and it starts with the last
    successful key when the cache holds that key. *)
Theorem initial_keys_reorder (history : list Event) (scripts : list string) :
  let w := run pageLoad history in
  let cached := cachedOrFound scripts (variables w) in
  let keys := initialKeys scripts w in
  NoDup keys
  /\ length keys = length cached
  /\ (forall k, In k keys <-> In k cached)
  /\ (forall k, lastSuccessfulKey (variables w) = Some k -> In k cached ->
        hd_error keys = Some k).
Proof.
  intros w cached keys.
  assert (Hc : NoDup cached /\ Forall (fun k => Auth.nonEmpty k = true) cached).
  { pose proof (distinctCache_run history pageLoad I) as H.
    fold w in H. unfold distinctCache in H. unfold cached, cachedOrFound.
    destruct (cachedApiKeys (variables w)); [ exact H | apply findApiKeys_distinct ]. }
  destruct Hc as (Hnd & Hne).
  destruct (keysToTry_facts cached (lastSuccessfulKey (variables w)) Hnd)
    as (H1 & H2 & H3).
  split; [ exact H1 | ]. split; [ exact H2 | ]. split; [ exact H3 | ].
  intros k Hk Hin. unfold keys, initialKeys. fold cached. rewrite Hk.
  unfold keysToTry.
  rewrite (proj1 (Forall_forall _ _) Hne k Hin).
  rewrite (proj2 (includes_In cached k) Hin). reflexivity.
Qed.

(** ** The converter on documents of any kind *)

Import Convert ConvertSpec ConvertFacts.

Ltac unbind H :=
  repeat match type of H with
         | bind _ _ = Ok _ => apply bind_Ok in H as (? & _ & H)
         end.

(** Whatever the document, a result of [convertPromptData] is an array that
    holds one array of fourteen entries: it is never [null], [undefined] or
    another value that counts as false, so a caller that tests the result
    for absence never sees one. *)
Theorem convertPromptData_never_absent (display : JSVal -> string) (fuel : nat)
    (promptName : string) (document payload : JSVal) :
  convertPromptData display fuel promptName document = Ok payload ->
  truthy payload = true
  /\ exists entries, payload = Arr [Arr entries] /\ length entries = 14%nat.
Proof.
  intros H. unfold convertPromptData in H.
  apply bind_Ok in H as (isApi & _ & H). destruct isApi.
  - unfold convertPromptAPI in H. unbind H. injection H as <-.
    split; [ reflexivity | ]. eexists. split; reflexivity.
  - unfold convertPromptStudio in H. unbind H. injection H as <-.
    split; [ reflexivity | ]. eexists. split; reflexivity.
Qed.

Lemma convertPromptData_never_absent_example :
  convertPromptData (fun _ => EmptyString) 1 "chat" (Arr [])
  = Ok (Arr [Arr [Null; Null; Null;
                  Arr [Null; Null; Null; Null; Null; Null; Null; UNKNOWN_PAD;
                       Str "text/plain"; Num 0; Null; Null; Null; Num 1; Num 0;
                       Null; Null; Num 0; Num 0];
                  titleArray "chat";
                  Null; Null; Null; Null; Null; Null; Null;
                  Arr [];
                  Arr [Undefined; userInputField]]])
  /\ truthy (Arr [Arr [Null; Null; Null;
                       Arr [Null; Null; Null; Null; Null; Null; Null; UNKNOWN_PAD;
                            Str "text/plain"; Num 0; Null; Null; Null; Num 1; Num 0;
                            Null; Null; Num 0; Num 0];
                       titleArray "chat";
                       Null; Null; Null; Null; Null; Null; Null;
                       Arr [];
                       Arr [Undefined; userInputField]]]) = true
  /\ exists entries,
       Arr [Arr [Null; Null; Null;
                 Arr [Null; Null; Null; Null; Null; Null; Null; UNKNOWN_PAD;
                      Str "text/plain"; Num 0; Null; Null; Null; Num 1; Num 0;
                      Null; Null; Num 0; Num 0];
                 titleArray "chat";
                 Null; Null; Null; Null; Null; Null; Null;
                 Arr [];
                 Arr [Undefined; userInputField]]]
       = Arr [Arr entries] /\ length entries = 14%nat.
Proof.
  assert (H : convertPromptData (fun _ => EmptyString) 1 "chat" (Arr [])
              = Ok (Arr [Arr [Null; Null; Null;
                  Arr [Null; Null; Null; Null; Null; Null; Null; UNKNOWN_PAD;
                       Str "text/plain"; Num 0; Null; Null; Null; Num 1; Num 0;
                       Null; Null; Num 0; Num 0];
                  titleArray "chat";
                  Null; Null; Null; Null; Null; Null; Null;
                  Arr [];
                  Arr [Undefined; userInputField]]])) by (vm_compute; reflexivity).
  split; [ exact H | ].
  exact (convertPromptData_never_absent (fun _ => EmptyString) 1 "chat" (Arr []) _ H).
Defined.

(** The schema converter needs the parts of a schema: a schema without a
    type, an array schema without [items] and an object schema without
    [properties] each make it throw a TypeError. *)
Theorem convertResponseSchema_missing_parts (fuel : nat)
    (props : list (string * JSVal)) :
  (lookup "type" props = None ->
   convertResponseSchema (S fuel) (Obj props) = Throw "TypeError")
  /\ (forall raw, lookup "type" props = Some (Str raw) ->
        toLocaleLowerCase raw = "array" -> lookup "items" props = None ->
        convertResponseSchema (S (S fuel)) (Obj props) = Throw "TypeError")
  /\ (forall raw, lookup "type" props = Some (Str raw) ->
        toLocaleLowerCase raw = "object" -> lookup "properties" props = None ->
        convertResponseSchema (S fuel) (Obj props) = Throw "TypeError").
Proof.
  split; [ | split ].
  - intros Ht. cbn [convertResponseSchema]. unfold buildSchema.
    rewrite getProp_Obj, Ht. reflexivity.
  - intros raw Ht Hraw Hi. cbn [convertResponseSchema]. unfold buildSchema at 1.
    rewrite !getProp_Obj, Ht, Hi. cbn [optValue bind]. rewrite Hraw.
    reflexivity.
  - intros raw Ht Hraw Hp. cbn [convertResponseSchema]. unfold buildSchema.
    rewrite !getProp_Obj, Ht, Hp. cbn [optValue bind]. rewrite Hraw.
    reflexivity.
Qed.

Lemma convertResponseSchema_missing_parts_example :
  convertResponseSchema 1 (Obj [("description", Str "no type")]) = Throw "TypeError"
  /\ convertResponseSchema 2 (Obj [("type", Str "ARRAY")]) = Throw "TypeError"
  /\ convertResponseSchema 1 (Obj [("type", Str "object")]) = Throw "TypeError".
Proof.
  destruct (convertResponseSchema_missing_parts 0 [("description", Str "no type")])
    as (H1 & _ & _).
  destruct (convertResponseSchema_missing_parts 0 [("type", Str "ARRAY")])
    as (_ & H2 & _).
  destruct (convertResponseSchema_missing_parts 0 [("type", Str "object")])
    as (_ & _ & H3).
  split; [ exact (H1 eq_refl) | ].
  split; [ exact (H2 "ARRAY" eq_refl eq_refl eq_refl) | ].
  exact (H3 "object" eq_refl eq_refl eq_refl).
Defined.

(** The list [required] of an object schema is encoded only when the type is
    spelled [object], in lower case: then it is the eighth entry.  Under any
    other spelling, as [OBJECT], the properties are encoded and the list is
    dropped: the result has seven entries. *)
Theorem required_needs_lower_case (fuel : nat) (props : list (string * JSVal))
    (raw : string) (result : JSVal) :
  lookup "type" props = Some (Str raw) ->
  toLocaleLowerCase raw = "object" ->
  convertResponseSchema fuel (Obj props) = Ok result ->
  exists kept,
    result = Arr kept
    /\ if (raw =? "object")%string && truthy (optValue (lookup "required" props))
       then length kept = 8%nat
            /\ nth_error kept 7 = Some (optValue (lookup "required" props))
       else length kept = 7%nat.
Proof.
  intros Ht Hraw H. destruct fuel as [ | fuel]; [ discriminate H | ].
  cbn [convertResponseSchema] in H. apply bind_Ok in H as (schema & Hb & H).
  injection H as <-. unfold buildSchema in Hb.
  rewrite !getProp_Obj, Ht in Hb. cbn [optValue bind] in Hb. rewrite Hraw in Hb.
  change (("object" =? "string")%string) with false in Hb.
  change (("object" =? "array")%string) with false in Hb.
  change (("object" =? "object")%string) with true in Hb.
  cbn [bind] in Hb.
  apply bind_Ok in Hb as (properties & Hprops & Hb).
  assert (Hp : exists l, properties = Arr l).
  { unbind Hprops. injection Hprops as <-. eexists. reflexivity. }
  destruct Hp as (l & ->).
  destruct (raw =? "object")%string; cbn [bind andb] in Hb |- *.
  - destruct (truthy (optValue (lookup "required" props))) eqn:Hreq;
      injection Hb as <-; eexists; cbn [length trimLoop nth nullish negb].
    + assert (Hn : nullish (optValue (lookup "required" props)) = false)
        by (destruct (optValue (lookup "required" props)); try reflexivity;
            discriminate Hreq).
      rewrite Hn. cbn [negb firstn]. split; [ reflexivity | ].
      split; reflexivity.
    + split; reflexivity.
  - injection Hb as <-. eexists. cbn [length trimLoop nth nullish negb].
    split; reflexivity.
Qed.

Lemma required_needs_lower_case_example :
  convertResponseSchema 2
    (Obj [("type", Str "OBJECT");
          ("properties", Obj [("name", Obj [("type", Str "STRING")])]);
          ("required", Arr [Str "name"])])
  = Ok (Arr [Num 6; Null; Null; Null; Null; Null; Arr [Arr [Str "name"; Arr [Num 1]]]])
  /\ exists kept,
       Arr [Num 6; Null; Null; Null; Null; Null; Arr [Arr [Str "name"; Arr [Num 1]]]]
       = Arr kept
       /\ if ("OBJECT" =? "object")%string
             && truthy (optValue (lookup "required"
                          [("type", Str "OBJECT");
                           ("properties", Obj [("name", Obj [("type", Str "STRING")])]);
                           ("required", Arr [Str "name"])]))
          then length kept = 8%nat
               /\ nth_error kept 7
                  = Some (optValue (lookup "required"
                            [("type", Str "OBJECT");
                             ("properties", Obj [("name", Obj [("type", Str "STRING")])]);
                             ("required", Arr [Str "name"])]))
          else length kept = 7%nat.
Proof.
  assert (H : convertResponseSchema 2
                (Obj [("type", Str "OBJECT");
                      ("properties", Obj [("name", Obj [("type", Str "STRING")])]);
                      ("required", Arr [Str "name"])])
              = Ok (Arr [Num 6; Null; Null; Null; Null; Null;
                         Arr [Arr [Str "name"; Arr [Num 1]]]]))
    by (vm_compute; reflexivity).
  split; [ exact H | ].
  exact (required_needs_lower_case 2
           [("type", Str "OBJECT");
            ("properties", Obj [("name", Obj [("type", Str "STRING")])]);
            ("required", Arr [Str "name"])]
           "OBJECT" _ eq_refl eq_refl H).
Defined.

(** ** The cookie reader *)

Module CookieFacts.
Import Auth Text TextFacts HexFacts Cookies CookieSpec.

Lemma split_not_nil (sep : ascii) (s : string) : (1 <= length (split sep s))%nat.
Proof.
  induction s as [ | c s IH]; cbn [split length]; [ lia | ].
  destruct (Ascii.eqb c sep); cbn [length]; [ lia | ].
  destruct (split sep s); cbn [length]; lia.
Qed.

Lemma combine_fst_snd {A B : Type} (l : list (A * B)) :
  combine (map fst l) (map snd l) = l.
Proof.
  induction l as [ | [a b] l IH]; [ reflexivity | ].
  cbn [map combine fst snd]. rewrite IH. reflexivity.
Qed.

Lemma pairs_eq (documentCookie : string) :
  pairs documentCookie = map parseEntry (split ";" documentCookie).
Proof. unfold pairs, getKeys, getValues, parseCookies. apply combine_fst_snd. Qed.

(** An entry that starts with [name=] is parsed into [name] and the rest *)
Lemma parseEntry_prefix (name entry : string) :
  hasChar "=" name = false ->
  String.prefix (name ++ "=") (trim entry) = true ->
  parseEntry entry
  = (name, substringFrom (String.length (name ++ "=")) (trim entry)).
Proof.
  intros Hname Hp. unfold parseEntry.
  destruct (prefix_split _ _ Hp) as (r & E). rewrite E.
  rewrite substringFrom_app.
  rewrite append_assoc. change ("=" ++ r)%string with (String "=" r).
  rewrite (indexOf_char_found "=" name r Hname).
  rewrite substringTo_app.
  change (String "=" r) with ("=" ++ r)%string. rewrite <- append_assoc.
  rewrite (substringFrom_app' (name ++ "=") r); [ reflexivity | ].
  rewrite length_append. reflexivity.
Qed.

(** An entry parsed under a key that is not empty starts with the key and
    [=] *)
Lemma parseEntry_key (name value entry : string) :
  nonEmpty name = true -> parseEntry entry = (name, value) ->
  String.prefix (name ++ "=") (trim entry) = true.
Proof.
  intros Hname H. unfold parseEntry in H.
  destruct (indexOf "=" (trim entry)) as [i | ] eqn:E.
  - destruct (indexOf_char_split _ _ _ E) as (a & b & Es & Hlen & _).
    rewrite Es in H. rewrite (substringTo_app' a (String "=" b) i) in H
      by (symmetry; exact Hlen).
    injection H as Ha _. subst a. rewrite Es.
    change (String "=" b) with ("=" ++ b)%string. rewrite <- append_assoc.
    apply prefix_app.
  - injection H as Hk _. subst name. discriminate Hname.
Qed.

Lemma getLoop_parsed (name : string) (entries : list string)
    (defaultValue : option string) (v : string) :
  hasChar "=" name = false ->
  getLoop name entries defaultValue = Some v -> nonEmpty v = true ->
  In (name, v) (map parseEntry entries) \/ defaultValue = Some v.
Proof.
  intros Hname. induction entries as [ | entry rest IH]; cbn [getLoop map In];
    intros H Hv; [ right; exact H | ].
  destruct (String.prefix (name ++ "=") (trim entry)) eqn:Hp.
  - injection H as <-. left. left. apply parseEntry_prefix; assumption.
  - destruct (trim entry =? name)%string.
    + injection H as <-. discriminate Hv.
    + destruct (IH H Hv) as [Hin | Hd]; [ left; right; exact Hin | right; exact Hd ].
Qed.

Lemma getLoop_found (name value : string) (entries : list string)
    (defaultValue : option string) :
  nonEmpty name = true -> In (name, value) (map parseEntry entries) ->
  exists v, getLoop name entries defaultValue = Some v.
Proof.
  intros Hname. induction entries as [ | entry rest IH]; cbn [getLoop map In];
    intros H; [ contradiction | ].
  destruct (String.prefix (name ++ "=") (trim entry)) eqn:Hp;
    [ eexists; reflexivity | ].
  destruct (trim entry =? name)%string; [ eexists; reflexivity | ].
  destruct H as [H | H]; [ | exact (IH H) ].
  rewrite (parseEntry_key name value entry Hname H) in Hp. discriminate Hp.
Qed.

End CookieFacts.

Import Cookies CookieSpec CookieFacts.

(** [get] and [parseCookies] read the same cookies.  For a name without [=]:
    a value that [get] returns and that is not empty is the default value or
    stands beside the name among the parsed pairs; and when the name is not
    empty and stands among the parsed keys, [get] finds a value, whatever
    the default. *)
Theorem get_reads_parsed_cookies (documentCookie name : string)
    (defaultValue : option string) :
  hasChar "=" name = false ->
  (forall v, get documentCookie name defaultValue = Some v -> nonEmpty v = true ->
     In (name, v) (pairs documentCookie) \/ defaultValue = Some v)
  /\ (nonEmpty name = true ->
      forall v, In (name, v) (pairs documentCookie) ->
        exists v', get documentCookie name defaultValue = Some v').
Proof.
  intros Hname. rewrite pairs_eq. unfold get. split.
  - intros v. apply getLoop_parsed. exact Hname.
  - intros Hn v. apply getLoop_found. exact Hn.
Qed.

Lemma get_reads_parsed_cookies_example :
  hasChar "=" "SAPISID" = false
  /\ get "a=1; SAPISID=s3cr3t; SAPISID=other" "SAPISID" None = Some "s3cr3t"
  /\ pairs "a=1; SAPISID=s3cr3t; SAPISID=other"
     = [("a", "1"); ("SAPISID", "s3cr3t"); ("SAPISID", "other")]
  /\ (In ("SAPISID", "s3cr3t") (pairs "a=1; SAPISID=s3cr3t; SAPISID=other")
      \/ @None string = Some "s3cr3t").
Proof.
  split; [ reflexivity | ].
  split; [ vm_compute; reflexivity | ].
  split; [ vm_compute; reflexivity | ].
  destruct (get_reads_parsed_cookies "a=1; SAPISID=s3cr3t; SAPISID=other"
              "SAPISID" None eq_refl) as (H & _).
  apply H; vm_compute; reflexivity.
Defined.

(** [getCount] counts the entries [parseCookies] lists, except on an empty
    cookie text: there it is 0, while [getKeys] and [getValues] still hold
    one entry.  The two lists always have the same length, at least one. *)
Theorem getCount_and_keys (documentCookie : string) :
  length (getKeys documentCookie) = length (getValues documentCookie)
  /\ (1 <= length (getKeys documentCookie))%nat
  /\ getCount documentCookie
     = (if isEmpty documentCookie then 0 else length (getKeys documentCookie))%nat.
Proof.
  unfold getKeys, getValues, parseCookies, getCount, isEmpty. cbn [fst snd].
  rewrite !length_map. split; [ reflexivity | ].
  split; [ apply split_not_nil | ].
  destruct (nonEmpty documentCookie); reflexivity.
Qed.

(** ** The token list *)

Module TokenFacts.
Import Auth Cookies Tokens TokenSpec.

Lemma isSet_orElse (a b : option string) :
  isSet (orElse a b) = isSet a || isSet b.
Proof. unfold orElse. destruct (isSet a) eqn:E; [ exact E | reflexivity ]. Qed.

Lemma hashIfSet_unset (page : Page) (token : option string) (hashName : string)
    (additionalParams : AdditionalParams) :
  isSet token = false -> hashIfSet page token hashName additionalParams = Ok None.
Proof.
  destruct token as [t | ]; cbn [isSet hashIfSet]; intros H; [ | reflexivity ].
  rewrite H. reflexivity.
Qed.








End TokenFacts.

Import Tokens TokenSpec TokenFacts.

(** Without a secret there is no token and no exception: when none of the
    four window properties and none of the four cookies holds a text that is
    not empty, [getAuthTokens] returns [null], whatever the address of the
    page and whatever [__OVERRIDE_SID] holds. *)
Theorem getAuthTokens_needs_a_secret (page : Page) (authParams : AdditionalParams) :
  (forall property, In property secretProperties ->
     isSet (windowProperty page property) = false) ->
  (forall name, In name secretCookies ->
     isSet (get (documentCookie page) name None) = false) ->
  getAuthTokens page authParams = Ok None.
Proof.
  intros Hw Hc.
  assert (W1 := Hw "__SAPISID" (or_introl eq_refl)).
  assert (W2 := Hw "__APISID" (or_intror (or_introl eq_refl))).
  assert (W3 := Hw "__3PSAPISID" (or_intror (or_intror (or_introl eq_refl)))).
  assert (W4 := Hw "__1PSAPISID"
                  (or_intror (or_intror (or_intror (or_introl eq_refl))))).
  assert (C1 := Hc "SAPISID" (or_introl eq_refl)).
  assert (C2 := Hc "APISID" (or_intror (or_introl eq_refl))).
  assert (C3 := Hc "__Secure-3PAPISID" (or_intror (or_intror (or_introl eq_refl)))).
  assert (C4 := Hc "__Secure-1PAPISID"
                  (or_intror (or_intror (or_intror (or_introl eq_refl))))).
  unfold getAuthTokens, authTokens.
  match goal with
  | |- context [if isSet ?h then _ else _] => destruct (isSet h)
  end; [ | reflexivity ].
  unfold getTokenAndCreateHash.
  destruct (isSecureProtocol (locationOrigin page)).
  - rewrite W1, W3, W4. cbn [negb].
    rewrite !hashIfSet_unset by (rewrite ?isSet_orElse, ?C1, ?C3, ?C4; reflexivity).
    reflexivity.
  - rewrite W2. cbn [negb].
    rewrite !hashIfSet_unset by (rewrite ?isSet_orElse, ?C2, ?C3; reflexivity).
    reflexivity.
Qed.

Lemma getAuthTokens_needs_a_secret_example :
  getAuthTokens
    (mkPage examplePage "https://example.com" "theme=dark; SAPISID="
       (fun property => if (property =? "__OVERRIDE_SID")%string
                        then Some "override" else None))
    Falsy
  = Ok None.
Proof.
  apply getAuthTokens_needs_a_secret.
  - intros property H. cbn [secretProperties In] in H.
    repeat (destruct H as [<- | H]; [ reflexivity | ]). contradiction.
  - intros name H. cbn [secretCookies In] in H.
    repeat (destruct H as [<- | H]; [ vm_compute; reflexivity | ]). contradiction.
Defined.

